(** * Downly backend: scheduler, progress bus, URL policy, format
      normalisation and filename sanitisation.

    A shallow embedding of
      - services/progressService.ts   (ProgressService)
      - services/queueService.ts      (QueueService)
      - services/downloadService.ts   (DownloadService)
      - services/conversionService.ts (formats of the ConversionService)
      - utils/urlValidator.js         (isValidUrl, isSupportedMediaUrl)
      - services/ytdlpService.js      (YtDlpService.normalizeResponse)
      - utils/safeFilename.js         (safeFilename)
      - routes/download.ts            (file name of the response)
    followed by the properties established about them. *)

From Stdlib Require Import ZArith NArith QArith Qround Lia Lqa DecimalString DecimalPos.
From stdpp Require Import base option list gmap strings sorting.

(** ** JavaScript values used by the services *)

Module JS.

(** Truthiness of a string: only the empty string is falsy. *)
Definition truthy (s : string) : bool := bool_decide (s ≠ EmptyString).

(** Truthiness of an optional string ([undefined] is falsy). *)
Definition truthy_opt (o : option string) : bool :=
  match o with
  | Some s => truthy s
  | None => false
  end.

(** [a || b] where [a] is an optional string. *)
Definition or_else (a : option string) (b : string) : string :=
  match a with
  | Some s => if truthy s then s else b
  | None => b
  end.

(** Interpolation of a possibly undefined string in a template literal. *)
Definition interpolate (o : option string) : string :=
  match o with
  | Some s => s
  | None => "undefined"
  end.

(** [Math.round(x)] for the rational [x = n / d], [d <> 0]:
    the integer [floor (x + 1/2)], for an operand that is known
    exactly. *)
Definition round_div (n d : Z) : Z := ((2 * n + d) / (2 * d))%Z.

(** *** Arithmetic on doubles

    A finite double is the rational it denotes.  The result of a
    division or multiplication is the double nearest to the exact
    result, ties to the even significand of 53 bits.  Overflow and
    underflow are not modelled: the exponent is unbounded. *)

(** The integer nearest to [n / d] for [0 < d], ties to even. *)
Definition roundHalfEven (n d : Z) : Z :=
  let q := (n / d)%Z in
  let r := (n mod d)%Z in
  if (2 * r <? d)%Z then q
  else if (d <? 2 * r)%Z then (q + 1)%Z
  else if Z.even q then q else (q + 1)%Z.

(** The exponent [k] of the leading bit of [n / d], for positive [n]
    and [d]: [2 ^ k <= n / d < 2 ^ (k + 1)]. *)
Definition exponent (n d : Z) : Z :=
  let e := (Z.log2 n - Z.log2 d)%Z in
  if (d * 2 ^ Z.max 0 e <=? n * 2 ^ Z.max 0 (- e))%Z then e else (e - 1)%Z.

(** The double nearest to [n / d], for positive [n] and [d]. *)
Definition nearest64 (n d : Z) : Q :=
  let s := (52 - exponent n d)%Z in
  let m := roundHalfEven (n * 2 ^ Z.max 0 s) (d * 2 ^ Z.max 0 (- s)) in
  (inject_Z (m * 2 ^ Z.max 0 (- s)) / inject_Z (2 ^ Z.max 0 s))%Q.

Definition toDouble (x : Q) : Q :=
  match Qnum x with
  | Z0 => 0%Q
  | Zpos n => nearest64 (Zpos n) (Zpos (Qden x))
  | Zneg n => (- nearest64 (Zpos n) (Zpos (Qden x)))%Q
  end.

(** [x / y] and [x * y] on doubles, [y] not zero. *)
Definition div (x y : Q) : Q := toDouble (x / y).
Definition mul (x y : Q) : Q := toDouble (x * y).

(** [Math.round(x)]: the integer nearest to the double [x], ties
    upwards. *)
Definition round (x : Q) : Z := Qfloor (x + (1 # 2)).

End JS.

(** ** JavaScript strings as sequences of UTF-16 code units

    Regular expressions without the [u] flag, [length], [slice] and
    [trim] all work on code units.  Identifiers and messages that are
    only compared and concatenated are kept as [string]. *)

Abbreviation jsstring := (list N).

Module Str.

Definition lit (s : string) : jsstring :=
  (λ b, N.of_nat (Byte.to_nat b)) <$> String.list_byte_of_string s.

Definition inRange (lo hi c : N) : bool := (lo <=? c)%N && (c <=? hi)%N.

(** [\d] *)
Definition isDigit (c : N) : bool := inRange 48 57 c.
Definition isUpper (c : N) : bool := inRange 65 90 c.
Definition isLower (c : N) : bool := inRange 97 122 c.
Definition isAlnum (c : N) : bool := isDigit c || isUpper c || isLower c.
(** [\w] *)
Definition isWord (c : N) : bool := isAlnum c || (c =? 95)%N.
(** [\s], which is also the set removed by [trim]:
    TAB LF VT FF CR SP NBSP, U+1680, U+2000..U+200A, U+2028, U+2029,
    U+202F, U+205F, U+3000, U+FEFF. *)
Definition isSpace (c : N) : bool :=
  inRange 9 13 c || (c =? 32)%N || (c =? 160)%N || (c =? 5760)%N
  || inRange 8192 8202 c || (c =? 8232)%N || (c =? 8233)%N
  || (c =? 8239)%N || (c =? 8287)%N || (c =? 12288)%N || (c =? 65279)%N.

(** Case folding used by the [i] flag on patterns made of ASCII
    characters: a code unit outside ASCII never matches an ASCII
    letter. *)
Definition foldCase (c : N) : N := if isUpper c then (c + 32)%N else c.

Definition eqChar (ci : bool) (a b : N) : bool :=
  if ci then (foldCase a =? foldCase b)%N else (a =? b)%N.

(** Matches the literal [pat] at the start of [s] and returns the
    rest of [s]. *)
Fixpoint stripPrefix (ci : bool) (pat s : jsstring) : option jsstring :=
  match pat, s with
  | [], _ => Some s
  | _ :: _, [] => None
  | p :: pat', c :: s' =>
      if eqChar ci p c then stripPrefix ci pat' s' else None
  end.

Definition startsWith (ci : bool) (pat s : jsstring) : bool :=
  bool_decide (is_Some (stripPrefix ci pat s)).

(** The longest prefix of code units satisfying [P], and the rest. *)
Fixpoint span (P : N → bool) (s : jsstring) : jsstring * jsstring :=
  match s with
  | [] => ([], [])
  | c :: s' =>
      if P c then let '(a, b) := span P s' in (c :: a, b) else ([], s)
  end.

Fixpoint dropWhile (P : N → bool) (s : jsstring) : jsstring :=
  match s with
  | [] => []
  | c :: s' => if P c then dropWhile P s' else s
  end.

Definition dropWhileEnd (P : N → bool) (s : jsstring) : jsstring :=
  reverse (dropWhile P (reverse s)).

(** [s.trim()] *)
Definition trim (s : jsstring) : jsstring :=
  dropWhileEnd isSpace (dropWhile isSpace s).

(** [s.replace(/C+/g, r)] for a class [C] of code units: every
    maximal run of [C] becomes the single code unit [r]. *)
Fixpoint replaceRuns (C : N → bool) (r : N) (inRun : bool) (s : jsstring)
    : jsstring :=
  match s with
  | [] => []
  | c :: s' =>
      if C c then
        if inRun then replaceRuns C r true s'
        else r :: replaceRuns C r true s'
      else c :: replaceRuns C r false s'
  end.

(** The value of a run of decimal digits. *)
Definition digitsValue (ds : jsstring) : N :=
  fold_left (λ acc c, (10 * acc + (c - 48))%N) ds 0%N.

(** Decimal notation of an integer, as in [String(n)]. *)
Definition ofZ (z : Z) : jsstring :=
  lit (NilEmpty.string_of_int (Z.to_int z)).

End Str.

(** ** Data model of the progress bus (progressService.ts) *)

Inductive SessionStatus := SDownloading | SCompleted | SError | SCancelled.

Global Instance SessionStatus_eq_dec : EqDecision SessionStatus.
Proof. solve_decision. Defined.

Module DownloadProgress.
Record t := mk {
  downloadId : string;
  bytesDownloaded : Z;
  totalBytes : option Z;
  percentage : option Z;
  status : SessionStatus;
  error : option string;
}.
End DownloadProgress.

Module DownloadSession.
(** The [process] and [stream] handles of a session belong to the
    operating system; killing and destroying them has no effect on
    the state modelled here. *)
Record t := mk {
  downloadId : string;
  url : string;
  formatId : string;
  progress : DownloadProgress.t;
  createdAt : Z;
}.

Definition set_progress (p : DownloadProgress.t) (s : t) : t :=
  mk (downloadId s) (url s) (formatId s) p (createdAt s).
End DownloadSession.

(** ** Data model of the scheduler (queueService.ts) *)

Inductive JobType := download | convert.
Inductive JobStatus := queued | downloading | converting | completed | failed.
Inductive ConversionFormat := mp3 | mp4 | webm | aac.

Global Instance JobType_eq_dec : EqDecision JobType.
Proof. solve_decision. Defined.
Global Instance JobStatus_eq_dec : EqDecision JobStatus.
Proof. solve_decision. Defined.
Global Instance ConversionFormat_eq_dec : EqDecision ConversionFormat.
Proof. solve_decision. Defined.

Record JobProgress := mkJobProgress {
  jp_bytesDownloaded : Z;
  jp_totalBytes : option Z;
  jp_percentage : option Z;
}.

Module QueueJob.
Record t := mk {
  id : string;
  type : JobType;
  url : string;
  formatId : option string;
  targetFormat : option ConversionFormat;
  inputFile : option string;
  dependsOn : option string;
  status : JobStatus;
  createdAt : Z;
  startedAt : option Z;
  completedAt : option Z;
  error : option string;
  downloadId : option string;
  progress : option JobProgress;
}.

Definition set_status (v : JobStatus) (j : t) : t :=
  mk (id j) (type j) (url j) (formatId j) (targetFormat j) (inputFile j)
     (dependsOn j) v (createdAt j) (startedAt j) (completedAt j)
     (error j) (downloadId j) (progress j).
Definition set_startedAt (v : option Z) (j : t) : t :=
  mk (id j) (type j) (url j) (formatId j) (targetFormat j) (inputFile j)
     (dependsOn j) (status j) (createdAt j) v (completedAt j)
     (error j) (downloadId j) (progress j).
Definition set_completedAt (v : option Z) (j : t) : t :=
  mk (id j) (type j) (url j) (formatId j) (targetFormat j) (inputFile j)
     (dependsOn j) (status j) (createdAt j) (startedAt j) v
     (error j) (downloadId j) (progress j).
Definition set_error (v : option string) (j : t) : t :=
  mk (id j) (type j) (url j) (formatId j) (targetFormat j) (inputFile j)
     (dependsOn j) (status j) (createdAt j) (startedAt j) (completedAt j)
     v (downloadId j) (progress j).
Definition set_downloadId (v : option string) (j : t) : t :=
  mk (id j) (type j) (url j) (formatId j) (targetFormat j) (inputFile j)
     (dependsOn j) (status j) (createdAt j) (startedAt j) (completedAt j)
     (error j) v (progress j).
Definition set_progress (v : option JobProgress) (j : t) : t :=
  mk (id j) (type j) (url j) (formatId j) (targetFormat j) (inputFile j)
     (dependsOn j) (status j) (createdAt j) (startedAt j) (completedAt j)
     (error j) (downloadId j) v.
Definition set_inputFile (v : option string) (j : t) : t :=
  mk (id j) (type j) (url j) (formatId j) (targetFormat j) v
     (dependsOn j) (status j) (createdAt j) (startedAt j) (completedAt j)
     (error j) (downloadId j) (progress j).
End QueueJob.

(** The snapshot built by [getQueueState].  Its [jobs] array holds
    references to the live job objects, so the snapshot records which
    jobs it lists (by id) and the counts computed when it was taken. *)
Record QueueState := mkQueueState {
  qs_jobs : list string;
  qs_queue : list string;
  qs_processing : option string;
  queuedCount : nat;
  processingCount : nat;
  completedCount : nat;
  failedCount : nat;
}.

(** Events emitted by the QueueService; job payloads are live
    references and are recorded by id. *)
Inductive QueueEvent :=
  | jobAdded (jobId : string)
  | jobStarted (jobId : string)
  | jobCompleted (jobId : string)
  | jobFailed (jobId : string)
  | jobCancelled (jobId : string)
  | jobProgress (jobId : string)
  | dependencyCompleted (jobId : string)
  | queueUpdated (snapshot : QueueState).

(** The two singletons [progressService] and [queueService] together.
    [published] is the sequence of ['progress'] events emitted by the
    progress bus, [emitted] the sequence of events emitted by the
    scheduler.  [drains] is a ghost trace: the value of [activeJob] at
    every entry of [processQueue]. *)
Record World := mkWorld {
  sessions : gmap string DownloadSession.t;
  published : list DownloadProgress.t;
  jobs : list QueueJob.t;
  queue : list string;
  activeJob : option string;
  emitted : list QueueEvent;
  drains : list (option string);
}.

Definition set_sessions (v : gmap string DownloadSession.t) (w : World) : World :=
  mkWorld v (published w) (jobs w) (queue w) (activeJob w) (emitted w) (drains w).
Definition set_published (v : list DownloadProgress.t) (w : World) : World :=
  mkWorld (sessions w) v (jobs w) (queue w) (activeJob w) (emitted w) (drains w).
Definition set_jobs (v : list QueueJob.t) (w : World) : World :=
  mkWorld (sessions w) (published w) v (queue w) (activeJob w) (emitted w) (drains w).
Definition set_queue (v : list string) (w : World) : World :=
  mkWorld (sessions w) (published w) (jobs w) v (activeJob w) (emitted w) (drains w).
Definition set_activeJob (v : option string) (w : World) : World :=
  mkWorld (sessions w) (published w) (jobs w) (queue w) v (emitted w) (drains w).
Definition set_emitted (v : list QueueEvent) (w : World) : World :=
  mkWorld (sessions w) (published w) (jobs w) (queue w) (activeJob w) v (drains w).
Definition set_drains (v : list (option string)) (w : World) : World :=
  mkWorld (sessions w) (published w) (jobs w) (queue w) (activeJob w) (emitted w) v.

(** Both services start empty. *)
Definition initial : World := mkWorld ∅ [] [] [] None [] [].

(** ** QueueService: internals *)

(** [this.jobs.get(jobId)].  The [jobs] Map is kept as the list of its
    values in insertion order (the order in which [jobs.values()]
    iterates); the key of an entry is the [id] of its job. *)
Fixpoint getJob (jobId : string) (js : list QueueJob.t) : option QueueJob.t :=
  match js with
  | [] => None
  | j :: js' =>
      if decide (QueueJob.id j = jobId) then Some j else getJob jobId js'
  end.

(** In-place mutation of the job object stored under [jobId]. *)
Fixpoint updateJob (jobId : string) (f : QueueJob.t → QueueJob.t)
    (js : list QueueJob.t) : list QueueJob.t :=
  match js with
  | [] => []
  | j :: js' =>
      if decide (QueueJob.id j = jobId) then f j :: js'
      else j :: updateJob jobId f js'
  end.

(** [const i = queue.indexOf(x); if (i !== -1) queue.splice(i, 1)]. *)
Fixpoint removeFirst (x : string) (q : list string) : list string :=
  match q with
  | [] => []
  | y :: q' => if decide (y = x) then q' else y :: removeFirst x q'
  end.

Definition isActive (s : JobStatus) : bool :=
  bool_decide (s = downloading ∨ s = converting).

Definition isTerminal (s : JobStatus) : bool :=
  bool_decide (s = completed ∨ s = failed).

Definition countStatus (P : JobStatus → bool) (js : list QueueJob.t) : nat :=
  length (filter (λ j, Is_true (P (QueueJob.status j))) js).

Definition getQueueState (w : World) : QueueState :=
  {| qs_jobs := QueueJob.id <$> jobs w;
     qs_queue := queue w;
     qs_processing := activeJob w;
     queuedCount := countStatus (λ s, bool_decide (s = queued)) (jobs w);
     processingCount := countStatus isActive (jobs w);
     completedCount := countStatus (λ s, bool_decide (s = completed)) (jobs w);
     failedCount := countStatus (λ s, bool_decide (s = failed)) (jobs w) |}.

Definition emit (e : QueueEvent) (w : World) : World :=
  set_emitted (emitted w ++ [e]) w.

Definition emitQueueUpdated (w : World) : World :=
  emit (queueUpdated (getQueueState w)) w.

Definition canJobStart (job : QueueJob.t) (w : World) : bool :=
  match QueueJob.dependsOn job with
  | Some d =>
      if JS.truthy d then
        match getJob d (jobs w) with
        | None => false
        | Some dependency => bool_decide (QueueJob.status dependency = completed)
        end
      else true
  | None => true
  end.

(** [processQueue]; the recursion after dropping a stale head is on the
    remaining queue. *)
Fixpoint processQueueFrom (q : list string) (w : World) : World :=
  let w := set_drains (drains w ++ [activeJob w]) w in
  match activeJob w, q with
  | Some _, _ => w
  | None, [] => w
  | None, nextJobId :: rest =>
      match getJob nextJobId (jobs w) with
      | None => processQueueFrom rest (set_queue rest w)
      | Some nextJob =>
          if canJobStart nextJob w then emitQueueUpdated w
          else emitQueueUpdated w
      end
  end.

Definition processQueue (w : World) : World := processQueueFrom (queue w) w.

Definition finishJob (jobId : string) (w : World) : World :=
  let w := if decide (activeJob w = Some jobId) then set_activeJob None w
           else w in
  let w := emitQueueUpdated w in
  processQueue w.

Definition dependsOnQueued (downloadJobId : string) (job : QueueJob.t) : bool :=
  bool_decide (QueueJob.type job = convert
               ∧ QueueJob.dependsOn job = Some downloadJobId
               ∧ QueueJob.status job = queued).

Definition notifyDependentJobs (downloadJobId : string) (w : World) : World :=
  fold_left
    (λ w job,
       if dependsOnQueued downloadJobId job
       then emitQueueUpdated (emit (dependencyCompleted (QueueJob.id job)) w)
       else w)
    (jobs w) w.

Definition markFailed (error : option string) (now : Z)
    (j : QueueJob.t) : QueueJob.t :=
  QueueJob.set_completedAt (Some now)
    (QueueJob.set_error error (QueueJob.set_status failed j)).

Definition failDependentJobs (downloadJobId : string) (error : string)
    (now : Z) (w : World) : World :=
  fold_left
    (λ w job,
       if dependsOnQueued downloadJobId job then
         let w := set_queue (removeFirst (QueueJob.id job) (queue w)) w in
         let w := set_jobs
                    (updateJob (QueueJob.id job) (markFailed (Some error) now)
                       (jobs w)) w in
         emit (jobFailed (QueueJob.id job)) w
       else w)
    (jobs w) w.

(** The first job, in insertion order, whose [downloadId] is the one of
    the progress event. *)
Fixpoint findByDownloadId (downloadId : string) (js : list QueueJob.t)
    : option QueueJob.t :=
  match js with
  | [] => None
  | j :: js' =>
      if decide (QueueJob.downloadId j = Some downloadId) then Some j
      else findByDownloadId downloadId js'
  end.

(** The listener that the QueueService constructor registers on
    [progressService.on('progress', ...)].  [now] is the value of
    [new Date()] during the call. *)
Definition onProgress (now : Z) (p : DownloadProgress.t) (w : World) : World :=
  match findByDownloadId (DownloadProgress.downloadId p) (jobs w) with
  | None => w
  | Some job =>
      let jobId := QueueJob.id job in
      let mirrored :=
        {| jp_bytesDownloaded := DownloadProgress.bytesDownloaded p;
           jp_totalBytes := DownloadProgress.totalBytes p;
           jp_percentage := DownloadProgress.percentage p |} in
      let w := set_jobs
                 (updateJob jobId (QueueJob.set_progress (Some mirrored))
                    (jobs w)) w in
      let w :=
        match DownloadProgress.status p with
        | SCompleted =>
            if isActive (QueueJob.status job) then
              let w := set_jobs
                         (updateJob jobId
                            (λ j, QueueJob.set_completedAt (Some now)
                                    (QueueJob.set_status completed j))
                            (jobs w)) w in
              let w := if decide (QueueJob.type job = download)
                       then notifyDependentJobs jobId w else w in
              let w := emit (jobCompleted jobId) w in
              finishJob jobId w
            else w
        | SError =>
            let w := set_jobs
                       (updateJob jobId
                          (markFailed (DownloadProgress.error p) now)
                          (jobs w)) w in
            let w := if decide (QueueJob.type job = download)
                     then failDependentJobs jobId
                            ("Dependency failed: "
                             +:+ JS.interpolate (DownloadProgress.error p))
                            now w
                     else w in
            let w := emit (jobFailed jobId) w in
            finishJob jobId w
        | _ => w
        end in
      emitQueueUpdated (emit (jobProgress jobId) w)
  end.

(** ** ProgressService *)

(** [this.emit('progress', p)]: the event is published and the
    scheduler's listener runs synchronously. *)
Definition emitProgress (now : Z) (p : DownloadProgress.t) (w : World) : World :=
  onProgress now p (set_published (published w ++ [p]) w).

(** [gen] is the identifier that [generateDownloadId()] returns when it
    is called. *)
Definition createSession (now : Z) (url formatId : string)
    (downloadId : option string) (gen : string) (w : World) : string * World :=
  let id := JS.or_else downloadId gen in
  match sessions w !! id with
  | Some _ => (id, w)
  | None =>
      let session :=
        {| DownloadSession.downloadId := id;
           DownloadSession.url := url;
           DownloadSession.formatId := formatId;
           DownloadSession.progress :=
             {| DownloadProgress.downloadId := id;
                DownloadProgress.bytesDownloaded := 0;
                DownloadProgress.totalBytes := None;
                DownloadProgress.percentage := None;
                DownloadProgress.status := SDownloading;
                DownloadProgress.error := None |};
           DownloadSession.createdAt := now |} in
      (id, set_sessions (<[id := session]> (sessions w)) w)
  end.

(** [totalBytes ? Math.round((bytesDownloaded / totalBytes) * 100) : null],
    with the quotient and the product rounded as doubles.  The byte
    counts themselves are integers, which a double holds exactly below
    2^53. *)
Definition computePercentage (bytesDownloaded : Z) (totalBytes : option Z)
    : option Z :=
  match totalBytes with
  | Some t =>
      if decide (t = 0%Z) then None
      else Some (JS.round
                   (JS.mul (JS.div (inject_Z bytesDownloaded) (inject_Z t))
                      100))
  | None => None
  end.

(** Assignment [session.progress = p] followed by the emission of [p]. *)
Definition setProgress (now : Z) (downloadId : string)
    (session : DownloadSession.t) (p : DownloadProgress.t) (w : World) : World :=
  emitProgress now p
    (set_sessions
       (<[downloadId := DownloadSession.set_progress p session]> (sessions w)) w).

Definition updateProgress (now : Z) (downloadId : string)
    (bytesDownloaded : Z) (totalBytes : option Z) (w : World) : World :=
  match sessions w !! downloadId with
  | None => w
  | Some session =>
      setProgress now downloadId session
        {| DownloadProgress.downloadId := downloadId;
           DownloadProgress.bytesDownloaded := bytesDownloaded;
           DownloadProgress.totalBytes := totalBytes;
           DownloadProgress.percentage :=
             computePercentage bytesDownloaded totalBytes;
           DownloadProgress.status := SDownloading;
           DownloadProgress.error := None |} w
  end.

Definition markCompleted (now : Z) (downloadId : string) (w : World) : World :=
  match sessions w !! downloadId with
  | None => w
  | Some session =>
      let old := DownloadSession.progress session in
      setProgress now downloadId session
        {| DownloadProgress.downloadId := DownloadProgress.downloadId old;
           DownloadProgress.bytesDownloaded := DownloadProgress.bytesDownloaded old;
           DownloadProgress.totalBytes := DownloadProgress.totalBytes old;
           DownloadProgress.percentage := Some 100%Z;
           DownloadProgress.status := SCompleted;
           DownloadProgress.error := DownloadProgress.error old |} w
  end.

Definition markError (now : Z) (downloadId : string) (error : string)
    (w : World) : World :=
  match sessions w !! downloadId with
  | None => w
  | Some session =>
      let old := DownloadSession.progress session in
      setProgress now downloadId session
        {| DownloadProgress.downloadId := DownloadProgress.downloadId old;
           DownloadProgress.bytesDownloaded := DownloadProgress.bytesDownloaded old;
           DownloadProgress.totalBytes := DownloadProgress.totalBytes old;
           DownloadProgress.percentage := DownloadProgress.percentage old;
           DownloadProgress.status := SError;
           DownloadProgress.error := Some error |} w
  end.

(** The removal of the session that [cancelDownload] schedules five
    seconds later is the separate step [expireSession]. *)
Definition cancelDownload (now : Z) (downloadId : string) (w : World)
    : bool * World :=
  match sessions w !! downloadId with
  | None => (false, w)
  | Some session =>
      let old := DownloadSession.progress session in
      (true,
       setProgress now downloadId session
         {| DownloadProgress.downloadId := DownloadProgress.downloadId old;
            DownloadProgress.bytesDownloaded := DownloadProgress.bytesDownloaded old;
            DownloadProgress.totalBytes := DownloadProgress.totalBytes old;
            DownloadProgress.percentage := DownloadProgress.percentage old;
            DownloadProgress.status := SCancelled;
            DownloadProgress.error := DownloadProgress.error old |} w)
  end.

Definition expireSession (downloadId : string) (w : World) : World :=
  set_sessions (delete downloadId (sessions w)) w.

Definition getProgress (downloadId : string) (w : World)
    : option DownloadProgress.t :=
  DownloadSession.progress <$> sessions w !! downloadId.

(** ** QueueService: public operations *)

(** A call either returns a value or throws an [Error] with a message. *)
Inductive Outcome (A : Type) :=
  | Returned (a : A)
  | Thrown (message : string).
Arguments Returned {A} a.
Arguments Thrown {A} message.

Definition headIs (jobId : string) (q : list string) : bool :=
  bool_decide (head q = Some jobId).

(** [gen] is the identifier that [generateJobId()] returns when it is
    called.  For an id that is already known the method reads
    [this.processing], a property the class does not have, so the
    comparison [this.processing === null] is false. *)
Definition addDownloadJob (now : Z) (url formatId : string)
    (jobId : option string) (gen : string) (w : World)
    : (string * bool) * World :=
  let id := JS.or_else jobId gen in
  match getJob id (jobs w) with
  | Some existingJob => ((id, false), w)
  | None =>
      let job :=
        {| QueueJob.id := id; QueueJob.type := download; QueueJob.url := url;
           QueueJob.formatId := Some formatId; QueueJob.targetFormat := None;
           QueueJob.inputFile := None; QueueJob.dependsOn := None;
           QueueJob.status := queued; QueueJob.createdAt := now;
           QueueJob.startedAt := None; QueueJob.completedAt := None;
           QueueJob.error := None; QueueJob.downloadId := None;
           QueueJob.progress := None |} in
      let w := set_jobs (jobs w ++ [job]) w in
      let w := set_queue (queue w ++ [id]) w in
      let w := emit (jobAdded id) w in
      let w := emitQueueUpdated w in
      let canStart := bool_decide (activeJob w = None) && headIs id (queue w) in
      let w := if canStart then processQueue w else w in
      ((id, canStart), w)
  end.

Definition addConvertJob (now : Z) (url : string)
    (targetFormat : ConversionFormat) (dependsOn inputFile jobId : option string)
    (gen : string) (w : World) : Outcome (string * bool) * World :=
  let id := JS.or_else jobId gen in
  match getJob id (jobs w) with
  | Some existingJob =>
      (Returned
         (id,
          bool_decide (QueueJob.status existingJob = queued)
          && bool_decide (activeJob w = None)
          && canJobStart existingJob w), w)
  | None =>
      let dependencyError :=
        match dependsOn with
        | Some d =>
            if JS.truthy d then
              match getJob d (jobs w) with
              | None => Some ("Dependency job " +:+ d +:+ " not found")
              | Some dependency =>
                  if decide (QueueJob.type dependency = download) then None
                  else Some ("Dependency job " +:+ d
                             +:+ " must be a download job")
              end
            else None
        | None => None
        end in
      match dependencyError with
      | Some message => (Thrown message, w)
      | None =>
          let job :=
            {| QueueJob.id := id; QueueJob.type := convert;
               QueueJob.url := url; QueueJob.formatId := None;
               QueueJob.targetFormat := Some targetFormat;
               QueueJob.inputFile := inputFile;
               QueueJob.dependsOn := dependsOn;
               QueueJob.status := queued; QueueJob.createdAt := now;
               QueueJob.startedAt := None; QueueJob.completedAt := None;
               QueueJob.error := None; QueueJob.downloadId := None;
               QueueJob.progress := None |} in
          let w := set_jobs (jobs w ++ [job]) w in
          let w := set_queue (queue w ++ [id]) w in
          let w := emit (jobAdded id) w in
          let w := emitQueueUpdated w in
          let canStart :=
            bool_decide (activeJob w = None) && headIs id (queue w)
            && canJobStart job w in
          let w := if canStart then processQueue w else w in
          (Returned (id, canStart), w)
      end
  end.

Definition activeStatusFor (t : JobType) : JobStatus :=
  match t with
  | download => downloading
  | convert => converting
  end.

Definition markStarted (now : Z) (downloadId : string)
    (j : QueueJob.t) : QueueJob.t :=
  QueueJob.set_downloadId (Some downloadId)
    (QueueJob.set_startedAt (Some now)
       (QueueJob.set_status (activeStatusFor (QueueJob.type j)) j)).

Definition startJob (now : Z) (jobId downloadId : string) (w : World)
    : bool * World :=
  match getJob jobId (jobs w) with
  | None => (false, w)
  | Some job =>
      if negb (bool_decide (activeJob w = None)) then (false, w)
      else if negb (headIs jobId (queue w)) then (false, w)
      else if negb (canJobStart job w) then (false, w)
      else
        let w := set_queue (tail (queue w)) w in
        let w := set_activeJob (Some jobId) w in
        let w := set_jobs (updateJob jobId (markStarted now downloadId)
                             (jobs w)) w in
        let w := emit (jobStarted jobId) w in
        let w := emitQueueUpdated w in
        (true, w)
  end.

Definition completeJob (now : Z) (jobId : string) (w : World) : World :=
  match getJob jobId (jobs w) with
  | None => w
  | Some job =>
      let w := set_jobs
                 (updateJob jobId
                    (λ j, QueueJob.set_completedAt (Some now)
                            (QueueJob.set_status completed j))
                    (jobs w)) w in
      let w := if decide (QueueJob.type job = download)
               then notifyDependentJobs (QueueJob.id job) w else w in
      let w := emit (jobCompleted jobId) w in
      finishJob jobId w
  end.

Definition failJob (now : Z) (jobId error : string) (w : World) : World :=
  match getJob jobId (jobs w) with
  | None => w
  | Some job =>
      let w := set_jobs
                 (updateJob jobId (markFailed (Some error) now) (jobs w)) w in
      let w := if decide (QueueJob.type job = download)
               then failDependentJobs (QueueJob.id job)
                      ("Dependency failed: " +:+ error) now w
               else w in
      let w := emit (jobFailed jobId) w in
      finishJob jobId w
  end.

Definition cancelJob (now : Z) (jobId : string) (w : World) : bool * World :=
  match getJob jobId (jobs w) with
  | None => (false, w)
  | Some job =>
      let w := set_queue (removeFirst jobId (queue w)) w in
      let w :=
        if decide (activeJob w = Some jobId) then
          let w := match QueueJob.downloadId job with
                   | Some d =>
                       if JS.truthy d then (cancelDownload now d w).2 else w
                   | None => w
                   end in
          set_activeJob None w
        else w in
      let w := set_jobs
                 (updateJob jobId (markFailed (Some "Cancelled by user") now)
                    (jobs w)) w in
      let w := emit (jobCancelled jobId) w in
      let w := emitQueueUpdated w in
      let w := processQueue w in
      (true, w)
  end.

Definition setConvertJobInputFile (convertJobId inputFile : string)
    (w : World) : bool * World :=
  match getJob convertJobId (jobs w) with
  | None => (false, w)
  | Some job =>
      if decide (QueueJob.type job = convert) then
        let w := set_jobs
                   (updateJob convertJobId
                      (QueueJob.set_inputFile (Some inputFile)) (jobs w)) w in
        (true, emitQueueUpdated w)
      else (false, w)
  end.

(** [cleanupOldJobs(maxAge)], run by a timer every five minutes with
    the default [maxAge] of thirty minutes; [now] is [Date.now()]. *)
Definition isOldJob (now maxAge : Z) (j : QueueJob.t) : bool :=
  isTerminal (QueueJob.status j)
  && match QueueJob.completedAt j with
     | Some t => bool_decide (now - t > maxAge)%Z
     | None => false
     end.

Definition cleanupOldJobs (now maxAge : Z) (w : World) : World :=
  set_jobs (filter (λ j, ¬ Is_true (isOldJob now maxAge j)) (jobs w)) w.

Definition defaultMaxAge : Z := (30 * 60 * 1000)%Z.

(** The route handlers write [job.downloadId = progressDownloadId] on
    the job object they hold (routes/download.ts). *)
Definition routeSetDownloadId (jobId downloadId : string) (w : World) : World :=
  set_jobs
    (updateJob jobId (QueueJob.set_downloadId (Some downloadId)) (jobs w)) w.

(** ** Runs of the two services *)

(** One call made from outside: a route handler, a stream or process
    callback, or a timer.  [OpListener] is a bare invocation of the
    scheduler's progress listener with an arbitrary event. *)
Inductive Op :=
  | OpAddDownloadJob (now : Z) (url formatId : string)
      (jobId : option string) (gen : string)
  | OpAddConvertJob (now : Z) (url : string) (targetFormat : ConversionFormat)
      (dependsOn inputFile jobId : option string) (gen : string)
  | OpStartJob (now : Z) (jobId downloadId : string)
  | OpCompleteJob (now : Z) (jobId : string)
  | OpFailJob (now : Z) (jobId error : string)
  | OpCancelJob (now : Z) (jobId : string)
  | OpListener (now : Z) (p : DownloadProgress.t)
  | OpCreateSession (now : Z) (url formatId : string)
      (downloadId : option string) (gen : string)
  | OpUpdateProgress (now : Z) (downloadId : string) (bytesDownloaded : Z)
      (totalBytes : option Z)
  | OpMarkCompleted (now : Z) (downloadId : string)
  | OpMarkError (now : Z) (downloadId error : string)
  | OpCancelDownload (now : Z) (downloadId : string)
  | OpExpireSession (downloadId : string)
  | OpSetConvertJobInputFile (convertJobId inputFile : string)
  | OpCleanupOldJobs (now maxAge : Z)
  | OpRouteSetDownloadId (jobId downloadId : string).

Definition step (w : World) (o : Op) : World :=
  match o with
  | OpAddDownloadJob now url formatId jobId gen =>
      (addDownloadJob now url formatId jobId gen w).2
  | OpAddConvertJob now url targetFormat dependsOn inputFile jobId gen =>
      (addConvertJob now url targetFormat dependsOn inputFile jobId gen w).2
  | OpStartJob now jobId downloadId => (startJob now jobId downloadId w).2
  | OpCompleteJob now jobId => completeJob now jobId w
  | OpFailJob now jobId error => failJob now jobId error w
  | OpCancelJob now jobId => (cancelJob now jobId w).2
  | OpListener now p => onProgress now p w
  | OpCreateSession now url formatId downloadId gen =>
      (createSession now url formatId downloadId gen w).2
  | OpUpdateProgress now downloadId bytesDownloaded totalBytes =>
      updateProgress now downloadId bytesDownloaded totalBytes w
  | OpMarkCompleted now downloadId => markCompleted now downloadId w
  | OpMarkError now downloadId error => markError now downloadId error w
  | OpCancelDownload now downloadId => (cancelDownload now downloadId w).2
  | OpExpireSession downloadId => expireSession downloadId w
  | OpSetConvertJobInputFile convertJobId inputFile =>
      (setConvertJobInputFile convertJobId inputFile w).2
  | OpCleanupOldJobs now maxAge => cleanupOldJobs now maxAge w
  | OpRouteSetDownloadId jobId downloadId =>
      routeSetDownloadId jobId downloadId w
  end.

Definition run (ops : list Op) (w : World) : World := fold_left step ops w.

Definition reachable (w : World) : Prop := ∃ ops, w = run ops initial.

(** ** DownloadService.streamDownload (downloadService.ts) *)

Module Stderr.

Definition expectChar (c : N) (s : jsstring) : option jsstring :=
  match s with
  | x :: s' => if (x =? c)%N then Some s' else None
  | [] => None
  end.

Definition optionalChar (c : N) (s : jsstring) : jsstring * jsstring :=
  match s with
  | x :: s' => if (x =? c)%N then ([x], s') else ([], s)
  | [] => ([], [])
  end.

(** One or more white space characters. *)
Definition spaces1 (s : jsstring) : option jsstring :=
  match Str.span Str.isSpace s with
  | ([], _) => None
  | (_, rest) => Some rest
  end.

(** A decimal number, that is digits, an optional dot and further
    digits: the digits before the dot, the digits after it, and the
    rest of the input. *)
Definition decimal (s : jsstring)
    : option (jsstring * jsstring * jsstring) :=
  match Str.span Str.isDigit s with
  | ([], _) => None
  | (whole, rest) =>
      let '(_, rest) := optionalChar 46 rest in
      let '(frac, rest) := Str.span Str.isDigit rest in
      Some (whole, frac, rest)
  end.

Inductive SizeUnit := KIB | MIB | GIB.

(** [(MiB|GiB|KiB)] under the [i] flag, already upper-cased. *)
Definition sizeUnit (s : jsstring) : option SizeUnit :=
  if Str.startsWith true (Str.lit "MiB") s then Some MIB
  else if Str.startsWith true (Str.lit "GiB") s then Some GIB
  else if Str.startsWith true (Str.lit "KiB") s then Some KIB
  else None.

(** An attempt to match the progress pattern at the start of [s]:
    the literal "[download]", white space, a decimal number, a percent
    sign, white space, "of", white space, a decimal number (group 1),
    optional white space and a unit MiB, GiB or KiB (group 2), all
    letters compared without regard to case.  Each quantified part is
    followed by a character outside its class, so the greedy choice is
    the only one that can succeed. *)
Definition matchAt (s : jsstring)
    : option (jsstring * jsstring * SizeUnit) :=
  r ← Str.stripPrefix true (Str.lit "[download]") s;
  r ← spaces1 r;
  '(_, _, r) ← decimal r;
  r ← expectChar 37 r;
  r ← spaces1 r;
  r ← Str.stripPrefix true (Str.lit "of") r;
  r ← spaces1 r;
  '(whole, frac, r) ← decimal r;
  u ← sizeUnit (Str.dropWhile Str.isSpace r);
  Some (whole, frac, u).

(** [errorMsg.match(...)]: the leftmost position where the pattern
    matches. *)
Fixpoint progressMatch (s : jsstring)
    : option (jsstring * jsstring * SizeUnit) :=
  match matchAt s with
  | Some m => Some m
  | None =>
      match s with
      | [] => None
      | _ :: s' => progressMatch s'
      end
  end.

Definition multiplier (u : SizeUnit) : Z :=
  match u with
  | KIB => 1024
  | MIB => 1024 * 1024
  | GIB => 1024 * 1024 * 1024
  end%Z.

(** [Math.round(parseFloat(totalStr) * multiplier)], computed on the
    exact decimal value of [totalStr]. *)
Definition totalBytes (whole frac : jsstring) (u : SizeUnit) : Z :=
  JS.round_div
    (Z.of_N (Str.digitsValue (whole ++ frac)) * multiplier u)
    (10 ^ Z.of_nat (length frac)).

End Stderr.

(** The variables captured by the callbacks that one call of
    [streamDownload] installs, together with the flags of the child
    process that they read. *)
Record Stream := mkStream {
  st_downloadId : string;
  st_bytesDownloaded : Z;
  st_isCleanedUp : bool;
  st_timeoutId : bool;
  st_killed : bool;
  st_exitCode : option Z;
}.

Definition streamDownload (downloadId : string) : Stream :=
  mkStream downloadId 0 false true false None.

Definition set_bytes (v : Z) (s : Stream) : Stream :=
  mkStream (st_downloadId s) v (st_isCleanedUp s) (st_timeoutId s)
    (st_killed s) (st_exitCode s).
Definition clearTimeout (s : Stream) : Stream :=
  mkStream (st_downloadId s) (st_bytesDownloaded s) (st_isCleanedUp s) false
    (st_killed s) (st_exitCode s).
Definition kill (s : Stream) : Stream :=
  mkStream (st_downloadId s) (st_bytesDownloaded s) (st_isCleanedUp s)
    (st_timeoutId s) true (st_exitCode s).
Definition set_cleanedUp (s : Stream) : Stream :=
  mkStream (st_downloadId s) (st_bytesDownloaded s) true (st_timeoutId s)
    (st_killed s) (st_exitCode s).
Definition set_exitCode (v : option Z) (s : Stream) : Stream :=
  mkStream (st_downloadId s) (st_bytesDownloaded s) (st_isCleanedUp s)
    (st_timeoutId s) (st_killed s) v.

(** What the runtime delivers to the callbacks. *)
Inductive StreamEvent :=
  | Chunk (length : N)
  | Flush
  | StderrData (data : jsstring)
  | SpawnError (enoent : bool) (message : string)
  | Timeout
  | Cleanup
  | Exit (code : option Z) (signal : option string) (codeText : string)
  | Close (code : option Z) (signal : option string) (codeText : string).

(** [code !== 0 && code !== null] *)
Definition abnormal (code : option Z) : bool :=
  match code with
  | Some c => negb (c =? 0)%Z
  | None => false
  end.

Definition exitMessage (verb : string) (signal : option string)
    (codeText : string) : string :=
  if JS.truthy_opt signal
  then "yt-dlp process killed by signal " +:+ JS.interpolate signal
  else "yt-dlp process " +:+ verb +:+ " with code " +:+ codeText.

Definition onExit (now : Z) (verb : string) (code : option Z)
    (signal : option string) (codeText : string) (s : Stream) (w : World)
    : Stream * World :=
  if st_isCleanedUp s then (s, w)
  else
    let s := clearTimeout s in
    if abnormal code then
      (s, markError now (st_downloadId s) (exitMessage verb signal codeText) w)
    else if bool_decide (code = Some 0%Z) then
      (s, markCompleted now (st_downloadId s) w)
    else (s, w).

(** One callback.  [enoent] tells whether the message of a spawn error
    contains ENOENT, [codeText] is the exit code as it is interpolated
    into the message. *)
Definition streamStep (now : Z) (e : StreamEvent) (s : Stream) (w : World)
    : Stream * World :=
  match e with
  | Chunk len =>
      let bytes := (st_bytesDownloaded s + Z.of_N len)%Z in
      let s := set_bytes bytes s in
      if bool_decide (bytes mod 65536 = 0)%Z || (65536 <=? len)%N
      then (s, updateProgress now (st_downloadId s) bytes None w)
      else (s, w)
  | Flush =>
      let w := updateProgress now (st_downloadId s) (st_bytesDownloaded s)
                 None w in
      (s, markCompleted now (st_downloadId s) w)
  | StderrData data =>
      match Stderr.progressMatch data with
      | Some (whole, frac, u) =>
          (s, updateProgress now (st_downloadId s) (st_bytesDownloaded s)
                (Some (Stderr.totalBytes whole frac u)) w)
      | None => (s, w)
      end
  | SpawnError enoent message =>
      if st_isCleanedUp s then (s, w)
      else
        let errorMsg :=
          if enoent then "yt-dlp not found. Please install yt-dlp."
          else "yt-dlp process error: " +:+ message in
        (clearTimeout s, markError now (st_downloadId s) errorMsg w)
  | Timeout =>
      if st_timeoutId s then
        if st_killed s then (s, w)
        else (kill s, markError now (st_downloadId s) "Download timeout" w)
      else (s, w)
  | Cleanup =>
      if st_isCleanedUp s then (s, w)
      else
        let s := clearTimeout (set_cleanedUp s) in
        if negb (st_killed s) && bool_decide (st_exitCode s = None)
        then (kill s, w) else (s, w)
  | Exit code signal codeText =>
      onExit now "exited" code signal codeText (set_exitCode code s) w
  | Close code signal codeText =>
      onExit now "closed" code signal codeText s w
  end.

(** What can happen to one download id while its stream is open: a
    callback of the stream, or a call that the route handlers and the
    scheduler make on the progress bus for that id. *)
Inductive BusCall :=
  | FromStream (e : StreamEvent)
  | RouteMarkCompleted
  | RouteMarkError (error : string)
  | RouteCancelDownload.

Definition busStep (now : Z) (c : BusCall) (sw : Stream * World)
    : Stream * World :=
  let '(s, w) := sw in
  match c with
  | FromStream e => streamStep now e s w
  | RouteMarkCompleted => (s, markCompleted now (st_downloadId s) w)
  | RouteMarkError error => (s, markError now (st_downloadId s) error w)
  | RouteCancelDownload =>
      (* [session.process] is the child process of this stream, stored
         by [setSessionReferences] when the stream was opened *)
      let '(cancelled, w) := cancelDownload now (st_downloadId s) w in
      if cancelled && negb (st_killed s) && bool_decide (st_exitCode s = None)
      then (kill s, w) else (s, w)
  end.

Definition busRun (now : Z) (cs : list BusCall) (sw : Stream * World)
    : Stream * World :=
  fold_left (λ sw c, busStep now c sw) cs sw.

(** ** URL policy (utils/urlValidator.js) *)

(** The two properties of a parsed [URL] object that the validator
    reads. *)
Record URL := mkURL {
  protocol : jsstring;
  hostname : jsstring;
}.

(** [/^172\.(1[6-9]|2[0-9]|3[0-1])\./] *)
Definition private172 (s : jsstring) : bool :=
  match Str.stripPrefix false (Str.lit "172.") s with
  | Some (a :: b :: c :: _) =>
      (((a =? 49)%N && Str.inRange 54 57 b)
       || ((a =? 50)%N && Str.isDigit b)
       || ((a =? 51)%N && Str.inRange 48 49 b))
      && (c =? 46)%N
  | _ => false
  end.

Definition BLOCKED_PATTERNS : list (jsstring → bool) :=
  [ Str.startsWith true (Str.lit "localhost");
    Str.startsWith false (Str.lit "127.");
    Str.startsWith false (Str.lit "192.168.");
    Str.startsWith false (Str.lit "10.");
    private172;
    Str.startsWith false (Str.lit "0.0.0.0");
    Str.startsWith true (Str.lit "file:");
    Str.startsWith true (Str.lit "ftp:");
    Str.startsWith true (Str.lit "data:");
    Str.startsWith true (Str.lit "javascript:");
    Str.startsWith true (Str.lit "vbscript:") ].

Section UrlValidator.

(** The platform's WHATWG URL parser, [new URL(url)]; [None] stands
    for the [TypeError] it throws.  [toLowerCase] is
    [String.prototype.toLowerCase]. *)
Variable parseURL : jsstring → option URL.
Variable toLowerCase : jsstring → jsstring.

Definition isValidUrl (url : jsstring) : bool :=
  if bool_decide (url = []) then false
  else if (2048 <? N.of_nat (length url))%N then false
  else
    match parseURL url with
    | None => false
    | Some urlObj =>
        if negb (bool_decide (protocol urlObj = Str.lit "http:"))
           && negb (bool_decide (protocol urlObj = Str.lit "https:"))
        then false
        else
          let hostname := toLowerCase (hostname urlObj) in
          if existsb (λ pattern, pattern hostname) BLOCKED_PATTERNS
          then false
          else if bool_decide (hostname = Str.lit "localhost")
                  || bool_decide (hostname = Str.lit "127.0.0.1")
                  || bool_decide (hostname = Str.lit "::1")
          then false
          else if bool_decide (hostname = []) then false
          else true
    end.

End UrlValidator.

(** ** Filename sanitisation (utils/safeFilename.js) *)

Definition underscore : N := 95%N.
Definition isUnderscore (c : N) : bool := (c =? underscore)%N.

(** The complement of the class removed by the first [replace]: word
    characters, white space, dot and hyphen. *)
Definition isKept (c : N) : bool :=
  Str.isWord c || Str.isSpace c || (c =? 46)%N || (c =? 45)%N.

(** The four [replace] calls of [safeFilename], before [slice]. *)
Definition cleanName (name : jsstring) : jsstring :=
  let s := List.filter isKept name in
  let s := Str.replaceRuns Str.isSpace underscore false s in
  (* runs of two or more underscores become one; a single one stays *)
  let s := Str.replaceRuns isUnderscore underscore false s in
  Str.dropWhileEnd isUnderscore (Str.dropWhile isUnderscore s).

Definition orDownload (s : jsstring) : jsstring :=
  match s with
  | [] => Str.lit "download"
  | _ => s
  end.

Definition safeFilename (name : jsstring) : jsstring :=
  match name with
  | [] => Str.lit "download"
  | _ => orDownload (Str.trim (take 100 (cleanName name)))
  end.

(** ** Lookups in object literals *)

(** The names of the properties that an object literal inherits from
    [Object.prototype].  Their values are functions, or the prototype
    itself for [__proto__]: truthy values that are not strings. *)
Definition objectPrototypeKeys : list jsstring :=
  Str.lit <$> [ "constructor"; "__proto__"; "hasOwnProperty";
                "isPrototypeOf"; "propertyIsEnumerable"; "toLocaleString";
                "toString"; "valueOf"; "__defineGetter__";
                "__defineSetter__"; "__lookupGetter__";
                "__lookupSetter__" ]%string.

(** The value of [literal[key] || fallback] for an object literal whose
    own values are non-empty strings: a string, or a member of
    [Object.prototype] when [key] names one. *)
Inductive PropertyValue :=
  | Text (s : jsstring)
  | PrototypeMember (key : jsstring).

Definition lookupOr (literal : list (jsstring * jsstring)) (key : jsstring)
    (fallback : jsstring) : PropertyValue :=
  match list_find (λ entry, entry.1 = key) literal with
  | Some (_, entry) => Text entry.2
  | None =>
      if bool_decide (key ∈ objectPrototypeKeys) then PrototypeMember key
      else Text fallback
  end.

Global Instance PropertyValue_eq_dec : EqDecision PropertyValue.
Proof. solve_decision. Defined.

(** [String(Object.prototype[key])] as Node prints it: the prototype
    object itself for [__proto__], and a built-in function for every
    other key, [constructor] being the function [Object]. *)
Definition memberText (key : jsstring) : jsstring :=
  if bool_decide (key = Str.lit "__proto__") then Str.lit "[object Object]"
  else Str.lit "function "
       ++ (if bool_decide (key = Str.lit "constructor") then Str.lit "Object"
           else key)
       ++ Str.lit "() { [native code] }".

(** The text of a value in a template literal. *)
Definition propertyText (v : PropertyValue) : jsstring :=
  match v with
  | Text s => s
  | PrototypeMember key => memberText key
  end.

(** ** Extractor output normalisation (services/ytdlpService.js) *)

Inductive MediaType := video | audio.

Global Instance MediaType_eq_dec : EqDecision MediaType.
Proof. solve_decision. Defined.

(** One entry of [info.formats] in the extractor's JSON; a missing
    property is [None].  Pixel counts are integers, sizes and the
    duration are finite numbers taken as exact rationals. *)
Module RawFormat.
Record t := mk {
  format_id : option jsstring;
  ext : option jsstring;
  protocol : option jsstring;
  vcodec : option jsstring;
  acodec : option jsstring;
  height : option Z;
  width : option Z;
  resolution : option jsstring;
  filesize : option Q;
  filesize_approx : option Q;
}.
End RawFormat.

Module FormatInfo.
Record t := mk {
  format_id : jsstring;
  ext : PropertyValue;
  resolution : jsstring;
  filesize : jsstring;
  type : MediaType;
}.
End FormatInfo.

Record RawInfo := mkRawInfo {
  raw_title : option jsstring;
  raw_thumbnail : option jsstring;
  raw_duration : option Q;
  raw_formats : option (list RawFormat.t);
}.

Record AnalyzeResponse := mkAnalyzeResponse {
  title : jsstring;
  thumbnail : jsstring;
  duration : jsstring;
  formats : list FormatInfo.t;
}.

Module Truthy.
Definition str (o : option jsstring) : bool :=
  match o with
  | Some (_ :: _) => true
  | _ => false
  end.
Definition int (o : option Z) : bool :=
  match o with
  | Some z => negb (z =? 0)%Z
  | None => false
  end.
Definition positive (o : option Q) : bool :=
  match o with
  | Some q => (0 <? Qnum q)%Z
  | None => false
  end.
End Truthy.

Definition typeName (t : MediaType) : jsstring :=
  match t with
  | video => Str.lit "video"
  | audio => Str.lit "audio"
  end.

(** The integer part of [q], rounded towards zero. *)
Definition Qtruncate (q : Q) : Z := Z.quot (Qnum q) (Zpos (Qden q)).

(** [a % b]: the remainder has the sign of [a]. *)
Definition Qmod (a b : Q) : Q := (a - b * inject_Z (Qtruncate (a / b)))%Q.

Definition pad2 (s : jsstring) : jsstring :=
  if bool_decide (length s < 2) then Str.lit "0" ++ s else s.

(** [parseFloat(x.toFixed(2)).toString()] for [0 <= x]: the nearest
    multiple of 1/100, ties upwards, printed without trailing zeros. *)
Definition toFixed2Trimmed (x : Q) : jsstring :=
  let n := Qfloor (x * 100 + (1 # 2))%Q in
  let whole := (n / 100)%Z in
  let d1 := ((n mod 100) / 10)%Z in
  let d2 := (n mod 10)%Z in
  Str.ofZ whole
  ++ (if bool_decide (d1 = 0%Z ∧ d2 = 0%Z) then []
      else Str.lit "." ++ Str.ofZ d1
           ++ (if bool_decide (d2 = 0%Z) then [] else Str.ofZ d2)).

Definition units : list jsstring :=
  [Str.lit "B"; Str.lit "KB"; Str.lit "MB"; Str.lit "GB"; Str.lit "TB"].

(** The [while] loop of [formatFileSize]; it runs at most four times. *)
Fixpoint scaleSize (fuel : nat) (size : Q) (unitIndex : nat) : Q * nat :=
  match fuel with
  | O => (size, unitIndex)
  | S fuel' =>
      if Qle_bool 1024%Q size && bool_decide (unitIndex < 4)
      then scaleSize fuel' (size / 1024)%Q (S unitIndex)
      else (size, unitIndex)
  end.

Definition formatFileSize (bytes : Q) : jsstring :=
  let '(size, unitIndex) := scaleSize 4 bytes 0 in
  toFixed2Trimmed size ++ Str.lit " " ++ default [] (units !! unitIndex).

Definition normalizeFileSize (filesize filesize_approx : option Q) : jsstring :=
  if Truthy.positive filesize then formatFileSize (default 0%Q filesize)
  else if Truthy.positive filesize_approx
       then Str.lit "~" ++ formatFileSize (default 0%Q filesize_approx)
       else Str.lit "unknown".

Definition formatDuration (seconds : Q) : jsstring :=
  let hours := Qfloor (seconds / 3600)%Q in
  let minutes := Qfloor (Qmod seconds 3600%Q / 60)%Q in
  let secs := Qfloor (Qmod seconds 60%Q) in
  if (0 <? hours)%Z
  then Str.ofZ hours ++ Str.lit ":" ++ pad2 (Str.ofZ minutes)
       ++ Str.lit ":" ++ pad2 (Str.ofZ secs)
  else Str.ofZ minutes ++ Str.lit ":" ++ pad2 (Str.ofZ secs).

(** [resolution.match(/(\d+)p?/)] followed by [parseInt(match[1], 10)]:
    the value of the first run of digits, or 0.  The value is taken as
    an exact integer, as [parseInt] returns it for a number below
    2^53. *)
Definition extractResolutionValue (resolution : jsstring) : Z :=
  match Str.span Str.isDigit
          (Str.dropWhile (λ c, negb (Str.isDigit c)) resolution) with
  | ([], _) => 0%Z
  | (digits, _) => Z.of_N (Str.digitsValue digits)
  end.

(** The comparator handed to [processedFormats.sort]. *)
Definition compareFormats (a b : FormatInfo.t) : Z :=
  if decide (FormatInfo.type a ≠ FormatInfo.type b) then
    if decide (FormatInfo.type a = video) then (-1)%Z else 1%Z
  else
    (extractResolutionValue (FormatInfo.resolution b)
     - extractResolutionValue (FormatInfo.resolution a))%Z.

(** [Array.prototype.sort(compare)], a stable sort: every element is
    placed behind the elements that do not have to follow it. *)
Fixpoint insertSorted {A} (compare : A → A → Z) (x : A) (l : list A) : list A :=
  match l with
  | [] => [x]
  | y :: l' =>
      if (0 <? compare y x)%Z then x :: l
      else y :: insertSorted compare x l'
  end.

Definition sort {A} (compare : A → A → Z) (l : list A) : list A :=
  fold_left (λ sorted x, insertSorted compare x sorted) l [].

Definition sameTriple (type : MediaType) (ext : PropertyValue)
    (resolution : jsstring) (f : FormatInfo.t) : Prop :=
  FormatInfo.type f = type ∧ FormatInfo.ext f = ext
  ∧ FormatInfo.resolution f = resolution.

Global Instance sameTriple_dec type ext resolution f :
  Decision (sameTriple type ext resolution f).
Proof. unfold sameTriple. apply _. Defined.

Section YtDlpService.

(** [String.prototype.toLowerCase]. *)
Variable toLowerCase : jsstring → jsstring.

Definition containerMap : list (jsstring * jsstring) :=
  [ (Str.lit "m4a", Str.lit "mp4"); (Str.lit "m4v", Str.lit "mp4");
    (Str.lit "webma", Str.lit "webm"); (Str.lit "webmv", Str.lit "webm");
    (Str.lit "ogg", Str.lit "opus") ].

(** [containerMap[normalized] || normalized] *)
Definition normalizeContainerType (ext : jsstring) : PropertyValue :=
  let normalized := Str.trim (toLowerCase ext) in
  lookupOr containerMap normalized normalized.

Definition normalizeResolution (format : RawFormat.t) (type : MediaType)
    : jsstring :=
  match type with
  | audio => Str.lit "audio"
  | video =>
      let fromDimensions :=
        if Truthy.int (RawFormat.width format)
           && Truthy.int (RawFormat.height format)
        then Str.ofZ (default 0%Z (RawFormat.width format)) ++ Str.lit "x"
             ++ Str.ofZ (default 0%Z (RawFormat.height format))
        else if Truthy.int (RawFormat.height format)
             then Str.ofZ (default 0%Z (RawFormat.height format))
                  ++ Str.lit "p"
             else Str.lit "unknown" in
      if Truthy.str (RawFormat.resolution format)
         && negb (bool_decide
                    (RawFormat.resolution format = Some (Str.lit "unknown")))
      then
        let res := Str.trim (default [] (RawFormat.resolution format)) in
        if bool_decide (120%N ∈ res) then res
        else if bool_decide (last res = Some 112%N) then res
        else fromDimensions
      else fromDimensions
  end.

(** [codec && codec !== 'none'] *)
Definition hasCodec (codec : option jsstring) : bool :=
  Truthy.str codec && negb (bool_decide (codec = Some (Str.lit "none"))).

(** The body of the loop over [rawFormats]; the state is
    [processedFormats] and [seenFormats]. *)
Definition processFormat (acc : list FormatInfo.t * gset jsstring)
    (format : RawFormat.t) : list FormatInfo.t * gset jsstring :=
  let '(processedFormats, seenFormats) := acc in
  if negb (Truthy.str (RawFormat.format_id format))
     || negb (Truthy.str (RawFormat.ext format)) then acc
  else if bool_decide (RawFormat.ext format = Some (Str.lit "m3u8"))
          || bool_decide
               (RawFormat.protocol format = Some (Str.lit "m3u8_native"))
  then acc
  else
    let hasVideo := hasCodec (RawFormat.vcodec format) in
    let hasAudio := hasCodec (RawFormat.acodec format) in
    if negb hasVideo && negb hasAudio then acc
    else if hasVideo && negb (Truthy.int (RawFormat.height format))
            && negb (Truthy.int (RawFormat.width format))
            && negb (Truthy.str (RawFormat.resolution format))
    then acc
    else
      let type := if hasVideo then video else audio in
      let normalizedExt :=
        normalizeContainerType (default [] (RawFormat.ext format)) in
      let resolution := normalizeResolution format type in
      let filesize :=
        normalizeFileSize (RawFormat.filesize format)
          (RawFormat.filesize_approx format) in
      let entry :=
        {| FormatInfo.format_id := default [] (RawFormat.format_id format);
           FormatInfo.ext := normalizedExt;
           FormatInfo.resolution := resolution;
           FormatInfo.filesize := filesize;
           FormatInfo.type := type |} in
      let formatKey :=
        typeName type ++ Str.lit "-" ++ propertyText normalizedExt
        ++ Str.lit "-" ++ resolution in
      if bool_decide (formatKey ∈ seenFormats) then
        match list_find (sameTriple type normalizedExt resolution)
                processedFormats with
        | Some (existingIndex, existing) =>
            if negb (bool_decide (filesize = Str.lit "unknown"))
               && bool_decide
                    (FormatInfo.filesize existing = Str.lit "unknown")
            then (<[existingIndex := entry]> processedFormats, seenFormats)
            else acc
        | None => acc
        end
      else (processedFormats ++ [entry], {[formatKey]} ∪ seenFormats).

Definition normalizeResponse (info : RawInfo) : AnalyzeResponse :=
  let rawFormats := default [] (raw_formats info) in
  let processedFormats := (fold_left processFormat rawFormats ([], ∅)).1 in
  {| title := if Truthy.str (raw_title info)
              then default [] (raw_title info)
              else Str.lit "Unknown Title";
     thumbnail := default [] (raw_thumbnail info);
     duration := match raw_duration info with
                 | Some d => if Qeq_bool d 0%Q then Str.lit "unknown"
                             else formatDuration d
                 | None => Str.lit "unknown"
                 end;
     formats := sort compareFormats processedFormats |}.

End YtDlpService.

(** ** ProgressService: the periodic clean-up (progressService.ts) *)

Definition sessionTimeout : Z := (30 * 60 * 1000)%Z.

(** The test that [cleanupSessions] makes on a session; [now] is
    [Date.now()]. *)
Definition isStaleSession (now : Z) (session : DownloadSession.t) : bool :=
  let age := (now - DownloadSession.createdAt session)%Z in
  let status := DownloadProgress.status (DownloadSession.progress session) in
  bool_decide (age > sessionTimeout)%Z
  && (bool_decide (status = SCompleted) || bool_decide (status = SError)
      || bool_decide (status = SCancelled)).

(** [cleanupSessions()], run by a timer every five minutes. *)
Definition cleanupSessions (now : Z) (w : World) : World :=
  set_sessions
    (filter (λ entry, ¬ Is_true (isStaleSession now entry.2)) (sessions w)) w.

(** ** File names and media types
       (downloadService.ts, conversionService.ts) *)

(** A call that returns a value or throws an [Error] whose message is
    built from a JavaScript string. *)
Inductive Attempt (A : Type) :=
  | Done (a : A)
  | Raised (message : jsstring).
Arguments Done {A} a.
Arguments Raised {A} message.

(** The characters that [sanitizeFilename] replaces first: the signs
    less-than and greater-than, colon, double quote, slash, backslash,
    vertical bar, question mark and asterisk. *)
Definition isReservedChar (c : N) : bool :=
  bool_decide (c ∈ [60; 62; 58; 34; 47; 92; 124; 63; 42]%N).

Module DownloadService.

(** [sanitizeFilename]: every reserved character becomes an
    underscore, every run of white space becomes one underscore, and
    the result is cut with [substring(0, 200)]. *)
Definition sanitizeFilename (filename : jsstring) : jsstring :=
  let s := (λ c, if isReservedChar c then underscore else c) <$> filename in
  let s := Str.replaceRuns Str.isSpace underscore false s in
  take 200 s.

Definition contentTypeMap : list (jsstring * jsstring) :=
  [ (Str.lit "mp4", Str.lit "video/mp4");
    (Str.lit "webm", Str.lit "video/webm");
    (Str.lit "mp3", Str.lit "audio/mpeg");
    (Str.lit "m4a", Str.lit "audio/mp4");
    (Str.lit "aac", Str.lit "audio/aac");
    (Str.lit "ogg", Str.lit "audio/ogg");
    (Str.lit "opus", Str.lit "audio/opus");
    (Str.lit "flac", Str.lit "audio/flac") ].

Section WithLowerCase.

(** [String.prototype.toLowerCase]. *)
Variable toLowerCase : jsstring → jsstring.

Definition getContentType (ext : jsstring) : PropertyValue :=
  lookupOr contentTypeMap (toLowerCase ext)
    (Str.lit "application/octet-stream").

End WithLowerCase.

End DownloadService.

Module ConversionService.

Definition supportedFormats : list jsstring :=
  [Str.lit "mp3"; Str.lit "mp4"; Str.lit "webm"; Str.lit "aac"].

Definition contentTypeMap : list (jsstring * jsstring) :=
  [ (Str.lit "mp3", Str.lit "audio/mpeg");
    (Str.lit "mp4", Str.lit "video/mp4");
    (Str.lit "webm", Str.lit "video/webm");
    (Str.lit "aac", Str.lit "audio/aac") ].

(** The same method as in the DownloadService. *)
Definition sanitizeFilename (filename : jsstring) : jsstring :=
  let s := (λ c, if isReservedChar c then underscore else c) <$> filename in
  let s := Str.replaceRuns Str.isSpace underscore false s in
  take 200 s.

Section WithLowerCase.

(** [String.prototype.toLowerCase]. *)
Variable toLowerCase : jsstring → jsstring.

Definition isValidFormat (format : jsstring) : bool :=
  bool_decide (toLowerCase format ∈ supportedFormats).

(** [getFfmpegArgs]: the argument vector of the FFmpeg process. *)
Definition getFfmpegArgs (targetFormat : jsstring)
    : Attempt (list jsstring) :=
  let format := toLowerCase targetFormat in
  if bool_decide (format = Str.lit "mp3") then
    Done (Str.lit <$> [ "-i"; "pipe:0"; "-vn"; "-acodec"; "libmp3lame";
                        "-ab"; "192k"; "-ar"; "44100"; "-f"; "mp3";
                        "pipe:1" ]%string)
  else if bool_decide (format = Str.lit "aac") then
    Done (Str.lit <$> [ "-i"; "pipe:0"; "-vn"; "-acodec"; "aac";
                        "-ab"; "192k"; "-ar"; "44100"; "-f"; "adts";
                        "pipe:1" ]%string)
  else if bool_decide (format = Str.lit "mp4") then
    Done (Str.lit <$> [ "-i"; "pipe:0"; "-c"; "copy"; "-f"; "mp4";
                        "-movflags"; "frag_keyframe+empty_moov";
                        "pipe:1" ]%string)
  else if bool_decide (format = Str.lit "webm") then
    Done (Str.lit <$> [ "-i"; "pipe:0"; "-c"; "copy"; "-f"; "webm";
                        "pipe:1" ]%string)
  else Raised (Str.lit "Unsupported conversion format: " ++ targetFormat).

Definition getContentType (format : jsstring) : PropertyValue :=
  lookupOr contentTypeMap (toLowerCase format)
    (Str.lit "application/octet-stream").

Definition getFileExtension (format : jsstring) : jsstring :=
  toLowerCase format.

End WithLowerCase.

End ConversionService.

(** ** Supported media addresses (utils/urlValidator.js) *)

(** [s.includes(pat)], which is also the test of a pattern made of
    literal characters only. *)
Fixpoint includes (pat s : jsstring) : bool :=
  if Str.startsWith false pat s then true
  else match s with
       | [] => false
       | _ :: s' => includes pat s'
       end.

Definition supportedPatterns : list jsstring :=
  Str.lit <$> [ "youtube.com"; "youtu.be"; "vimeo.com"; "dailymotion.com";
                "facebook.com"; "instagram.com"; "twitter.com"; "tiktok.com";
                "soundcloud.com"; "spotify.com"; "reddit.com";
                "twitch.tv" ]%string.

Definition videoExtensions : list jsstring :=
  Str.lit <$> ["mp4"; "webm"; "m3u8"; "mp3"; "m4a"]%string.

(** An attempt to match, at the start of [s], a dot, one of the five
    extensions without regard to case, and then a question mark or the
    end of the input.  The alternatives are tried in order. *)
Definition extensionAt (s : jsstring) : bool :=
  match s with
  | 46%N :: r =>
      existsb
        (λ ext, match Str.stripPrefix true ext r with
                | Some [] => true
                | Some (c :: _) => (c =? 63)%N
                | None => false
                end) videoExtensions
  | _ => false
  end.

(** The test of the extension pattern at any position of [s]. *)
Fixpoint hasVideoExtension (s : jsstring) : bool :=
  extensionAt s
  || match s with
     | [] => false
     | _ :: s' => hasVideoExtension s'
     end.

Section SupportedMediaUrl.

Variable parseURL : jsstring → option URL.
Variable toLowerCase : jsstring → jsstring.

Definition isSupportedMediaUrl (url : jsstring) : bool :=
  if negb (isValidUrl parseURL toLowerCase url) then false
  else
    let hasKnownPattern :=
      existsb (λ pattern, includes pattern url) supportedPatterns in
    hasKnownPattern || hasVideoExtension url.

End SupportedMediaUrl.

(** ** The file name sent to the client
       (services/downloadService.ts, routes/download.ts) *)

(** The [filename] that [getDownloadInfo] returns when the format was
    found: the sanitised title, a dot and the extension. *)
Definition infoFilename (title extension : jsstring) : jsstring :=
  DownloadService.sanitizeFilename title ++ Str.lit "." ++ extension.

(** [safeFilename(downloadInfo.filename)] in the download route, the
    name that is put into the Content-Disposition header. *)
Definition headerFilename (title extension : jsstring) : jsstring :=
  safeFilename (infoFilename title extension).

(** ** Notions used to state the properties of the scheduler *)

(** The keys of the [jobs] Map are pairwise different. *)
Definition uniqueIds (w : World) : Prop := NoDup (QueueJob.id <$> jobs w).

(** Every job in an active status is the one named by [activeJob]. *)
Definition singleActive (w : World) : Prop :=
  ∀ j, j ∈ jobs w → Is_true (isActive (QueueJob.status j)) →
       activeJob w = Some (QueueJob.id j).

(** No job stored under the id [a] is in an active status. *)
Definition inactiveAt (a : string) (js : list QueueJob.t) : Prop :=
  ∀ j, j ∈ js → QueueJob.id j = a → ¬ Is_true (isActive (QueueJob.status j)).

(** The mutations of a job object other than its activation by
    [startJob]. *)
Inductive settle : relation QueueJob.t :=
  | settle_refl j : settle j j
  | settle_progress p j : settle j (QueueJob.set_progress p j)
  | settle_completed t j :
      settle j (QueueJob.set_completedAt t (QueueJob.set_status completed j))
  | settle_failed e t j : settle j (markFailed e t j)
  | settle_downloadId d j : settle j (QueueJob.set_downloadId d j)
  | settle_inputFile f j : settle j (QueueJob.set_inputFile f j)
  | settle_trans j1 j2 j3 : settle j1 j2 → settle j2 j3 → settle j1 j3.

(** A step that activates no job: the jobs are settled one by one and
    [activeJob] is kept, or cleared once its job is no longer active. *)
Definition quiet (w w' : World) : Prop :=
  Forall2 settle (jobs w) (jobs w')
  ∧ (activeJob w' = activeJob w
     ∨ (activeJob w' = None
        ∧ ∀ a, activeJob w = Some a → inactiveAt a (jobs w'))).

Definition schedulerInv (w : World) : Prop := uniqueIds w ∧ singleActive w.

(** The dependency of [job], if it has one, is a known job in status
    [completed]. *)
Definition dependencySatisfied (w : World) (job : QueueJob.t) : Prop :=
  ∀ d, QueueJob.dependsOn job = Some d → d ≠ EmptyString →
       ∃ dependency, getJob d (jobs w) = Some dependency
                     ∧ QueueJob.status dependency = completed.

(** A download job that is streaming. *)
Definition oneActive : World :=
  run [ OpAddDownloadJob 0 "https://example.test/v" "22" (Some "J1") "gen1";
        OpStartJob 1 "J1" "J1" ] initial.

(** One job streams and a second one waits in the queue. *)
Definition activeAndQueued : World :=
  run [ OpAddDownloadJob 0 "https://example.test/a" "22" (Some "A") "gen1";
        OpStartJob 1 "A" "A";
        OpAddDownloadJob 2 "https://example.test/b" "22" (Some "B") "gen2" ]
    initial.

(** Steps that touch neither [activeJob] nor the drain trace. *)
Definition sameControl (w w' : World) : Prop :=
  activeJob w' = activeJob w ∧ drains w' = drains w.

(** A download job and a convert job that depends on it, both queued. *)
Definition dependentPair : World :=
  run [ OpAddDownloadJob 0 "https://example.test/v" "22" (Some "J1") "gen1";
        OpAddConvertJob 1 "https://example.test/v" mp3 (Some "J1") None
          (Some "J2") "gen2" ] initial.

(** A download job that failed while it was still queued. *)
Definition failedJob : World :=
  run [ OpAddDownloadJob 0 "https://example.test/a" "22" (Some "A") "gen1";
        OpFailJob 1 "A" "boom" ] initial.

Definition statusOf (jobId : string) (w : World) : option JobStatus :=
  QueueJob.status <$> getJob jobId (jobs w).

Definition errorOf (jobId : string) (w : World) : option (option string) :=
  QueueJob.error <$> getJob jobId (jobs w).

(** ** Notions used to state the properties of the progress bus *)

Definition sessionStatus (downloadId : string) (w : World)
    : option SessionStatus :=
  DownloadProgress.status <$> getProgress downloadId w.

(** Steps that touch neither the session registry nor the published
    events. *)
Definition sameBus (w w' : World) : Prop :=
  sessions w' = sessions w ∧ published w' = published w.

(** A session whose download ended with an error. *)
Definition erroredSession : World :=
  run [ OpCreateSession 0 "https://example.test/v" "22" (Some "d1") "gen1";
        OpMarkError 1 "d1" "yt-dlp process exited with code 1" ] initial.

(** The progress object of a session that [createSession] has just
    made. *)
Definition freshProgress (downloadId : string) : DownloadProgress.t :=
  {| DownloadProgress.downloadId := downloadId;
     DownloadProgress.bytesDownloaded := 0;
     DownloadProgress.totalBytes := None;
     DownloadProgress.percentage := None;
     DownloadProgress.status := SDownloading;
     DownloadProgress.error := None |}.

Definition freshSession (downloadId : string) (w : World) : Prop :=
  ∀ session, sessions w !! downloadId = Some session →
             DownloadSession.progress session = freshProgress downloadId.

(** The byte counts of a sequence of events never decrease. *)
Definition monotoneBytes (events : list DownloadProgress.t) : Prop :=
  ∀ i j e1 e2, i ≤ j → events !! i = Some e1 → events !! j = Some e2 →
    (DownloadProgress.bytesDownloaded e1
     ≤ DownloadProgress.bytesDownloaded e2)%Z.

(** The bytes counted so far do not exceed the known total. *)
Definition withinTotal (p : DownloadProgress.t) : Prop :=
  ∀ t, DownloadProgress.totalBytes p = Some t →
       (DownloadProgress.bytesDownloaded p ≤ t)%Z.

Definition percentageBounded (p : DownloadProgress.t) : Prop :=
  ∀ pc, DownloadProgress.percentage p = Some pc → (pc ≤ 100)%Z.

(** What is known about the events published for [d] since the stream
    was opened, and about the session of [d], when the stream has
    counted [B] bytes. *)
Definition eventOk (d : string) (p : DownloadProgress.t) : Prop :=
  DownloadProgress.downloadId p = d
  ∧ (0 ≤ DownloadProgress.bytesDownloaded p)%Z
  ∧ (withinTotal p → percentageBounded p)
  ∧ (DownloadProgress.status p = SCompleted →
     DownloadProgress.percentage p = Some 100%Z).

Definition busInv (d : string) (before : list DownloadProgress.t) (B : Z)
    (w : World) : Prop :=
  ∃ events,
    published w = before ++ events
    ∧ Forall (eventOk d) events
    ∧ monotoneBytes events
    ∧ (events ≠ [] → is_Some (sessions w !! d))
    ∧ ∀ session, sessions w !! d = Some session →
        let p := DownloadSession.progress session in
        DownloadProgress.downloadId p = d
        ∧ (0 ≤ DownloadProgress.bytesDownloaded p ≤ B)%Z
        ∧ (withinTotal p → percentageBounded p)
        ∧ Forall (λ e, (DownloadProgress.bytesDownloaded e
                        ≤ DownloadProgress.bytesDownloaded p)%Z) events.

Definition streamInv (d : string) (before : list DownloadProgress.t)
    (sw : Stream * World) : Prop :=
  st_downloadId sw.1 = d ∧ (0 ≤ st_bytesDownloaded sw.1)%Z
  ∧ busInv d before (st_bytesDownloaded sw.1) sw.2.

(** The events up to and including the first one whose status is
    terminal. *)
Fixpoint untilTerminal (events : list DownloadProgress.t)
    : list DownloadProgress.t :=
  match events with
  | [] => []
  | p :: rest =>
      if decide (DownloadProgress.status p = SDownloading)
      then p :: untilTerminal rest
      else [p]
  end.

(** No event has a terminal status yet. *)
Definition stillDownloading (events : list DownloadProgress.t) : Prop :=
  Forall (λ p, DownloadProgress.status p = SDownloading) events.

(** What holds of an event of a stream whatever the session held when
    the stream was opened: a percentage that was computed for the event
    is within its bound, and a completed event has the percentage
    100. *)
Definition runOk (p : DownloadProgress.t) : Prop :=
  (DownloadProgress.status p = SDownloading →
   withinTotal p → percentageBounded p)
  ∧ (DownloadProgress.status p = SCompleted →
     DownloadProgress.percentage p = Some 100%Z).

(** What is known about the events published since the stream of [d]
    was opened on an arbitrary session, when the stream has counted [B]
    bytes. *)
Definition liveInv (d : string) (before : list DownloadProgress.t) (B : Z)
    (w : World) : Prop :=
  ∃ events,
    published w = before ++ events
    ∧ Forall runOk events
    ∧ monotoneBytes (untilTerminal events)
    ∧ (stillDownloading events →
       Forall (λ e, (DownloadProgress.bytesDownloaded e ≤ B)%Z) events
       ∧ ∀ session, events ≠ [] → sessions w !! d = Some session →
           Forall (λ e, (DownloadProgress.bytesDownloaded e
                         ≤ DownloadProgress.bytesDownloaded
                             (DownloadSession.progress session))%Z) events).

Definition liveStreamInv (d : string) (before : list DownloadProgress.t)
    (sw : Stream * World) : Prop :=
  st_downloadId sw.1 = d ∧ (0 ≤ st_bytesDownloaded sw.1)%Z
  ∧ liveInv d before (st_bytesDownloaded sw.1) sw.2.

(** A session for which two chunks of one MiB each have been streamed. *)
Definition twoMiBStreamed : Stream * World :=
  busRun 1 [FromStream (Chunk 1048576); FromStream (Chunk 1048576)]
    (streamDownload "d1",
     run [OpCreateSession 0 "https://example.test/v" "22" (Some "d1") "gen1"]
       initial).

(** A session that has just been created. *)
Definition sessionCreated : World :=
  run [OpCreateSession 0 "https://example.test/v" "22" (Some "d1") "gen1"]
    initial.

Definition stderrLine : jsstring :=
  Str.lit "[download] 100.0% of 1.00MiB at 2.00MiB/s ETA 00:00".

(** The download id d1 is streamed twice: the first stream has piped a
    chunk of 131072 bytes when a second stream is opened for the same
    id and pipes a chunk of 65536 bytes.  [createSession] keeps the
    session that exists, and the second stream counts from zero. *)
Definition streamedTwice : Stream * World :=
  busRun 2 [FromStream (Chunk 65536)]
    (streamDownload "d1",
     (busRun 1 [FromStream (Chunk 131072)]
        (streamDownload "d1", sessionCreated)).2).

(** ** Notions used to state the URL policy *)

(** [s] begins with [pat], letters compared without regard to case. *)
Definition prefixCI (pat s : jsstring) : Prop :=
  ∃ pre rest, s = pre ++ rest ∧ Str.foldCase <$> pre = Str.foldCase <$> pat.

(** The host patterns of the blocklist: localhost, 127.*, 192.168.*,
    10.*, 172.16.* to 172.31.*, 0.0.0.0 and ::1. *)
Definition hostBlocked (h : jsstring) : Prop :=
  prefixCI (Str.lit "localhost") h
  ∨ Str.lit "127." `prefix_of` h
  ∨ Str.lit "192.168." `prefix_of` h
  ∨ Str.lit "10." `prefix_of` h
  ∨ (∃ n, (16 ≤ n ≤ 31)%Z
          ∧ (Str.lit "172." ++ Str.ofZ n ++ Str.lit ".") `prefix_of` h)
  ∨ Str.lit "0.0.0.0" `prefix_of` h
  ∨ h = Str.lit "::1".

(** The remaining entries of [BLOCKED_PATTERNS]: a host name that
    begins like a URL of another scheme. *)
Definition schemeLike (h : jsstring) : Prop :=
  prefixCI (Str.lit "file:") h ∨ prefixCI (Str.lit "ftp:") h
  ∨ prefixCI (Str.lit "data:") h ∨ prefixCI (Str.lit "javascript:") h
  ∨ prefixCI (Str.lit "vbscript:") h.

(** A parser for URLs of the shape scheme://host/path, enough to run
    the validator on examples. *)
Definition demoParse (url : jsstring) : option URL :=
  let '(scheme, rest) := Str.span (λ c, negb (c =? 58)%N) url in
  match Str.stripPrefix false (Str.lit "://") rest with
  | Some r =>
      let '(host, _) :=
        Str.span (λ c, negb ((c =? 47)%N || (c =? 63)%N || (c =? 35)%N)) r in
      Some {| protocol := (Str.foldCase <$> scheme) ++ Str.lit ":";
              hostname := host |}
  | None => None
  end.

Definition demoLower (s : jsstring) : jsstring := Str.foldCase <$> s.

(** ** Notions used to state the properties of the sanitiser *)

(** The characters of a sanitised name: letters, digits, underscore,
    dot and hyphen. *)
Definition isSafeChar (c : N) : bool :=
  Str.isWord c || (c =? 46)%N || (c =? 45)%N.

(** No two adjacent characters of [s] are in the class [C]; [prev]
    tells whether the character before [s] is in [C]. *)
Fixpoint noRuns (C : N → bool) (prev : bool) (s : jsstring) : Prop :=
  match s with
  | [] => True
  | c :: s' =>
      if C c then prev = false ∧ noRuns C true s' else noRuns C false s'
  end.

(** A title of 99 letters, a space and "b", with the extension mp4. *)
Definition longName : jsstring :=
  replicate 99 97%N ++ Str.lit " b.mp4".

(** ** Notions used to state the properties of the format list *)

(** The (kind, ext, resolution) triple of an entry. *)
Definition triple (f : FormatInfo.t)
    : MediaType * PropertyValue * jsstring :=
  (FormatInfo.type f, FormatInfo.ext f, FormatInfo.resolution f).

(** The key under which an entry is remembered in [seenFormats]. *)
Definition formatKeyOf (f : FormatInfo.t) : jsstring :=
  typeName (FormatInfo.type f) ++ Str.lit "-"
  ++ propertyText (FormatInfo.ext f) ++ Str.lit "-" ++ FormatInfo.resolution f.

Definition knownSize (f : FormatInfo.t) : Prop :=
  FormatInfo.filesize f ≠ Str.lit "unknown".

(** The comparator does not ask for [a] to come after [b]. *)
Definition notAfter {A} (compare : A → A → Z) (a b : A) : Prop :=
  (compare a b ≤ 0)%Z.

Definition resolutionValue (f : FormatInfo.t) : Z :=
  extractResolutionValue (FormatInfo.resolution f).

(** The entry that the loop builds from a raw format, or [None] when
    the raw format is skipped. *)
Definition candidate (toLowerCase : jsstring → jsstring)
    (format : RawFormat.t) : option FormatInfo.t :=
  if negb (Truthy.str (RawFormat.format_id format))
     || negb (Truthy.str (RawFormat.ext format)) then None
  else if bool_decide (RawFormat.ext format = Some (Str.lit "m3u8"))
          || bool_decide
               (RawFormat.protocol format = Some (Str.lit "m3u8_native"))
  then None
  else
    let hasVideo := hasCodec (RawFormat.vcodec format) in
    let hasAudio := hasCodec (RawFormat.acodec format) in
    if negb hasVideo && negb hasAudio then None
    else if hasVideo && negb (Truthy.int (RawFormat.height format))
            && negb (Truthy.int (RawFormat.width format))
            && negb (Truthy.str (RawFormat.resolution format))
    then None
    else
      let type := if hasVideo then video else audio in
      Some {| FormatInfo.format_id := default [] (RawFormat.format_id format);
              FormatInfo.ext :=
                normalizeContainerType toLowerCase
                  (default [] (RawFormat.ext format));
              FormatInfo.resolution :=
                normalizeResolution format type;
              FormatInfo.filesize :=
                normalizeFileSize (RawFormat.filesize format)
                  (RawFormat.filesize_approx format);
              FormatInfo.type := type |}.

(** What the loop of [normalizeResponse] maintains; [candidates] are
    the entries built from the raw formats seen so far. *)
Definition loopInv (candidates : list FormatInfo.t)
    (acc : list FormatInfo.t * gset jsstring) : Prop :=
  NoDup (triple <$> acc.1)
  ∧ (∀ e, e ∈ acc.1 → formatKeyOf e ∈ acc.2)
  ∧ (∀ c, c ∈ candidates → formatKeyOf c ∈ acc.2)
  ∧ (∀ c e, c ∈ candidates → e ∈ acc.1 → triple e = triple c →
            knownSize c → knownSize e).

(** Two video formats in 720p, the second with a known size, a 1080p
    format and an audio format. *)
Definition sampleInfo : RawInfo :=
  let raw id ext vcodec acodec height size :=
    {| RawFormat.format_id := Some (Str.lit id);
       RawFormat.ext := Some (Str.lit ext);
       RawFormat.protocol := Some (Str.lit "https");
       RawFormat.vcodec := Some (Str.lit vcodec);
       RawFormat.acodec := Some (Str.lit acodec);
       RawFormat.height := height;
       RawFormat.width := None;
       RawFormat.resolution := None;
       RawFormat.filesize := size;
       RawFormat.filesize_approx := None |} in
  {| raw_title := Some (Str.lit "Sample");
     raw_thumbnail := None;
     raw_duration := Some (65 # 1);
     raw_formats :=
       Some [ raw "140" "m4a" "none" "mp4a" None (Some (1536 # 1));
              raw "22a" "mp4" "avc1" "mp4a" (Some 720%Z) None;
              raw "137" "mp4" "avc1" "none" (Some 1080%Z) None;
              raw "22b" "MP4" "avc1" "mp4a" (Some 720%Z)
                (Some (44178604 # 1)) ] |}.

(** A format of 1280 by 720 pixels, for which the extractor reports
    both dimensions, and a format of 1080 lines, for which it reports
    the height only. *)
Definition mixedLabels : RawInfo :=
  let raw id acodec width height :=
    {| RawFormat.format_id := Some (Str.lit id);
       RawFormat.ext := Some (Str.lit "mp4");
       RawFormat.protocol := Some (Str.lit "https");
       RawFormat.vcodec := Some (Str.lit "avc1");
       RawFormat.acodec := Some (Str.lit acodec);
       RawFormat.height := Some height;
       RawFormat.width := width;
       RawFormat.resolution := None;
       RawFormat.filesize := None;
       RawFormat.filesize_approx := None |} in
  {| raw_title := Some (Str.lit "Sample");
     raw_thumbnail := None;
     raw_duration := Some (65 # 1);
     raw_formats :=
       Some [ raw "137" "none" None 1080%Z;
              raw "22" "mp4a" (Some 1280%Z) 720%Z ] |}.

(** The second half of the loop body: what happens to an entry that has
    been built. *)
Definition mergeEntry (acc : list FormatInfo.t * gset jsstring)
    (entry : FormatInfo.t) : list FormatInfo.t * gset jsstring :=
  if bool_decide (formatKeyOf entry ∈ acc.2) then
    match list_find (sameTriple (FormatInfo.type entry) (FormatInfo.ext entry)
                       (FormatInfo.resolution entry)) acc.1 with
    | Some (existingIndex, existing) =>
        if negb (bool_decide (FormatInfo.filesize entry = Str.lit "unknown"))
           && bool_decide (FormatInfo.filesize existing = Str.lit "unknown")
        then (<[existingIndex := entry]> acc.1, acc.2)
        else acc
    | None => acc
    end
  else (acc.1 ++ [entry], {[formatKeyOf entry]} ∪ acc.2).

(** ** Further notions about the scheduler *)

(** The job named by [activeJob], if there is one, is known and in an
    active status. *)
Definition runningInv (w : World) : Prop :=
  ∀ a, activeJob w = Some a →
       ∃ j, getJob a (jobs w) = Some j
            ∧ Is_true (isActive (QueueJob.status j)).

(** Steps that leave [activeJob] and the ids of the jobs alone and
    keep every active job active, except perhaps the job [x]. *)
Definition keepsRunning (x : option string) (w w' : World) : Prop :=
  activeJob w' = activeJob w
  ∧ QueueJob.id <$> jobs w' = QueueJob.id <$> jobs w
  ∧ ∀ a j, Some a ≠ x → getJob a (jobs w) = Some j →
           Is_true (isActive (QueueJob.status j)) →
           ∃ j', getJob a (jobs w') = Some j'
                 ∧ Is_true (isActive (QueueJob.status j')).

(** The download job of [dependentPair] has been started and has
    completed; the convert job is at the head of the queue. *)
Definition dependencyDone : World :=
  run [ OpAddDownloadJob 0 "https://example.test/v" "22" (Some "J1") "gen1";
        OpAddConvertJob 1 "https://example.test/v" mp3 (Some "J1") None
          (Some "J2") "gen2";
        OpStartJob 2 "J1" "J1";
        OpCompleteJob 3 "J1" ] initial.

(** The job stored under [x] is in status [queued]. *)
Definition queuedAt (x : string) (w : World) : Prop :=
  ∃ j, getJob x (jobs w) = Some j ∧ QueueJob.status j = queued.

(** Every queued job has its id in the queue. *)
Definition queuedInv (w : World) : Prop := ∀ x, queuedAt x w → x ∈ queue w.

(** Steps that activate no job and take out of the queue only ids
    whose job is no longer queued. *)
Definition queueSafe (w w' : World) : Prop :=
  Forall2 settle (jobs w) (jobs w')
  ∧ ∀ x, x ∈ queue w → queuedAt x w' → x ∈ queue w'.

(** Two jobs are queued and the first one is old and failed: the state
    before a clean-up. *)
Definition withOldFailure : World :=
  run [ OpAddDownloadJob 0 "https://example.test/a" "22" (Some "A") "gen1";
        OpFailJob 1 "A" "boom";
        OpAddDownloadJob 2 "https://example.test/b" "22" (Some "B") "gen2" ]
    initial.

(** The download job of [dependentPair] is streaming. *)
Definition dependencyRunning : World :=
  run [ OpAddDownloadJob 0 "https://example.test/v" "22" (Some "J1") "gen1";
        OpAddConvertJob 1 "https://example.test/v" mp3 (Some "J1") None
          (Some "J2") "gen2";
        OpStartJob 2 "J1" "J1" ] initial.

(** ** Further notions about the progress bus *)

(** Every session is stored under its own id, and so is its progress
    object. *)
Definition sessionKeyInv (w : World) : Prop :=
  ∀ d session, sessions w !! d = Some session →
    DownloadSession.downloadId session = d
    ∧ DownloadProgress.downloadId (DownloadSession.progress session) = d.

(** A download job streams under a session of its own id, as the
    download route sets it up. *)
Definition streamingJob : World :=
  run [ OpAddDownloadJob 0 "https://example.test/v" "22" (Some "J1") "gen1";
        OpStartJob 1 "J1" "J1";
        OpCreateSession 1 "https://example.test/v" "22" (Some "J1") "gen2";
        OpRouteSetDownloadId "J1" "J1" ] initial.

(** The job of [streamingJob] has been cancelled by the user. *)
Definition cancelledJob : World :=
  run [ OpAddDownloadJob 0 "https://example.test/v" "22" (Some "J1") "gen1";
        OpStartJob 1 "J1" "J1";
        OpCreateSession 1 "https://example.test/v" "22" (Some "J1") "gen2";
        OpRouteSetDownloadId "J1" "J1";
        OpCancelJob 2 "J1" ] initial.

(** The progress object [p] with another status. *)
Definition withStatus (status : SessionStatus) (p : DownloadProgress.t)
    : DownloadProgress.t :=
  {| DownloadProgress.downloadId := DownloadProgress.downloadId p;
     DownloadProgress.bytesDownloaded := DownloadProgress.bytesDownloaded p;
     DownloadProgress.totalBytes := DownloadProgress.totalBytes p;
     DownloadProgress.percentage := DownloadProgress.percentage p;
     DownloadProgress.status := status;
     DownloadProgress.error := DownloadProgress.error p |}.

(** The calls that are methods of the QueueService, its listener and
    the write of the route handlers on a job. *)
Definition schedulerCall (o : Op) : bool :=
  match o with
  | OpAddDownloadJob _ _ _ _ _ | OpAddConvertJob _ _ _ _ _ _ _
  | OpStartJob _ _ _ | OpCompleteJob _ _ | OpFailJob _ _ _ | OpCancelJob _ _
  | OpListener _ _ | OpSetConvertJobInputFile _ _ | OpCleanupOldJobs _ _
  | OpRouteSetDownloadId _ _ => true
  | _ => false
  end.

(** A session that completed at time 1 and a session that is still
    downloading, both created at time 0. *)
Definition twoSessions : World :=
  run [ OpCreateSession 0 "https://example.test/a" "22" (Some "d1") "gen1";
        OpCreateSession 0 "https://example.test/b" "22" (Some "d2") "gen2";
        OpMarkCompleted 1 "d1" ] initial.

(** ** Further notions about the stream *)

(** The sizes of the chunks that the stream's callbacks received. *)
Definition chunkBytes (calls : list BusCall) : Z :=
  foldr (λ c acc, match c with
                  | FromStream (Chunk len) => (Z.of_N len + acc)%Z
                  | _ => acc
                  end) 0%Z calls.

(** The callbacks that report on the child process or clean up after
    it, as opposed to those that carry data. *)
Definition processEvent (e : StreamEvent) : bool :=
  match e with
  | SpawnError _ _ | Timeout | Cleanup | Exit _ _ _ | Close _ _ _ => true
  | Chunk _ | Flush | StderrData _ => false
  end.

(** ** Further notions about file names and addresses *)

(** A character that [sanitizeFilename] keeps as it is. *)
Definition isPlainChar (c : N) : bool :=
  negb (isReservedChar c) && negb (Str.isSpace c).

(** [s] contains [pat] as a substring. *)
Definition substringOf (pat s : jsstring) : Prop :=
  ∃ pre post, s = pre ++ pat ++ post.

(** [s] contains a dot followed by [ext], in any mix of upper and lower
    case, and then ends or goes on with a question mark. *)
Definition endsPathWith (ext s : jsstring) : Prop :=
  ∃ pre found post,
    s = pre ++ [46%N] ++ found ++ post
    ∧ Str.foldCase <$> found = Str.foldCase <$> ext
    ∧ (post = [] ∨ head post = Some 63%N).

(** ** Further notions about format entries *)

(** A run of decimal digits. *)
Definition isDigits (s : jsstring) : Prop :=
  Forall (λ c, Str.isDigit c = true) s.

(** [s] does not go on with a digit. *)
Definition noDigitAhead (s : jsstring) : Prop :=
  ∀ c, head s = Some c → Str.isDigit c = false.

(** A format as the extractor reports it for a picture of the given
    size, with or without the width and the resolution text. *)
Definition rawVideo (width : option Z) (height : Z)
    (resolution : option jsstring) : RawFormat.t :=
  {| RawFormat.format_id := Some (Str.lit "18");
     RawFormat.ext := Some (Str.lit "mp4");
     RawFormat.protocol := Some (Str.lit "https");
     RawFormat.vcodec := Some (Str.lit "avc1");
     RawFormat.acodec := Some (Str.lit "mp4a");
     RawFormat.height := Some height;
     RawFormat.width := width;
     RawFormat.resolution := resolution;
     RawFormat.filesize := None;
     RawFormat.filesize_approx := None |}.

(** The two decimal digits of a number below one hundred. *)
Definition twoDigits (n : Z) : jsstring :=
  [Z.to_N (48 + n / 10); Z.to_N (48 + n mod 10)].

(** ** Progress lines of the extractor *)

(** A non-empty run of decimal digits. *)
Definition isNumeral (s : jsstring) : Prop := s ≠ [] ∧ isDigits s.

(** A non-empty run of white space. *)
Definition isGap (s : jsstring) : Prop :=
  s ≠ [] ∧ Forall (λ c, Str.isSpace c = true) s.

Definition unitName (u : Stderr.SizeUnit) : jsstring :=
  match u with
  | Stderr.KIB => Str.lit "KiB"
  | Stderr.MIB => Str.lit "MiB"
  | Stderr.GIB => Str.lit "GiB"
  end.

(** A progress line: the tag, the percentage [pw.pf], the word [of] and
    the total [whole.frac] with its unit, separated by the gaps, and
    whatever follows. *)
Definition progressLine (gap1 pw pf gap2 gap3 whole frac : jsstring)
    (u : Stderr.SizeUnit) (rest : jsstring) : jsstring :=
  Str.lit "[download]" ++ gap1 ++ pw ++ Str.lit "." ++ pf ++ Str.lit "%"
  ++ gap2 ++ Str.lit "of" ++ gap3 ++ whole ++ Str.lit "." ++ frac
  ++ unitName u ++ rest.

(** ** The format list and the raw formats it is built from *)

(** What the loop of [normalizeResponse] maintains about the origin of
    its entries: every entry is one of the [candidates] built so far,
    every key that was seen belongs to an entry, and there are no more
    entries than candidates. *)
Definition coverInv (candidates : list FormatInfo.t)
    (acc : list FormatInfo.t * gset jsstring) : Prop :=
  (∀ e, e ∈ acc.1 → e ∈ candidates)
  ∧ (∀ key, key ∈ acc.2 → ∃ e, e ∈ acc.1 ∧ formatKeyOf e = key)
  ∧ length acc.1 ≤ length candidates.

(** * Properties *)

(** ** Frame lemmas for the scheduler *)

Section SchedulerFrames.

Implicit Types (w : World) (j : QueueJob.t) (js : list QueueJob.t).

Lemma settle_facts j j' :
  settle j j' →
  QueueJob.id j' = QueueJob.id j
  ∧ QueueJob.type j' = QueueJob.type j
  ∧ QueueJob.dependsOn j' = QueueJob.dependsOn j
  ∧ (Is_true (isActive (QueueJob.status j')) →
     QueueJob.status j' = QueueJob.status j)
  ∧ (QueueJob.status j' = queued → QueueJob.status j = queued).
Proof.
  induction 1 as [j|p j|t j|e t j|d j|f j|j1 j2 j3 _ IH1 _ IH2];
    try (cbn; repeat split; first [done | intros []; done | congruence]).
  destruct IH1 as (I1 & T1 & D1 & A1 & Q1), IH2 as (I2 & T2 & D2 & A2 & Q2).
  repeat split; try congruence.
  - intros Ha. rewrite (A2 Ha). apply A1. by rewrite <- (A2 Ha).
  - auto.
Qed.

Global Instance settle_preorder : PreOrder settle.
Proof. split; [exact settle_refl | exact settle_trans]. Qed.

Lemma settled_ids js js' :
  Forall2 settle js js' → QueueJob.id <$> js' = QueueJob.id <$> js.
Proof.
  induction 1 as [|j j' js js' Hs _ IH]; [done|].
  cbn. f_equal; [by apply settle_facts | done].
Qed.

Lemma settled_elem js js' j' :
  Forall2 settle js js' → j' ∈ js' → ∃ j, j ∈ js ∧ settle j j'.
Proof.
  induction 1 as [|j0 j0' js js' Hs _ IH]; intros Hin.
  - by apply elem_of_nil in Hin.
  - apply elem_of_cons in Hin as [->|Hin].
    + exists j0. split; [left | done].
    + destruct (IH Hin) as (j & Hj & Hjj'). exists j. split; [by right | done].
Qed.

Lemma inactiveAt_settled a js js' :
  Forall2 settle js js' → inactiveAt a js → inactiveAt a js'.
Proof.
  intros Hs Hina j' Hin Hid Hact.
  destruct (settled_elem _ _ _ Hs Hin) as (j & Hj & Hjj').
  destruct (settle_facts _ _ Hjj') as (I & _ & _ & A & _).
  apply (Hina j Hj); [congruence|]. by rewrite <- (A Hact).
Qed.

Lemma quiet_refl w : quiet w w.
Proof. split; [reflexivity | by left]. Qed.

Lemma quiet_trans w1 w2 w3 : quiet w1 w2 → quiet w2 w3 → quiet w1 w3.
Proof.
  intros [S1 A1] [S2 A2]. split; [by etrans|].
  destruct A1 as [E1|[N1 I1]], A2 as [E2|[N2 I2]].
  - left. congruence.
  - right. split; [done|]. intros a Ha. apply I2. congruence.
  - right. split; [congruence|]. intros a Ha.
    eapply inactiveAt_settled; [exact S2 | by apply I1].
  - right. split; [done|]. intros a Ha.
    eapply inactiveAt_settled; [exact S2 | by apply I1].
Qed.

(** A step that leaves the jobs and [activeJob] alone. *)
Lemma quiet_frame w w' :
  jobs w' = jobs w → activeJob w' = activeJob w → quiet w w'.
Proof. intros Hj Ha. split; [rewrite Hj; reflexivity | by left]. Qed.

Lemma updateJob_settled jobId f js :
  (∀ j, settle j (f j)) → Forall2 settle js (updateJob jobId f js).
Proof.
  intros Hf. induction js as [|j js IH]; cbn; [constructor|].
  case_decide; constructor; [apply Hf | reflexivity | reflexivity | done].
Qed.

Lemma quiet_updateJob jobId f w :
  (∀ j, settle j (f j)) → quiet w (set_jobs (updateJob jobId f (jobs w)) w).
Proof. intros Hf. split; [by apply updateJob_settled | by left]. Qed.

Lemma quiet_fold {A} (g : World → A → World) (l : list A) w :
  (∀ w x, quiet w (g w x)) → quiet w (fold_left g l w).
Proof.
  intros Hg. revert w. induction l as [|x l IH]; intros w; cbn.
  - apply quiet_refl.
  - eapply quiet_trans; [apply Hg | apply IH].
Qed.

Lemma processQueueFrom_frame q w :
  jobs (processQueueFrom q w) = jobs w
  ∧ activeJob (processQueueFrom q w) = activeJob w
  ∧ sessions (processQueueFrom q w) = sessions w
  ∧ published (processQueueFrom q w) = published w.
Proof.
  revert w. induction q as [|x q IH]; intros w; cbn.
  - by destruct (activeJob w) eqn:Ha.
  - destruct (activeJob w) eqn:Ha; cbn; [done|].
    destruct (getJob x (jobs w)) as [nextJob|]; cbn.
    + by destruct (canJobStart nextJob _).
    + destruct (IH (set_queue q (set_drains (drains w ++ [None]) w)))
        as (-> & -> & -> & ->). done.
Qed.

Lemma quiet_processQueue w : quiet w (processQueue w).
Proof.
  destruct (processQueueFrom_frame (queue w) w) as (Hj & Ha & _).
  by apply quiet_frame.
Qed.

Lemma quiet_emit e w : quiet w (emit e w).
Proof. by apply quiet_frame. Qed.

Lemma quiet_emitQueueUpdated w : quiet w (emitQueueUpdated w).
Proof. by apply quiet_frame. Qed.

Lemma quiet_finishJob jobId w :
  inactiveAt jobId (jobs w) → quiet w (finishJob jobId w).
Proof.
  intros Hina. unfold finishJob.
  eapply quiet_trans; [|apply quiet_processQueue].
  eapply quiet_trans; [|apply quiet_emitQueueUpdated].
  case_decide as Ha; [|apply quiet_refl].
  split; [reflexivity|]. right. split; [done|].
  intros a Ha'. cbn. by assert (a = jobId) as -> by congruence.
Qed.

Lemma quiet_notifyDependentJobs d w : quiet w (notifyDependentJobs d w).
Proof.
  apply quiet_fold. intros w' job.
  destruct (dependsOnQueued d job); [|apply quiet_refl].
  by apply quiet_frame.
Qed.

Lemma quiet_failDependentJobs d e now w :
  quiet w (failDependentJobs d e now w).
Proof.
  apply quiet_fold. intros w' job.
  destruct (dependsOnQueued d job); [|apply quiet_refl].
  split; [|by left]. cbn. apply updateJob_settled. intros j. constructor.
Qed.

Lemma uniqueIds_quiet w w' : quiet w w' → uniqueIds w → uniqueIds w'.
Proof.
  intros [Hs _]. unfold uniqueIds. by rewrite (settled_ids _ _ Hs).
Qed.

Lemma inactiveAt_updateJob jobId f js :
  NoDup (QueueJob.id <$> js) →
  (∀ j, QueueJob.id (f j) = QueueJob.id j) →
  (∀ j, ¬ Is_true (isActive (QueueJob.status (f j)))) →
  inactiveAt jobId (updateJob jobId f js).
Proof.
  intros Hnd Hid Hf. induction js as [|j js IH]; cbn.
  - intros j Hin. by apply elem_of_nil in Hin.
  - apply NoDup_cons in Hnd as [Hnotin Hnd].
    case_decide as Hj.
    + intros j' Hin Hj'. apply elem_of_cons in Hin as [->|Hin]; [apply Hf|].
      exfalso. apply Hnotin. rewrite Hj, <- Hj'.
      by apply list_elem_of_fmap_2.
    + intros j' Hin Hj'. apply elem_of_cons in Hin as [->|Hin]; [done|].
      by apply (IH Hnd j').
Qed.

(** A job is put in a status that is not active, some quiet steps
    follow, and [finishJob] is called for it. *)
Lemma quiet_terminate jobId f w w2 :
  uniqueIds w →
  (∀ j, settle j (f j)) →
  (∀ j, ¬ Is_true (isActive (QueueJob.status (f j)))) →
  quiet (set_jobs (updateJob jobId f (jobs w)) w) w2 →
  quiet w (finishJob jobId w2).
Proof.
  intros Hu Hs Hf Hq.
  eapply quiet_trans; [by apply (quiet_updateJob jobId f)|].
  eapply quiet_trans; [exact Hq|].
  apply quiet_finishJob.
  eapply inactiveAt_settled; [apply Hq|]. cbn.
  apply inactiveAt_updateJob; [done| |done].
  intros j. by apply settle_facts.
Qed.

Lemma not_active_completed j t :
  ¬ Is_true (isActive (QueueJob.status
       (QueueJob.set_completedAt t (QueueJob.set_status completed j)))).
Proof. cbn. intros H%bool_decide_unpack. by destruct H. Qed.

Lemma not_active_failed j e t :
  ¬ Is_true (isActive (QueueJob.status (markFailed e t j))).
Proof. cbn. intros H%bool_decide_unpack. by destruct H. Qed.

Lemma quiet_onProgress now p w :
  uniqueIds w → quiet w (onProgress now p w).
Proof.
  intros Hu. unfold onProgress.
  destruct (findByDownloadId _ _) as [job|]; [|apply quiet_refl].
  set (w1 := set_jobs (updateJob (QueueJob.id job) _ (jobs w)) w).
  assert (quiet w w1) as Hq1.
  { apply quiet_updateJob. intros j. constructor. }
  assert (uniqueIds w1) as Hu1 by by eapply uniqueIds_quiet.
  eapply quiet_trans; [|apply quiet_emitQueueUpdated].
  eapply quiet_trans; [|apply quiet_emit].
  eapply quiet_trans; [exact Hq1|].
  destruct (DownloadProgress.status p); try apply quiet_refl.
  - destruct (isActive (QueueJob.status job)); [|apply quiet_refl].
    eapply (quiet_terminate _
              (λ j, QueueJob.set_completedAt (Some now)
                      (QueueJob.set_status completed j)) w1); [done| | |].
    + intros j. constructor.
    + intros j. apply not_active_completed.
    + eapply quiet_trans; [|apply quiet_emit].
      case_decide; [apply quiet_notifyDependentJobs | apply quiet_refl].
  - eapply (quiet_terminate _ (markFailed (DownloadProgress.error p) now) w1);
      [done| | |].
    + intros j. constructor.
    + intros j. apply not_active_failed.
    + eapply quiet_trans; [|apply quiet_emit].
      case_decide; [apply quiet_failDependentJobs | apply quiet_refl].
Qed.

Lemma quiet_setProgress now downloadId session p w :
  uniqueIds w → quiet w (setProgress now downloadId session p w).
Proof.
  intros Hu. unfold setProgress, emitProgress.
  eapply quiet_trans; [|by apply quiet_onProgress].
  by apply quiet_frame.
Qed.

Lemma quiet_updateProgress now d b t w :
  uniqueIds w → quiet w (updateProgress now d b t w).
Proof.
  intros Hu. unfold updateProgress.
  destruct (sessions w !! d); [by apply quiet_setProgress | apply quiet_refl].
Qed.

Lemma quiet_markCompleted now d w :
  uniqueIds w → quiet w (markCompleted now d w).
Proof.
  intros Hu. unfold markCompleted.
  destruct (sessions w !! d); [by apply quiet_setProgress | apply quiet_refl].
Qed.

Lemma quiet_markError now d e w :
  uniqueIds w → quiet w (markError now d e w).
Proof.
  intros Hu. unfold markError.
  destruct (sessions w !! d); [by apply quiet_setProgress | apply quiet_refl].
Qed.

Lemma quiet_cancelDownload now d w :
  uniqueIds w → quiet w (cancelDownload now d w).2.
Proof.
  intros Hu. unfold cancelDownload.
  destruct (sessions w !! d); [by apply quiet_setProgress | apply quiet_refl].
Qed.

Lemma quiet_completeJob now jobId w :
  uniqueIds w → quiet w (completeJob now jobId w).
Proof.
  intros Hu. unfold completeJob.
  destruct (getJob jobId (jobs w)) as [job|]; [|apply quiet_refl].
  eapply (quiet_terminate _
            (λ j, QueueJob.set_completedAt (Some now)
                    (QueueJob.set_status completed j)) w); [done| | |].
  - intros j. constructor.
  - intros j. apply not_active_completed.
  - eapply quiet_trans; [|apply quiet_emit].
    case_decide; [apply quiet_notifyDependentJobs | apply quiet_refl].
Qed.

Lemma quiet_failJob now jobId e w :
  uniqueIds w → quiet w (failJob now jobId e w).
Proof.
  intros Hu. unfold failJob.
  destruct (getJob jobId (jobs w)) as [job|]; [|apply quiet_refl].
  eapply (quiet_terminate _ (markFailed (Some e) now) w); [done| | |].
  - intros j. constructor.
  - intros j. apply not_active_failed.
  - eapply quiet_trans; [|apply quiet_emit].
    case_decide; [apply quiet_failDependentJobs | apply quiet_refl].
Qed.

Lemma quiet_cancelJob now jobId w :
  uniqueIds w → quiet w (cancelJob now jobId w).2.
Proof.
  intros Hu. unfold cancelJob.
  destruct (getJob jobId (jobs w)) as [job|]; [|apply quiet_refl].
  cbn [snd].
  eapply quiet_trans; [|apply quiet_processQueue].
  eapply quiet_trans; [|apply quiet_emitQueueUpdated].
  eapply quiet_trans; [|apply quiet_emit].
  set (w1 := set_queue (removeFirst jobId (queue w)) w).
  assert (quiet w w1) as Hq1 by by apply quiet_frame.
  assert (uniqueIds w1) as Hu1 by done.
  destruct (decide (activeJob w1 = Some jobId)) as [Ha|Ha].
  - set (w2 := match QueueJob.downloadId job with
               | Some d => if JS.truthy d then (cancelDownload now d w1).2
                           else w1
               | None => w1
               end).
    assert (quiet w1 w2) as Hq2.
    { subst w2. destruct (QueueJob.downloadId job) as [d|];
        [|apply quiet_refl].
      destruct (JS.truthy d);
        [by apply quiet_cancelDownload | apply quiet_refl]. }
    assert (uniqueIds w2) as Hu2 by by eapply uniqueIds_quiet.
    eapply quiet_trans; [exact Hq1|]. eapply quiet_trans; [exact Hq2|].
    split; [cbn; apply updateJob_settled; intros j; constructor|].
    right. split; [done|]. intros a Ha2. cbn.
    assert (a = jobId) as ->.
    { destruct Hq2 as [_ [E|[E _]]]; congruence. }
    apply inactiveAt_updateJob; [done|done|].
    intros j. apply not_active_failed.
  - eapply quiet_trans; [exact Hq1|].
    apply quiet_updateJob. intros j. constructor.
Qed.

Lemma quiet_setConvertJobInputFile c f w :
  quiet w (setConvertJobInputFile c f w).2.
Proof.
  unfold setConvertJobInputFile.
  destruct (getJob c (jobs w)) as [job|]; [|apply quiet_refl].
  case_decide; [|apply quiet_refl]. cbn.
  eapply quiet_trans; [|apply quiet_emitQueueUpdated].
  apply quiet_updateJob. intros j. constructor.
Qed.

Lemma quiet_routeSetDownloadId jobId d w :
  quiet w (routeSetDownloadId jobId d w).
Proof. apply quiet_updateJob. intros j. constructor. Qed.

Lemma quiet_createSession now u f d g w :
  quiet w (createSession now u f d g w).2.
Proof.
  unfold createSession.
  destruct (sessions w !! _); [apply quiet_refl | by apply quiet_frame].
Qed.

End SchedulerFrames.

(** ** The single-active-job invariant *)

Section SingleActive.

Implicit Types (w : World) (j : QueueJob.t) (js : list QueueJob.t).

Lemma getJob_Some jobId js j :
  getJob jobId js = Some j → j ∈ js ∧ QueueJob.id j = jobId.
Proof.
  induction js as [|j0 js IH]; cbn; [done|].
  case_decide as Hid.
  - intros [= ->]. split; [left | done].
  - intros H. destruct (IH H). split; [by right | done].
Qed.

Lemma getJob_None jobId js :
  getJob jobId js = None ↔ jobId ∉ QueueJob.id <$> js.
Proof.
  induction js as [|j0 js IH]; cbn.
  - split; [intros _; apply not_elem_of_nil | done].
  - rewrite not_elem_of_cons. case_decide as Hid.
    + split; [done|]. intros [Hne _]. by destruct Hne.
    + rewrite IH. split; [by split|by intros [_ ?]].
Qed.

Lemma elem_of_updateJob jobId f js j' :
  j' ∈ updateJob jobId f js →
  j' ∈ js ∨ ∃ j, j ∈ js ∧ QueueJob.id j = jobId ∧ j' = f j.
Proof.
  induction js as [|j0 js IH]; cbn; [by left|].
  case_decide as Hid; intros [->|Hin]%elem_of_cons.
  - right. exists j0. split; [left | done].
  - left. by right.
  - left. left.
  - destruct (IH Hin) as [?|(j & ? & ? & ?)]; [left; by right|].
    right. exists j. split; [by right | done].
Qed.

Lemma updateJob_ids jobId f js :
  (∀ j, QueueJob.id (f j) = QueueJob.id j) →
  QueueJob.id <$> updateJob jobId f js = QueueJob.id <$> js.
Proof.
  intros Hf. induction js as [|j0 js IH]; cbn; [done|].
  case_decide; cbn; [by rewrite Hf | by rewrite IH].
Qed.

Lemma inv_quiet w w' : schedulerInv w → quiet w w' → schedulerInv w'.
Proof.
  intros [Hu Hs] Hq. split; [by eapply uniqueIds_quiet|].
  destruct Hq as [Hset Hact]. intros j' Hin Ha.
  destruct (settled_elem _ _ _ Hset Hin) as (j & Hj & Hjj').
  destruct (settle_facts _ _ Hjj') as (I & _ & _ & A & _).
  assert (activeJob w = Some (QueueJob.id j')) as Hw.
  { rewrite I. apply Hs; [done|]. by rewrite <- (A Ha). }
  destruct Hact as [->|[_ Hina]]; [done|].
  destruct (Hina _ Hw j' Hin eq_refl Ha).
Qed.

Lemma inv_frame w w' :
  jobs w' = jobs w → activeJob w' = activeJob w →
  schedulerInv w → schedulerInv w'.
Proof. intros Hj Ha Hi. eapply inv_quiet; [done | by apply quiet_frame]. Qed.

Lemma inv_initial : schedulerInv initial.
Proof.
  split; [apply NoDup_nil_2|]. intros j Hin. by apply elem_of_nil in Hin.
Qed.

(** Admission appends a queued job under an unused id. *)
Lemma inv_admit job w :
  getJob (QueueJob.id job) (jobs w) = None →
  QueueJob.status job = queued →
  schedulerInv w → schedulerInv (set_jobs (jobs w ++ [job]) w).
Proof.
  intros Hnew Hq [Hu Hs]. split.
  - unfold uniqueIds. cbn. rewrite fmap_app. apply NoDup_app.
    split; [done|]. split; [|apply NoDup_singleton].
    intros x Hx [->|Hin]%elem_of_cons; [|by apply elem_of_nil in Hin].
    by apply getJob_None in Hnew.
  - intros j [Hin|Hin]%elem_of_app Ha; [by apply Hs|].
    apply list_elem_of_singleton in Hin as ->. by rewrite Hq in Ha.
Qed.

Lemma inv_addDownloadJob now url formatId jobId gen w :
  schedulerInv w →
  schedulerInv (addDownloadJob now url formatId jobId gen w).2.
Proof.
  intros Hi. unfold addDownloadJob.
  destruct (getJob _ (jobs w)) eqn:Hget; [done|]. cbn [snd].
  match goal with
  | |- schedulerInv (if ?c then processQueue ?w' else _) =>
      assert (schedulerInv w') as Hi'
  end.
  { match goal with |- context [set_jobs (jobs w ++ [?job]) w] =>
      apply (inv_frame (set_jobs (jobs w ++ [job]) w)); [done|done|];
      by apply inv_admit
    end. }
  destruct (_ && _); [|done].
  eapply inv_quiet; [exact Hi' | apply quiet_processQueue].
Qed.

Lemma inv_addConvertJob now url tf dep inp jobId gen w :
  schedulerInv w →
  schedulerInv (addConvertJob now url tf dep inp jobId gen w).2.
Proof.
  intros Hi. unfold addConvertJob.
  destruct (getJob (JS.or_else jobId gen) (jobs w)) eqn:Hget; [done|].
  match goal with |- context [match ?e with Some m => _ | None => _ end] =>
    destruct e end; [done|]. cbn [snd].
  match goal with
  | |- schedulerInv (if ?c then processQueue ?w' else _) =>
      assert (schedulerInv w') as Hi'
  end.
  { match goal with |- context [set_jobs (jobs w ++ [?job]) w] =>
      apply (inv_frame (set_jobs (jobs w ++ [job]) w)); [done|done|];
      by apply inv_admit
    end. }
  destruct (_ && _); [|done].
  eapply inv_quiet; [exact Hi' | apply quiet_processQueue].
Qed.

Lemma active_markStarted now d j :
  Is_true (isActive (QueueJob.status (markStarted now d j))).
Proof. cbn. by destruct (QueueJob.type j). Qed.

Lemma inv_startJob now jobId downloadId w :
  schedulerInv w → schedulerInv (startJob now jobId downloadId w).2.
Proof.
  intros [Hu Hs]. unfold startJob.
  destruct (getJob jobId (jobs w)) as [job|]; [|done].
  destruct (bool_decide (activeJob w = None)) eqn:Hnone; [|done].
  apply bool_decide_eq_true_1 in Hnone.
  destruct (headIs jobId (queue w)); [|done].
  destruct (canJobStart job w); [|done]. cbn.
  split.
  - unfold uniqueIds. cbn. by rewrite updateJob_ids.
  - intros j' Hin Ha. cbn in *.
    apply elem_of_updateJob in Hin as [Hin|(j & Hj & Hid & ->)].
    + specialize (Hs j' Hin Ha). congruence.
    + by rewrite <- Hid.
Qed.

Lemma inv_cleanupOldJobs now maxAge w :
  schedulerInv w → schedulerInv (cleanupOldJobs now maxAge w).
Proof.
  intros [Hu Hs]. split.
  - unfold uniqueIds. cbn.
    eapply sublist_NoDup; [exact Hu|].
    apply fmap_sublist, sublist_filter.
  - intros j [_ Hin]%list_elem_of_filter Ha. by apply Hs.
Qed.

Lemma inv_step w o : schedulerInv w → schedulerInv (step w o).
Proof.
  intros Hi. pose proof (proj1 Hi) as Hu. destruct o; cbn [step].
  - by apply inv_addDownloadJob.
  - by apply inv_addConvertJob.
  - by apply inv_startJob.
  - eapply inv_quiet; [done | by apply quiet_completeJob].
  - eapply inv_quiet; [done | by apply quiet_failJob].
  - eapply inv_quiet; [done | by apply quiet_cancelJob].
  - eapply inv_quiet; [done | by apply quiet_onProgress].
  - eapply inv_quiet; [done | by apply quiet_createSession].
  - eapply inv_quiet; [done | by apply quiet_updateProgress].
  - eapply inv_quiet; [done | by apply quiet_markCompleted].
  - eapply inv_quiet; [done | by apply quiet_markError].
  - eapply inv_quiet; [done | by apply quiet_cancelDownload].
  - by eapply inv_frame.
  - eapply inv_quiet; [done | by apply quiet_setConvertJobInputFile].
  - by apply inv_cleanupOldJobs.
  - eapply inv_quiet; [done | by apply quiet_routeSetDownloadId].
Qed.

Lemma inv_run ops w : schedulerInv w → schedulerInv (run ops w).
Proof.
  revert w. induction ops as [|o ops IH]; intros w Hi; [done|].
  cbn. apply IH. by apply inv_step.
Qed.

Lemma inv_reachable w : reachable w → schedulerInv w.
Proof. intros [ops ->]. apply inv_run, inv_initial. Qed.

Lemma at_most_one (l : list string) a :
  NoDup l → (∀ x, x ∈ l → x = a) → length l ≤ 1.
Proof.
  intros Hnd Hall. destruct l as [|x [|y l]]; cbn; [lia|lia|].
  exfalso. apply NoDup_cons in Hnd as [Hx _]. apply Hx.
  rewrite (Hall x), <- (Hall y); [left | right; left | left].
Qed.

Lemma inv_count w :
  schedulerInv w → processingCount (getQueueState w) ≤ 1.
Proof.
  intros [Hu Hs]. cbn. unfold countStatus.
  rewrite <- (length_fmap QueueJob.id).
  destruct (activeJob w) as [a|] eqn:Ha.
  - apply (at_most_one _ a).
    + eapply sublist_NoDup; [exact Hu|].
      apply fmap_sublist, sublist_filter.
    + intros x (j & -> & [Hact Hin]%list_elem_of_filter)%list_elem_of_fmap.
      specialize (Hs j Hin Hact). congruence.
  - destruct (filter _ (jobs w)) as [|j l] eqn:Hf; [cbn; lia|].
    assert (j ∈ filter (λ j, Is_true (isActive (QueueJob.status j))) (jobs w))
      as [Hact Hin]%list_elem_of_filter by (rewrite Hf; left).
    specialize (Hs j Hin Hact). congruence.
Qed.

End SingleActive.

(** C1.  In every state that the two services can reach, every job whose
    status is [downloading] or [converting] is the job named by
    [activeJob], and at most one job has such a status. *)
Theorem single_active_job (w : World) :
  reachable w →
  (∀ j, j ∈ jobs w →
        QueueJob.status j = downloading ∨ QueueJob.status j = converting →
        activeJob w = Some (QueueJob.id j))
  ∧ length (filter (λ j, QueueJob.status j = downloading
                         ∨ QueueJob.status j = converting) (jobs w)) ≤ 1.
Proof.
  intros Hr. pose proof (inv_reachable w Hr) as Hi. split.
  - intros j Hin Hst. apply (proj2 Hi j Hin). by apply bool_decide_pack.
  - pose proof (inv_count w Hi) as Hc. cbn in Hc. unfold countStatus in Hc.
    erewrite list_filter_iff; [exact Hc|].
    intros j. unfold isActive. by rewrite bool_decide_spec.
Qed.

Lemma single_active_job_witness :
  reachable oneActive
  ∧ ((∀ j, j ∈ jobs oneActive →
           QueueJob.status j = downloading ∨ QueueJob.status j = converting →
           activeJob oneActive = Some (QueueJob.id j))
     ∧ length (filter (λ j, QueueJob.status j = downloading
                            ∨ QueueJob.status j = converting)
                 (jobs oneActive)) ≤ 1).
Proof.
  split.
  - eexists. reflexivity.
  - apply (single_active_job oneActive). eexists. reflexivity.
Defined.

(** ** startJob *)

Section StartJob.

Implicit Types (w : World) (j : QueueJob.t) (js : list QueueJob.t).

Lemma getJob_updateJob jobId' jobId f js :
  (∀ j, QueueJob.id (f j) = QueueJob.id j) →
  getJob jobId' (updateJob jobId f js)
  = if decide (jobId' = jobId) then f <$> getJob jobId js
    else getJob jobId' js.
Proof.
  intros Hf. induction js as [|j js IH]; cbn; [by case_decide|].
  destruct (decide (QueueJob.id j = jobId)) as [Hj|Hj]; cbn.
  - rewrite Hf. repeat case_decide; congruence.
  - rewrite IH. repeat case_decide; congruence.
Qed.

Lemma canJobStart_spec job w :
  canJobStart job w = true ↔ dependencySatisfied w job.
Proof.
  unfold canJobStart, dependencySatisfied, JS.truthy.
  destruct (QueueJob.dependsOn job) as [d|]; [|by split].
  case_bool_decide as Hd.
  - destruct (getJob d (jobs w)) as [dep|] eqn:Hg.
    + rewrite bool_decide_eq_true. split.
      * intros Hc d' [= <-] _. by exists dep.
      * intros H. destruct (H d eq_refl Hd) as (dep' & Hg' & ?). congruence.
    + split; [done|]. intros H.
      destruct (H d eq_refl Hd) as (? & ? & _). congruence.
  - split; [|done]. intros _ d' [= <-] Hne. by destruct Hd.
Qed.

End StartJob.

(** C2.  [startJob] returns true exactly when no job is active, [jobId]
    is at the head of the queue and the job's dependency, if any, is
    completed.  It then pops the head, makes the job the active one,
    sets its status according to its type, stamps [startedAt], records
    [downloadId] and leaves every other job alone; when it returns
    false nothing has changed. *)
Theorem startJob_spec (now : Z) (jobId downloadId : string) (w : World) :
  let result := (startJob now jobId downloadId w).1 in
  let w' := (startJob now jobId downloadId w).2 in
  (result = true ↔
     activeJob w = None ∧ head (queue w) = Some jobId
     ∧ ∃ job, getJob jobId (jobs w) = Some job ∧ dependencySatisfied w job)
  ∧ (result = true →
       queue w = jobId :: queue w'
       ∧ activeJob w' = Some jobId
       ∧ (∃ job job',
            getJob jobId (jobs w) = Some job
            ∧ getJob jobId (jobs w') = Some job'
            ∧ QueueJob.status job'
              = match QueueJob.type job with
                | download => downloading
                | convert => converting
                end
            ∧ QueueJob.startedAt job' = Some now
            ∧ QueueJob.downloadId job' = Some downloadId
            ∧ QueueJob.set_status (QueueJob.status job)
                (QueueJob.set_startedAt (QueueJob.startedAt job)
                   (QueueJob.set_downloadId (QueueJob.downloadId job) job'))
              = job)
       ∧ (∀ other, other ≠ jobId →
                   getJob other (jobs w') = getJob other (jobs w))
       ∧ sessions w' = sessions w)
  ∧ (result = false → w' = w).
Proof.
  cbn zeta. unfold startJob.
  destruct (getJob jobId (jobs w)) as [job|] eqn:Hget; cbn [fst snd].
  2: { split; [|done]. split; [done|]. by intros (_ & _ & job & ? & _). }
  case_bool_decide as Hact; cbn [negb].
  2: { split; [|done]. split; [done|]. by intros (? & _). }
  unfold headIs. case_bool_decide as Hhead; cbn [negb].
  2: { split; [|done]. split; [done|]. by intros (_ & ? & _). }
  destruct (canJobStart job w) eqn:Hcan; cbn [negb fst snd].
  2: { split; [|done]. split; [done|]. intros (_ & _ & job' & [= <-] & Hdep).
       apply canJobStart_spec in Hdep. congruence. }
  split; [|split; [|done]].
  - split; [|done]. intros _. repeat split; [done..|].
    exists job. split; [done|]. by apply canJobStart_spec.
  - intros _. cbn. repeat split.
    + destruct (queue w) as [|x q]; [done|]. cbn in *. congruence.
    + exists job, (markStarted now downloadId job).
      rewrite getJob_updateJob by done. rewrite decide_True by done.
      rewrite Hget. repeat split. by destruct job.
    + intros other Hne. rewrite getJob_updateJob by done.
      by rewrite decide_False.
Qed.

(** ** The drain routine after a terminal transition *)

Section Drain.

Implicit Types (w : World) (j : QueueJob.t) (js : list QueueJob.t).

Lemma processQueueFrom_drains q w :
  ∃ k, drains (processQueueFrom q w)
       = drains w ++ replicate (S k) (activeJob w).
Proof.
  revert w. induction q as [|x q IH]; intros w; cbn.
  - exists 0. by destruct (activeJob w) eqn:Ha.
  - destruct (activeJob w) eqn:Ha; cbn; [by exists 0|].
    destruct (getJob x (jobs w)) as [nextJob|]; cbn.
    + exists 0. by destruct (canJobStart nextJob _).
    + destruct (IH (set_queue q (set_drains (drains w ++ [None]) w)))
        as [k Hk].
      exists (S k). rewrite Hk. cbn. rewrite Ha.
      by rewrite <- app_assoc.
Qed.


Lemma sameControl_trans w1 w2 w3 :
  sameControl w1 w2 → sameControl w2 w3 → sameControl w1 w3.
Proof. intros [] []. split; congruence. Qed.

Lemma sameControl_fold {A} (g : World → A → World) (l : list A) w :
  (∀ w x, sameControl w (g w x)) → sameControl w (fold_left g l w).
Proof.
  intros Hg. revert w. induction l as [|x l IH]; intros w; cbn; [done|].
  eapply sameControl_trans; [apply Hg | apply IH].
Qed.

Lemma sameControl_notify d w : sameControl w (notifyDependentJobs d w).
Proof.
  apply sameControl_fold. intros w' job. by destruct (dependsOnQueued d job).
Qed.

Lemma sameControl_failDependent d e now w :
  sameControl w (failDependentJobs d e now w).
Proof.
  apply sameControl_fold. intros w' job. by destruct (dependsOnQueued d job).
Qed.

Lemma finishJob_control jobId w :
  let onEntry := if decide (activeJob w = Some jobId) then None
                 else activeJob w in
  activeJob (finishJob jobId w) = onEntry
  ∧ ∃ k, drains (finishJob jobId w) = drains w ++ replicate (S k) onEntry.
Proof.
  cbn zeta. unfold finishJob, processQueue.
  match goal with |- context [processQueueFrom ?q ?w0] =>
    destruct (processQueueFrom_frame q w0) as (_ & Ha & _);
    destruct (processQueueFrom_drains q w0) as [k Hk]
  end.
  rewrite Ha, Hk. split; [by case_decide|]. exists k. by case_decide.
Qed.

Lemma getJob_settled jobId js js' j :
  Forall2 settle js js' → getJob jobId js = Some j →
  ∃ j', getJob jobId js' = Some j' ∧ settle j j'.
Proof.
  induction 1 as [|j0 j0' js js' Hs _ IH]; cbn; [done|].
  destruct (settle_facts _ _ Hs) as (-> & _).
  case_decide; [|done]. intros [= ->]. by exists j0'.
Qed.

(** The listener leaves the scheduler's control state alone when the
    event is neither a completion nor an error. *)
Lemma onProgress_other now p w :
  DownloadProgress.status p ≠ SCompleted →
  DownloadProgress.status p ≠ SError →
  Forall2 settle (jobs w) (jobs (onProgress now p w))
  ∧ sameControl w (onProgress now p w)
  ∧ queue (onProgress now p w) = queue w.
Proof.
  intros Hc He. unfold onProgress.
  destruct (findByDownloadId _ _) as [job|]; [|done].
  destruct (DownloadProgress.status p); try done.
  all: repeat split; cbn; apply updateJob_settled; intros j; constructor.
Qed.

Lemma cancelDownload_control now d w :
  Forall2 settle (jobs w) (jobs (cancelDownload now d w).2)
  ∧ sameControl w (cancelDownload now d w).2
  ∧ queue (cancelDownload now d w).2 = queue w.
Proof.
  unfold cancelDownload. destruct (sessions w !! d) as [session|]; [|done].
  cbn [snd]. unfold setProgress, emitProgress.
  match goal with |- context [onProgress now ?p ?w0] =>
    destruct (onProgress_other now p w0) as (Hs & [Ha Hd] & Hq);
      [done|done|]
  end.
  by repeat split.
Qed.

Lemma notifyDependentJobs_jobs d w : jobs (notifyDependentJobs d w) = jobs w.
Proof.
  unfold notifyDependentJobs. generalize (jobs w) at 1 as l.
  intros l. revert w. induction l as [|x l IH]; intros w; cbn; [done|].
  rewrite IH. by destruct (dependsOnQueued d x).
Qed.

Lemma finishJob_jobs jobId w : jobs (finishJob jobId w) = jobs w.
Proof.
  unfold finishJob, processQueue.
  match goal with |- context [processQueueFrom ?q ?w0] =>
    destruct (processQueueFrom_frame q w0) as (-> & _)
  end.
  by case_decide.
Qed.

(** [failDependentJobs] only ever marks jobs as failed. *)
Lemma failDependentJobs_failed d e now w jobId j :
  getJob jobId (jobs w) = Some j → QueueJob.status j = failed →
  ∃ j', getJob jobId (jobs (failDependentJobs d e now w)) = Some j'
        ∧ QueueJob.status j' = failed.
Proof.
  unfold failDependentJobs. generalize (jobs w) at 2 as l.
  intros l. revert w j. induction l as [|x l IH]; intros w j Hget Hst; cbn.
  - by exists j.
  - destruct (dependsOnQueued d x); [|by eapply IH].
    destruct (decide (jobId = QueueJob.id x)) as [->|Hne].
    + eapply (IH _ (markFailed (Some e) now j)); [|done]. cbn.
      rewrite getJob_updateJob by done. rewrite decide_True by done.
      by rewrite Hget.
    + eapply (IH _ j); [|done]. cbn.
      rewrite getJob_updateJob by done. by rewrite decide_False.
Qed.

Lemma terminal_completeJob now jobId w j :
  getJob jobId (jobs w) = Some j →
  ∃ j', getJob jobId (jobs (completeJob now jobId w)) = Some j'
        ∧ QueueJob.status j' = completed.
Proof.
  intros Hget. unfold completeJob. rewrite Hget.
  rewrite finishJob_jobs. cbn [jobs emit set_emitted].
  eexists. split; [|shelve].
  case_decide; [rewrite notifyDependentJobs_jobs|]; cbn;
    rewrite getJob_updateJob by done; rewrite decide_True by done;
    by rewrite Hget.
  Unshelve. done.
Qed.

Lemma terminal_failJob now jobId e w j :
  getJob jobId (jobs w) = Some j →
  ∃ j', getJob jobId (jobs (failJob now jobId e w)) = Some j'
        ∧ QueueJob.status j' = failed.
Proof.
  intros Hget. unfold failJob. rewrite Hget.
  rewrite finishJob_jobs. cbn [jobs emit set_emitted].
  assert (getJob jobId
            (updateJob jobId (markFailed (Some e) now) (jobs w))
          = Some (markFailed (Some e) now j)) as Hupd.
  { rewrite getJob_updateJob by done. rewrite decide_True by done.
    by rewrite Hget. }
  case_decide.
  - eapply failDependentJobs_failed; [exact Hupd | done].
  - by eexists.
Qed.

Lemma terminal_cancelJob now jobId w j :
  getJob jobId (jobs w) = Some j →
  ∃ j', getJob jobId (jobs (cancelJob now jobId w).2) = Some j'
        ∧ QueueJob.status j' = failed.
Proof.
  intros Hget. unfold cancelJob. rewrite Hget. cbn [snd].
  unfold processQueue.
  match goal with |- context [processQueueFrom ?q ?w0] =>
    destruct (processQueueFrom_frame q w0) as (-> & _)
  end.
  cbn [jobs emitQueueUpdated emit set_emitted set_jobs].
  match goal with |- context [updateJob jobId ?f (jobs ?w0)] =>
    assert (∃ j0, getJob jobId (jobs w0) = Some j0) as [j0 Hj0]
  end.
  { case_decide; [|by exists j]. cbn [jobs set_activeJob].
    destruct (QueueJob.downloadId j) as [d|]; [|by exists j].
    destruct (JS.truthy d); [|by exists j].
    match goal with |- context [cancelDownload now d ?w0] =>
      destruct (cancelDownload_control now d w0) as (Hs & _)
    end.
    destruct (getJob_settled jobId _ _ j Hs Hget) as (j' & ? & _).
    by exists j'. }
  exists (markFailed (Some "Cancelled by user") now j0).
  rewrite getJob_updateJob by done. rewrite decide_True by done.
  by rewrite Hj0.
Qed.


Lemma control_completeJob now jobId w j :
  getJob jobId (jobs w) = Some j →
  let onEntry := if decide (activeJob w = Some jobId) then None
                 else activeJob w in
  activeJob (completeJob now jobId w) = onEntry
  ∧ ∃ k, drains (completeJob now jobId w)
         = drains w ++ replicate (S k) onEntry.
Proof.
  intros Hget. cbn zeta. unfold completeJob. rewrite Hget.
  match goal with |- context [finishJob jobId ?w0] =>
    assert (sameControl w w0) as [Ha Hd];
      [|pose proof (finishJob_control jobId w0) as Hf]
  end.
  { destruct (decide (QueueJob.type j = download)); [|by split].
    match goal with |- context [notifyDependentJobs ?d ?w0] =>
      destruct (sameControl_notify d w0) end. by split. }
  cbn zeta in Hf. by rewrite Ha, Hd in Hf.
Qed.

Lemma control_failJob now jobId e w j :
  getJob jobId (jobs w) = Some j →
  let onEntry := if decide (activeJob w = Some jobId) then None
                 else activeJob w in
  activeJob (failJob now jobId e w) = onEntry
  ∧ ∃ k, drains (failJob now jobId e w)
         = drains w ++ replicate (S k) onEntry.
Proof.
  intros Hget. cbn zeta. unfold failJob. rewrite Hget.
  match goal with |- context [finishJob jobId ?w0] =>
    assert (sameControl w w0) as [Ha Hd];
      [|pose proof (finishJob_control jobId w0) as Hf]
  end.
  { destruct (decide (QueueJob.type j = download)); [|by split].
    match goal with |- context [failDependentJobs ?d ?m ?t ?w0] =>
      destruct (sameControl_failDependent d m t w0) end. by split. }
  cbn zeta in Hf. by rewrite Ha, Hd in Hf.
Qed.

Lemma control_cancelJob now jobId w j :
  getJob jobId (jobs w) = Some j →
  let onEntry := if decide (activeJob w = Some jobId) then None
                 else activeJob w in
  activeJob (cancelJob now jobId w).2 = onEntry
  ∧ ∃ k, drains (cancelJob now jobId w).2
         = drains w ++ replicate (S k) onEntry.
Proof.
  intros Hget. cbn zeta. unfold cancelJob. rewrite Hget. cbn [snd].
  unfold processQueue.
  match goal with |- context [processQueueFrom ?q ?w0] =>
    destruct (processQueueFrom_frame q w0) as (_ & -> & _);
    destruct (processQueueFrom_drains q w0) as [k ->];
    assert (activeJob w0
            = (if decide (activeJob w = Some jobId) then None
               else activeJob w)
            ∧ drains w0 = drains w) as [-> ->]
  end.
  { cbn. case_decide as Ha; rewrite ?decide_True, ?decide_False by done;
      [|done]. cbn. split; [done|].
    destruct (QueueJob.downloadId j) as [d|]; [|done].
    destruct (JS.truthy d); [|done].
    match goal with |- context [cancelDownload now d ?w0] =>
      destruct (cancelDownload_control now d w0) as (_ & [_ Hd] & _)
    end. done. }
  split; [done|]. by exists k.
Qed.

End Drain.

(** C3, as stated, fails: cancelling a job that is merely queued while
    another job streams runs [processQueue] with [activeJob] naming the
    streaming job, on entry and on return. *)
Lemma drain_invariant_counterexample :
  reachable activeAndQueued
  ∧ (∃ j, getJob "B" (jobs activeAndQueued) = Some j
          ∧ QueueJob.status j = queued)
  ∧ (∃ j, getJob "B" (jobs (cancelJob 3 "B" activeAndQueued).2) = Some j
          ∧ QueueJob.status j = failed)
  ∧ drains (cancelJob 3 "B" activeAndQueued).2
    = drains activeAndQueued ++ [Some "A"]
  ∧ activeJob (cancelJob 3 "B" activeAndQueued).2 = Some "A".
Proof.
  split; [eexists; reflexivity|].
  split; [eexists; split; reflexivity|].
  split; [eexists; split; reflexivity|].
  split; reflexivity.
Qed.

(** C3, amended.  After the terminal transition of a known job by
    [completeJob], [failJob] or [cancelJob] the job is completed or
    failed and [processQueue] has been invoked.  On entry to it, and
    when it has returned, [activeJob] is null if the job was the active
    one or if no job was active; otherwise it still names the other,
    active job. *)
Theorem drain_after_terminal (now : Z) (jobId error : string) (w w' : World) :
  is_Some (getJob jobId (jobs w)) →
  w' = completeJob now jobId w ∨ w' = failJob now jobId error w
  ∨ w' = (cancelJob now jobId w).2 →
  let onEntry := if decide (activeJob w = Some jobId) then None
                 else activeJob w in
  (∃ job', getJob jobId (jobs w') = Some job'
           ∧ (QueueJob.status job' = completed
              ∨ QueueJob.status job' = failed))
  ∧ (∃ k, drains w' = drains w ++ replicate (S k) onEntry)
  ∧ activeJob w' = onEntry.
Proof.
  intros [j Hget] Hw'. cbn zeta. destruct Hw' as [->|[->| ->]].
  - destruct (terminal_completeJob now jobId w j Hget) as (j' & ? & ?).
    destruct (control_completeJob now jobId w j Hget) as (? & ?).
    split; [exists j'; by auto|]. by split.
  - destruct (terminal_failJob now jobId error w j Hget) as (j' & ? & ?).
    destruct (control_failJob now jobId error w j Hget) as (? & ?).
    split; [exists j'; by auto|]. by split.
  - destruct (terminal_cancelJob now jobId w j Hget) as (j' & ? & ?).
    destruct (control_cancelJob now jobId w j Hget) as (? & ?).
    split; [exists j'; by auto|]. by split.
Qed.

Lemma drain_after_terminal_witness :
  is_Some (getJob "J1" (jobs oneActive))
  ∧ ((∃ job', getJob "J1" (jobs (completeJob 2 "J1" oneActive)) = Some job'
              ∧ (QueueJob.status job' = completed
                 ∨ QueueJob.status job' = failed))
     ∧ (∃ k, drains (completeJob 2 "J1" oneActive)
             = drains oneActive ++ replicate (S k) None)
     ∧ activeJob (completeJob 2 "J1" oneActive) = None).
Proof.
  split; [by eexists|].
  apply (drain_after_terminal 2 "J1" "unused" oneActive
           (completeJob 2 "J1" oneActive)); [by eexists | by left].
Defined.

(** ** Dependencies *)

(** C4 at its failing input.  A download job with a queued dependent is
    cancelled: the download job is failed, but the dependent stays
    queued, without an error, at the head of the queue, where it can
    never start.  [failJob] on the same state does cascade. *)
Theorem cancelled_dependency_not_cascaded :
  let w' := (cancelJob 2 "J1" dependentPair).2 in
  let w'' := failJob 2 "J1" "boom" dependentPair in
  reachable dependentPair
  ∧ statusOf "J1" w' = Some failed
  ∧ statusOf "J2" w' = Some queued
  ∧ errorOf "J2" w' = Some None
  ∧ queue w' = ["J2"]
  ∧ (startJob 3 "J2" "J2" w').1 = false
  ∧ statusOf "J1" w'' = Some failed
  ∧ statusOf "J2" w'' = Some failed
  ∧ errorOf "J2" w'' = Some (Some "Dependency failed: boom")
  ∧ queue w'' = ["J1"].
Proof.
  cbn zeta. split; [eexists; reflexivity|]. repeat split; reflexivity.
Qed.

(** ** Status transitions *)

Section StatusTransitions.

Implicit Types (w : World) (j : QueueJob.t) (js : list QueueJob.t).

Lemma getJob_app jobId js js' j :
  getJob jobId js = Some j → getJob jobId (js ++ js') = Some j.
Proof.
  induction js as [|j0 js IH]; cbn; [done|]. by case_decide.
Qed.

Lemma getJob_unique jobId js j :
  NoDup (QueueJob.id <$> js) → j ∈ js → QueueJob.id j = jobId →
  getJob jobId js = Some j.
Proof.
  induction js as [|j0 js IH]; cbn; intros Hnd Hin Hid.
  - by apply elem_of_nil in Hin.
  - apply NoDup_cons in Hnd as [Hnotin Hnd].
    apply elem_of_cons in Hin as [->|Hin]; [by rewrite decide_True|].
    case_decide as Hj0; [|by apply IH].
    exfalso. apply Hnotin. rewrite Hj0, <- Hid.
    by apply list_elem_of_fmap_2.
Qed.

(** How one step changes the [jobs] Map. *)
Lemma step_jobs w o :
  uniqueIds w →
  Forall2 settle (jobs w) (jobs (step w o))
  ∨ (∃ job, QueueJob.status job = queued
            ∧ jobs (step w o) = jobs w ++ [job])
  ∨ (∃ now jobId d, o = OpStartJob now jobId d
                    ∧ jobs (step w o)
                      = updateJob jobId (markStarted now d) (jobs w))
  ∨ (∃ now maxAge, jobs (step w o)
                   = filter (λ j, ¬ Is_true (isOldJob now maxAge j))
                       (jobs w)).
Proof.
  intros Hu. destruct o; cbn [step].
  - unfold addDownloadJob.
    destruct (getJob _ (jobs w)); [by left|]. cbn [snd].
    right. left. eexists. split; [|destruct (_ && _); cbn;
      [unfold processQueue;
       match goal with |- context [processQueueFrom ?q ?w0] =>
         destruct (processQueueFrom_frame q w0) as (-> & _) end|];
      reflexivity]. done.
  - unfold addConvertJob.
    destruct (getJob _ (jobs w)); [by left|].
    match goal with |- context [match ?e with Some m => _ | None => _ end] =>
      destruct e end; [by left|]. cbn [snd].
    right. left. eexists. split; [|destruct (_ && _); cbn;
      [unfold processQueue;
       match goal with |- context [processQueueFrom ?q ?w0] =>
         destruct (processQueueFrom_frame q w0) as (-> & _) end|];
      reflexivity]. done.
  - unfold startJob. destruct (getJob jobId (jobs w)); [|by left].
    destruct (negb _); [by left|]. destruct (negb _); [by left|].
    destruct (negb _); [by left|]. right. right. left. by eexists _, _, _.
  - left. by apply quiet_completeJob.
  - left. by apply quiet_failJob.
  - left. by apply quiet_cancelJob.
  - left. by apply quiet_onProgress.
  - left. by apply quiet_createSession.
  - left. by apply quiet_updateProgress.
  - left. by apply quiet_markCompleted.
  - left. by apply quiet_markError.
  - left. by apply quiet_cancelDownload.
  - by left.
  - left. by apply quiet_setConvertJobInputFile.
  - right. right. right. by eexists _, _.
  - left. by apply quiet_routeSetDownloadId.
Qed.

(** *** Dependencies in general *)

(** X3.  The dependency guard in every state: a step takes a queued
    job into [downloading] or [converting] only when its dependency,
    if it has one, is completed at that moment. *)
Lemma dependency_guard w o jobId j j' :
  uniqueIds w →
  getJob jobId (jobs w) = Some j → QueueJob.status j = queued →
  getJob jobId (jobs (step w o)) = Some j' →
  QueueJob.status j' = downloading ∨ QueueJob.status j' = converting →
  dependencySatisfied w j.
Proof.
  intros Hu Hget Hq Hget' Ha.
  destruct (step_jobs w o Hu)
    as [Hs|[(job & _ & Hj)|[(now & jid & d & -> & Hj)|(now & age & Hj)]]].
  - destruct (getJob_settled jobId _ _ j Hs Hget) as (j'' & Hg & Hjj).
    assert (j'' = j') as -> by congruence.
    destruct (settle_facts _ _ Hjj) as (_ & _ & _ & A & _).
    rewrite A in Ha by (by apply bool_decide_pack).
    rewrite Hq in Ha. by destruct Ha.
  - rewrite Hj, (getJob_app _ _ _ _ Hget) in Hget'.
    assert (j' = j) as -> by congruence. rewrite Hq in Ha. by destruct Ha.
  - clear Hj. cbn [step] in Hget'. unfold startJob in Hget'.
    destruct (decide (jobId = jid)) as [->|Hne].
    + rewrite Hget in Hget'.
      destruct (negb (bool_decide _)); [cbn in Hget'|];
        [assert (j' = j) as -> by congruence; rewrite Hq in Ha;
         by destruct Ha|].
      destruct (negb (headIs _ _)); [cbn in Hget'|];
        [assert (j' = j) as -> by congruence; rewrite Hq in Ha;
         by destruct Ha|].
      destruct (canJobStart j w) eqn:Hc; [by apply canJobStart_spec|].
      cbn in Hget'. assert (j' = j) as -> by congruence.
      rewrite Hq in Ha. by destruct Ha.
    + assert (getJob jobId (jobs (startJob now jid d w).2) = Some j) as Hsame.
      { unfold startJob. destruct (getJob jid (jobs w)); [|done].
        repeat (destruct (negb _); [done|]). cbn.
        rewrite getJob_updateJob by done. by rewrite decide_False. }
      unfold startJob in Hsame. rewrite Hsame in Hget'.
      assert (j' = j) as -> by congruence. rewrite Hq in Ha. by destruct Ha.
  - rewrite Hj in Hget'.
    apply getJob_Some in Hget' as [[_ Hin]%list_elem_of_filter Hid].
    rewrite (getJob_unique jobId _ j' Hu Hin Hid) in Hget.
    assert (j' = j) as -> by congruence. rewrite Hq in Ha. by destruct Ha.
Qed.

Lemma removeFirst_elem x y q : y ∈ removeFirst x q → y ∈ q.
Proof.
  induction q as [|z q IH]; cbn; [done|].
  case_decide; [by right|].
  intros [->|Hy]%elem_of_cons; [by left | right; by apply IH].
Qed.

Lemma removeFirst_NoDup x q : NoDup q → NoDup (removeFirst x q).
Proof.
  induction q as [|z q IH]; cbn; [done|].
  intros [Hz Hq]%NoDup_cons. case_decide; [done|].
  apply NoDup_cons. split; [|by apply IH].
  intros Hin. by apply Hz, (removeFirst_elem x).
Qed.

Lemma removeFirst_gone x q : NoDup q → x ∉ removeFirst x q.
Proof.
  induction q as [|z q IH]; cbn; [intros _; by apply not_elem_of_nil|].
  intros [Hz Hq]%NoDup_cons. case_decide as Hzx; [by subst z|].
  apply not_elem_of_cons. split; [congruence | by apply IH].
Qed.

Lemma processQueueFrom_queue q w x :
  (∀ y, y ∈ q → y ∈ queue w) →
  x ∈ queue (processQueueFrom q w) → x ∈ queue w.
Proof.
  revert w. induction q as [|z q IH]; intros w Hq; cbn.
  - by destruct (activeJob w).
  - destruct (activeJob w); cbn; [done|].
    destruct (getJob z (jobs w)) as [nextJob|]; cbn.
    + by destruct (canJobStart nextJob _).
    + intros Hx. apply Hq. right.
      by apply (IH (set_queue q (set_drains (drains w ++ [None]) w))).
Qed.

Lemma finishJob_queue jobId w x :
  x ∈ queue (finishJob jobId w) → x ∈ queue w.
Proof.
  unfold finishJob, processQueue. intros Hx.
  apply processQueueFrom_queue in Hx; [|done].
  by case_decide.
Qed.

(** Jobs that the loop of [failDependentJobs] does not visit keep their
    record, and nothing enters the queue. *)
Lemma failDependentJobs_loop_other d e now (l : list QueueJob.t) w c :
  c ∉ QueueJob.id <$> l →
  let w' :=
    fold_left
      (λ w job,
         if dependsOnQueued d job then
           let w := set_queue (removeFirst (QueueJob.id job) (queue w)) w in
           let w := set_jobs
                      (updateJob (QueueJob.id job) (markFailed (Some e) now)
                         (jobs w)) w in
           emit (jobFailed (QueueJob.id job)) w
         else w) l w in
  getJob c (jobs w') = getJob c (jobs w)
  ∧ (c ∉ queue w → c ∉ queue w').
Proof.
  cbn zeta. revert w. induction l as [|x l IH]; intros w Hc; [done|].
  cbn [fold_left]. apply not_elem_of_cons in Hc as [Hcx Hc].
  match goal with |- context [fold_left _ l ?w1] =>
    destruct (IH w1 Hc) as [-> Hq]
  end.
  destruct (dependsOnQueued d x); [|done]. cbn. split.
  - rewrite getJob_updateJob by done. by rewrite decide_False.
  - intros Hnot. apply Hq. cbn. intros Hin.
    by apply Hnot, (removeFirst_elem (QueueJob.id x)).
Qed.

(** A queued convert job that the loop of [failDependentJobs] visits is
    failed with the given error and taken out of the queue. *)
Lemma failDependentJobs_loop_cascade d e now (l : list QueueJob.t) w c cj :
  NoDup (QueueJob.id <$> l) → cj ∈ l → QueueJob.id cj = c →
  dependsOnQueued d cj = true →
  is_Some (getJob c (jobs w)) → NoDup (queue w) →
  let w' :=
    fold_left
      (λ w job,
         if dependsOnQueued d job then
           let w := set_queue (removeFirst (QueueJob.id job) (queue w)) w in
           let w := set_jobs
                      (updateJob (QueueJob.id job) (markFailed (Some e) now)
                         (jobs w)) w in
           emit (jobFailed (QueueJob.id job)) w
         else w) l w in
  (∃ cj', getJob c (jobs w') = Some cj'
          ∧ QueueJob.status cj' = failed ∧ QueueJob.error cj' = Some e)
  ∧ c ∉ queue w'.
Proof.
  cbn zeta. revert w.
  induction l as [|x l IH]; intros w Hnd Hin Hid Hdep [j0 Hget] Hq;
    [by apply elem_of_nil in Hin|].
  cbn in Hnd. apply NoDup_cons in Hnd as [Hx Hnd].
  apply elem_of_cons in Hin as [<-|Hin]; cbn [fold_left].
  - rewrite Hdep, Hid.
    match goal with |- context [fold_left ?g l ?w1] =>
      pose proof (failDependentJobs_loop_other d e now l w1 c) as Hother
    end.
    cbn zeta in Hother. destruct Hother as [-> Hq']; [by rewrite <- Hid|].
    cbn. split.
    + rewrite getJob_updateJob by done. rewrite decide_True by done.
      rewrite Hget. by eexists.
    + apply Hq'. cbn. by apply removeFirst_gone.
  - apply IH; try done.
    + destruct (dependsOnQueued d x); [|by eexists]. cbn.
      rewrite getJob_updateJob by done.
      case_decide as Hcx; [rewrite <- Hcx|]; rewrite Hget; by eexists.
    + destruct (dependsOnQueued d x); [|done]. cbn.
      by apply removeFirst_NoDup.
Qed.

(** X4.  The cascade on the [failJob] path: when a download job fails,
    every convert job that depends on it and is still queued is failed
    with the error [Dependency failed: ...] and is no longer in the
    queue. *)
Lemma failJob_cascade now d e w dj c cj :
  uniqueIds w → NoDup (queue w) →
  getJob d (jobs w) = Some dj → QueueJob.type dj = download →
  getJob c (jobs w) = Some cj → QueueJob.type cj = convert →
  QueueJob.dependsOn cj = Some d → QueueJob.status cj = queued →
  statusOf c (failJob now d e w) = Some failed
  ∧ errorOf c (failJob now d e w) = Some (Some ("Dependency failed: " +:+ e))
  ∧ c ∉ queue (failJob now d e w).
Proof.
  intros Hu Hq Hd Htd Hc Htc Hdep Hst.
  destruct (getJob_Some _ _ _ Hd) as [_ Hidd].
  destruct (getJob_Some _ _ _ Hc) as [Hinc Hidc].
  assert (c ≠ d) as Hne by (intros ->; congruence).
  unfold statusOf, errorOf, failJob. rewrite Hd, finishJob_jobs.
  rewrite decide_True by done. cbn [jobs emit set_emitted].
  unfold failDependentJobs. rewrite Hidd.
  match goal with |- context [fold_left ?g ?l ?w1] =>
    pose proof (failDependentJobs_loop_cascade d
                  ("Dependency failed: " +:+ e) now l w1 c cj) as Hloop
  end.
  cbn zeta in Hloop. destruct Hloop as [(cj' & Hg & Hs & He) Hnot].
  - cbn. rewrite updateJob_ids by done. exact Hu.
  - cbn. clear -Hinc Hidc Hne. induction (jobs w) as [|x l IH]; cbn.
    + by apply elem_of_nil in Hinc.
    + apply elem_of_cons in Hinc as [<-|Hin].
      * rewrite decide_False by congruence. by left.
      * case_decide; right; [done | by apply IH].
  - done.
  - unfold dependsOnQueued. by apply bool_decide_eq_true.
  - cbn. rewrite getJob_updateJob by done. rewrite decide_False by done.
    by eexists.
  - done.
  - split; [by rewrite Hg; cbn; rewrite Hs|].
    split; [by rewrite Hg; cbn; rewrite He|].
    intros Hin. apply finishJob_queue in Hin. exact (Hnot Hin).
Qed.

(** The listener leaves status and error of every job alone when the
    event is neither [completed] nor [error]. *)
Lemma onProgress_status now p w c :
  DownloadProgress.status p ≠ SCompleted →
  DownloadProgress.status p ≠ SError →
  statusOf c (onProgress now p w) = statusOf c w
  ∧ errorOf c (onProgress now p w) = errorOf c w.
Proof.
  intros Hc He. unfold statusOf, errorOf, onProgress.
  destruct (findByDownloadId _ _) as [job|]; [|done].
  destruct (DownloadProgress.status p); try done.
  all: cbn; rewrite getJob_updateJob by done.
  all: case_decide as Hid; [rewrite Hid|done].
  all: by destruct (getJob (QueueJob.id job) (jobs w)).
Qed.

Lemma cancelDownload_status now d w c :
  statusOf c (cancelDownload now d w).2 = statusOf c w
  ∧ errorOf c (cancelDownload now d w).2 = errorOf c w.
Proof.
  unfold cancelDownload. destruct (sessions w !! d) as [session|]; [|done].
  cbn [snd]. unfold setProgress, emitProgress.
  match goal with |- context [onProgress now ?p ?w0] =>
    destruct (onProgress_status now p w0 c) as [-> ->]; [done|done|]
  end.
  done.
Qed.

(** X5.  On the [cancelJob] path there is no cascade at all: status
    and error of every other job are what they were. *)
Lemma cancelJob_no_cascade now jobId w c :
  c ≠ jobId →
  statusOf c (cancelJob now jobId w).2 = statusOf c w
  ∧ errorOf c (cancelJob now jobId w).2 = errorOf c w.
Proof.
  intros Hne. unfold cancelJob.
  destruct (getJob jobId (jobs w)) as [job|]; [|done]. cbn [snd].
  unfold statusOf, errorOf, processQueue.
  match goal with |- context [processQueueFrom ?q ?w0] =>
    destruct (processQueueFrom_frame q w0) as (-> & _)
  end.
  cbn [jobs emitQueueUpdated emit set_emitted set_jobs].
  rewrite getJob_updateJob by done. rewrite decide_False by done.
  case_decide; [|done]. cbn [jobs set_activeJob].
  destruct (QueueJob.downloadId job) as [d|]; [|done].
  destruct (JS.truthy d); [|done].
  match goal with |- context [cancelDownload now d ?w0] =>
    destruct (cancelDownload_status now d w0 c) as [Hs He]
  end.
  unfold statusOf, errorOf in Hs, He. by rewrite Hs, He.
Qed.

End StatusTransitions.

(** C5, as stated, fails: [completeJob] turns a failed job into a
    completed one, and [startJob] takes a failed job that is still at
    the head of the queue back to [downloading]. *)
Lemma status_monotone_counterexample :
  reachable failedJob
  ∧ statusOf "A" failedJob = Some failed
  ∧ statusOf "A" (completeJob 2 "A" failedJob) = Some completed
  ∧ statusOf "A" (startJob 2 "A" "A" failedJob).2 = Some downloading.
Proof. split; [eexists; reflexivity|]. repeat split; reflexivity. Qed.

(** C5, amended.  In every reachable state: no step returns a job to
    [queued] once it has left that status, and only [startJob] on the
    job itself moves it into [downloading] or [converting];
    [completeJob] puts its job in [completed] and [failJob] and
    [cancelJob] put it in [failed], whatever its status was, so that a
    repeated terminal transition of the same kind keeps the status. *)
Theorem status_transitions (w : World) :
  reachable w →
  (∀ o jobId j j',
     getJob jobId (jobs w) = Some j →
     getJob jobId (jobs (step w o)) = Some j' →
     (QueueJob.status j' = queued → QueueJob.status j = queued)
     ∧ (QueueJob.status j' = downloading ∨ QueueJob.status j' = converting →
        QueueJob.status j' = QueueJob.status j
        ∨ ∃ now d, o = OpStartJob now jobId d))
  ∧ (∀ now jobId error j,
       getJob jobId (jobs w) = Some j →
       statusOf jobId (completeJob now jobId w) = Some completed
       ∧ statusOf jobId (failJob now jobId error w) = Some failed
       ∧ statusOf jobId (cancelJob now jobId w).2 = Some failed).
Proof.
  intros Hr. pose proof (inv_reachable w Hr) as [Hu _]. split.
  - intros o jobId j j' Hget Hget'.
    destruct (step_jobs w o Hu)
      as [Hs|[(job & Hq & Hj)|[(now & jid & d & -> & Hj)|(now & age & Hj)]]].
    + destruct (getJob_settled jobId _ _ j Hs Hget) as (j'' & Hg & Hjj).
      assert (j'' = j') as -> by congruence.
      destruct (settle_facts _ _ Hjj) as (_ & _ & _ & A & Q).
      split; [done|]. intros Ha. left. apply A. by apply bool_decide_pack.
    + rewrite Hj in Hget'. rewrite (getJob_app _ _ _ _ Hget) in Hget'.
      assert (j' = j) as -> by congruence. split; [done|]. by left.
    + rewrite Hj in Hget'. rewrite getJob_updateJob in Hget' by done.
      case_decide as Hid.
      * subst jid. rewrite Hget in Hget'.
        assert (j' = markStarted now d j) as -> by (cbn in Hget'; congruence).
        split.
        -- cbn. by destruct (QueueJob.type j).
        -- intros _. right. by eexists _, _.
      * assert (j' = j) as -> by congruence. split; [done|]. by left.
    + rewrite Hj in Hget'.
      apply getJob_Some in Hget' as [[_ Hin]%list_elem_of_filter Hid].
      rewrite (getJob_unique jobId _ j' Hu Hin Hid) in Hget.
      assert (j' = j) as -> by congruence. split; [done|]. by left.
  - intros now jobId error j Hget. unfold statusOf.
    destruct (terminal_completeJob now jobId w j Hget) as (j1 & H1 & S1).
    destruct (terminal_failJob now jobId error w j Hget) as (j2 & H2 & S2).
    destruct (terminal_cancelJob now jobId w j Hget) as (j3 & H3 & S3).
    rewrite H1, H2, H3. cbn. by rewrite S1, S2, S3.
Qed.

Lemma status_transitions_witness :
  reachable failedJob
  ∧ ((∀ o jobId j j',
        getJob jobId (jobs failedJob) = Some j →
        getJob jobId (jobs (step failedJob o)) = Some j' →
        (QueueJob.status j' = queued → QueueJob.status j = queued)
        ∧ (QueueJob.status j' = downloading
           ∨ QueueJob.status j' = converting →
           QueueJob.status j' = QueueJob.status j
           ∨ ∃ now d, o = OpStartJob now jobId d))
     ∧ (∀ now jobId error j,
          getJob jobId (jobs failedJob) = Some j →
          statusOf jobId (completeJob now jobId failedJob) = Some completed
          ∧ statusOf jobId (failJob now jobId error failedJob) = Some failed
          ∧ statusOf jobId (cancelJob now jobId failedJob).2 = Some failed)).
Proof.
  split; [eexists; reflexivity|].
  apply (status_transitions failedJob). eexists. reflexivity.
Defined.

(** ** The progress bus *)

Section ProgressBus.

Implicit Types (w : World).

Lemma sameBus_trans w1 w2 w3 : sameBus w1 w2 → sameBus w2 w3 → sameBus w1 w3.
Proof. intros [] []. split; congruence. Qed.

Lemma sameBus_fold {A} (g : World → A → World) (l : list A) w :
  (∀ w x, sameBus w (g w x)) → sameBus w (fold_left g l w).
Proof.
  intros Hg. revert w. induction l as [|x l IH]; intros w; cbn; [done|].
  eapply sameBus_trans; [apply Hg | apply IH].
Qed.

Lemma sameBus_finishJob jobId w : sameBus w (finishJob jobId w).
Proof.
  unfold finishJob, processQueue.
  match goal with |- context [processQueueFrom ?q ?w0] =>
    destruct (processQueueFrom_frame q w0) as (_ & _ & Hs & Hp)
  end.
  split; [rewrite Hs | rewrite Hp]; by case_decide.
Qed.

Lemma sameBus_notify d w : sameBus w (notifyDependentJobs d w).
Proof.
  apply sameBus_fold. intros w' job. by destruct (dependsOnQueued d job).
Qed.

Lemma sameBus_failDependent d e now w :
  sameBus w (failDependentJobs d e now w).
Proof.
  apply sameBus_fold. intros w' job. by destruct (dependsOnQueued d job).
Qed.

(** The scheduler's listener never touches the progress bus. *)
Lemma sameBus_onProgress now p w : sameBus w (onProgress now p w).
Proof.
  unfold onProgress. destruct (findByDownloadId _ _) as [job|]; [|done].
  match goal with |- sameBus w (emitQueueUpdated (emit _ ?w0)) =>
    assert (sameBus w w0) as [Hs Hp]; [|by split]
  end.
  destruct (DownloadProgress.status p); try done.
  - destruct (isActive _); [|done].
    eapply sameBus_trans; [|apply sameBus_finishJob].
    destruct (decide (QueueJob.type job = download)); [|done].
    match goal with |- context [notifyDependentJobs ?d ?w0] =>
      destruct (sameBus_notify d w0) end. by split.
  - eapply sameBus_trans; [|apply sameBus_finishJob].
    destruct (decide (QueueJob.type job = download)); [|done].
    match goal with |- context [failDependentJobs ?d ?m ?t ?w0] =>
      destruct (sameBus_failDependent d m t w0) end. by split.
Qed.

(** [setProgress] stores the new progress object and publishes it. *)
Lemma setProgress_bus now downloadId session p w :
  sessions (setProgress now downloadId session p w)
  = <[downloadId := DownloadSession.set_progress p session]> (sessions w)
  ∧ published (setProgress now downloadId session p w) = published w ++ [p].
Proof.
  unfold setProgress, emitProgress.
  match goal with |- context [onProgress now p ?w0] =>
    destruct (sameBus_onProgress now p w0) as [-> ->]
  end. done.
Qed.

End ProgressBus.

(** C6, as stated, fails: a session that has entered [error] is moved
    to [completed] by a later [markCompleted] and back to [downloading]
    by a later [updateProgress]. *)
Lemma terminal_immutability_counterexample :
  reachable erroredSession
  ∧ sessionStatus "d1" erroredSession = Some SError
  ∧ sessionStatus "d1" (markCompleted 2 "d1" erroredSession) = Some SCompleted
  ∧ sessionStatus "d1" (updateProgress 2 "d1" 4096 None erroredSession)
    = Some SDownloading.
Proof. split; [eexists; reflexivity|]. repeat split; reflexivity. Qed.

(** C6, amended.  On an existing session [markCompleted] always sets
    the status to [completed], [markError] to [error] and
    [updateProgress] to [downloading], whatever the status was, and
    each call publishes the new progress; so a second terminal mark of
    the same kind leaves the status as it is.  Other sessions are not
    touched. *)
Theorem marks_overwrite_status (now : Z) (downloadId error : string)
    (bytes : Z) (total : option Z) (w w' : World) (expected : SessionStatus) :
  is_Some (sessions w !! downloadId) →
  (w' = markCompleted now downloadId w ∧ expected = SCompleted)
  ∨ (w' = markError now downloadId error w ∧ expected = SError)
  ∨ (w' = updateProgress now downloadId bytes total w
     ∧ expected = SDownloading) →
  sessionStatus downloadId w' = Some expected
  ∧ (∃ p, published w' = published w ++ [p]
          ∧ DownloadProgress.status p = expected
          ∧ getProgress downloadId w' = Some p)
  ∧ (∀ other, other ≠ downloadId →
              sessions w' !! other = sessions w !! other).
Proof.
  intros [session Hs] Hw'.
  assert (∃ p, sessions w' = <[downloadId := DownloadSession.set_progress p
                                                session]> (sessions w)
               ∧ published w' = published w ++ [p]
               ∧ DownloadProgress.status p = expected) as (p & Hs' & Hp & Hst).
  { destruct Hw' as [[-> ->]|[[-> ->]|[-> ->]]].
    - unfold markCompleted. rewrite Hs. eexists.
      split; [apply setProgress_bus|]. split; [apply setProgress_bus|done].
    - unfold markError. rewrite Hs. eexists.
      split; [apply setProgress_bus|]. split; [apply setProgress_bus|done].
    - unfold updateProgress. rewrite Hs. eexists.
      split; [apply setProgress_bus|]. split; [apply setProgress_bus|done]. }
  unfold sessionStatus, getProgress. rewrite Hs'.
  rewrite lookup_insert_eq. cbn. split; [by rewrite Hst|].
  split; [by exists p|].
  intros other Hne. by rewrite lookup_insert_ne.
Qed.

Lemma marks_overwrite_status_witness :
  is_Some (sessions erroredSession !! "d1")
  ∧ (sessionStatus "d1" (markError 2 "d1" "again" erroredSession)
     = Some SError
     ∧ (∃ p, published (markError 2 "d1" "again" erroredSession)
             = published erroredSession ++ [p]
             ∧ DownloadProgress.status p = SError
             ∧ getProgress "d1" (markError 2 "d1" "again" erroredSession)
               = Some p)
     ∧ (∀ other, other ≠ "d1" →
                 sessions (markError 2 "d1" "again" erroredSession) !! other
                 = sessions erroredSession !! other)).
Proof.
  split; [by eexists|].
  apply (marks_overwrite_status 2 "d1" "again" 0 None erroredSession
           (markError 2 "d1" "again" erroredSession) SError);
    [by eexists | right; left; by split].
Defined.

(** ** Arithmetic on doubles *)

Section Doubles.
Local Open Scope Z_scope.

Lemma roundHalfEven_le (n d m : Z) :
  0 < d -> n <= m * d -> JS.roundHalfEven n d <= m.
Proof.
  intros Hd Hn. unfold JS.roundHalfEven.
  pose proof (Z.div_mod n d ltac:(lia)) as Hdiv.
  pose proof (Z.mod_pos_bound n d Hd) as Hmod.
  assert (n / d <= m) by (apply Z.div_le_upper_bound; lia).
  destruct (Z.ltb_spec (2 * (n mod d)) d); [done|].
  assert (n / d < m) by nia.
  destruct (Z.ltb_spec d (2 * (n mod d))); [lia|].
  destruct (Z.even (n / d)); lia.
Qed.

Lemma roundHalfEven_nonneg (n d : Z) :
  0 <= n -> 0 < d -> 0 <= JS.roundHalfEven n d.
Proof.
  intros Hn Hd. unfold JS.roundHalfEven.
  assert (0 <= n / d) by (apply Z.div_pos; lia).
  destruct (_ <? _); [done|]. destruct (_ <? _); [lia|].
  destruct (Z.even _); lia.
Qed.

Lemma exponent_lower (n d : Z) :
  0 < n -> 0 < d ->
  d * 2 ^ Z.max 0 (JS.exponent n d) <= n * 2 ^ Z.max 0 (- JS.exponent n d).
Proof.
  intros Hn Hd. unfold JS.exponent.
  destruct (Z.leb_spec (d * 2 ^ Z.max 0 (Z.log2 n - Z.log2 d))
              (n * 2 ^ Z.max 0 (- (Z.log2 n - Z.log2 d)))) as [Hle|_];
    [done|].
  pose proof (Z.log2_spec n Hn) as [Hn1 _].
  pose proof (Z.log2_spec d Hd) as [_ Hd2].
  pose proof (Z.log2_nonneg n). pose proof (Z.log2_nonneg d).
  set (a := Z.log2 n) in *. set (b := Z.log2 d) in *.
  destruct (Z.le_gt_cases (b + 1) a) as [Hab|Hab].
  - replace (Z.max 0 (a - b - 1)) with (a - b - 1) by lia.
    replace (Z.max 0 (- (a - b - 1))) with 0 by lia.
    rewrite Z.pow_0_r, Z.mul_1_r.
    assert (2 ^ a = 2 ^ Z.succ b * 2 ^ (a - b - 1)) as Ha.
    { rewrite <- Z.pow_add_r by lia. f_equal. lia. }
    assert (0 < 2 ^ (a - b - 1)) by (apply Z.pow_pos_nonneg; lia).
    nia.
  - replace (Z.max 0 (a - b - 1)) with 0 by lia.
    replace (Z.max 0 (- (a - b - 1))) with (b + 1 - a) by lia.
    rewrite Z.pow_0_r, Z.mul_1_r.
    assert (2 ^ Z.succ b = 2 ^ a * 2 ^ (b + 1 - a)) as Hb.
    { rewrite <- Z.pow_add_r by lia. f_equal. lia. }
    assert (0 < 2 ^ (b + 1 - a)) by (apply Z.pow_pos_nonneg; lia).
    nia.
Qed.

Lemma nearest64_nonneg (n d : Z) :
  0 < n -> 0 < d -> (0 <= JS.nearest64 n d)%Q.
Proof.
  intros Hn Hd. unfold JS.nearest64.
  set (s := 52 - JS.exponent n d).
  assert (0 < 2 ^ Z.max 0 s) by (apply Z.pow_pos_nonneg; lia).
  assert (0 < 2 ^ Z.max 0 (- s)) by (apply Z.pow_pos_nonneg; lia).
  apply Qle_shift_div_l.
  - change 0%Q with (inject_Z 0). by rewrite <- Zlt_Qlt.
  - rewrite Qmult_0_l. change 0%Q with (inject_Z 0). rewrite <- Zle_Qle.
    apply Z.mul_nonneg_nonneg; [|lia].
    apply roundHalfEven_nonneg; nia.
Qed.

Lemma nearest64_le_int (n d c : Z) :
  0 < n -> 0 < d -> 0 < c < 2 ^ 53 -> n <= c * d ->
  (JS.nearest64 n d <= inject_Z c)%Q.
Proof.
  intros Hn Hd Hc Hle. unfold JS.nearest64.
  pose proof (exponent_lower n d Hn Hd) as Hk.
  set (k := JS.exponent n d) in *.
  assert (k <= 52) as Hk52.
  { destruct (Z.le_gt_cases k 52) as [|Hbig]; [done|exfalso].
    replace (Z.max 0 k) with k in Hk by lia.
    replace (Z.max 0 (- k)) with 0 in Hk by lia.
    rewrite Z.pow_0_r, Z.mul_1_r in Hk.
    assert (2 ^ 53 <= 2 ^ k) by (apply Z.pow_le_mono_r; lia).
    nia. }
  replace (Z.max 0 (52 - k)) with (52 - k) by lia.
  replace (Z.max 0 (- (52 - k))) with 0 by lia.
  rewrite Z.pow_0_r, !Z.mul_1_r.
  assert (0 < 2 ^ (52 - k)) as Hpos by (apply Z.pow_pos_nonneg; lia).
  apply Qle_shift_div_r.
  - change 0%Q with (inject_Z 0). by rewrite <- Zlt_Qlt.
  - rewrite <- inject_Z_mult, <- Zle_Qle.
    apply roundHalfEven_le; [done|nia].
Qed.

Lemma toDouble_le_int (x : Q) (c : Z) :
  0 < c < 2 ^ 53 -> (x <= inject_Z c)%Q -> (JS.toDouble x <= inject_Z c)%Q.
Proof.
  intros Hc Hx. unfold JS.toDouble.
  assert (0 <= inject_Z c)%Q as Hc0.
  { change 0%Q with (inject_Z 0). rewrite <- Zle_Qle. lia. }
  destruct x as [n d]. cbn [Qnum Qden].
  destruct n as [|n|n]; [done| |].
  - apply nearest64_le_int; [done|done|done|].
    unfold Qle in Hx. cbn in Hx. lia.
  - pose proof (nearest64_nonneg (Z.pos n) (Z.pos d)) as Hnn.
    specialize (Hnn ltac:(done) ltac:(done)). lra.
Qed.

Lemma round_percentage_bound (b t : Z) :
  0 <= b -> b <= t -> t <> 0 ->
  JS.round (JS.mul (JS.div (inject_Z b) (inject_Z t)) 100) <= 100.
Proof.
  intros Hb Hbt Ht. unfold JS.round, JS.mul, JS.div.
  assert (0 < inject_Z t)%Q as Htq.
  { change 0%Q with (inject_Z 0). rewrite <- Zlt_Qlt. lia. }
  assert (inject_Z b / inject_Z t <= inject_Z 1)%Q as Hq.
  { apply Qle_shift_div_r; [done|]. rewrite Qmult_1_l, <- Zle_Qle. lia. }
  pose proof (toDouble_le_int _ 1 ltac:(done) Hq) as H1.
  set (y := JS.toDouble (inject_Z b / inject_Z t)) in *.
  assert (y * 100 <= inject_Z 100)%Q as H2.
  { change (inject_Z 1) with 1%Q in H1. change (inject_Z 100) with 100%Q. lra. }
  pose proof (toDouble_le_int _ 100 ltac:(done) H2) as H3.
  set (z := JS.toDouble (y * 100)) in *.
  change 100 with (Qfloor (100 + (1 # 2))).
  apply Qfloor_resp_le. change (inject_Z 100) with 100%Q in H3. lra.
Qed.
End Doubles.

(** The percentage is rounded from the double product: 1900544 bytes
    of 13107200 are 14.5 per cent exactly, but 14.499999999999998 as a
    double. *)
Example computePercentage_samples :
  computePercentage 1900544 (Some 13107200%Z) = Some 14%Z
  ∧ computePercentage 1 (Some 200%Z) = Some 1%Z
  ∧ computePercentage 1048577 (Some 1048576%Z) = Some 100%Z
  ∧ computePercentage 2097152 (Some 1048576%Z) = Some 200%Z
  ∧ computePercentage 5 (Some 0%Z) = None
  ∧ computePercentage 5 None = None.
Proof. repeat split; by vm_compute. Qed.

(** ** Progress events of one stream *)

(** A cancelled download has its child process killed, so the timeout
    that fires later publishes nothing. *)
Example cancel_then_timeout :
  (λ p, DownloadProgress.status p)
    <$> published (busRun 3 [RouteCancelDownload; FromStream Timeout]
                     (streamDownload "d1", sessionCreated)).2
  = [SCancelled].
Proof. by vm_compute. Qed.

Section StreamEvents.

Implicit Types (w : World) (p e : DownloadProgress.t).

Lemma computePercentage_bounded (b : Z) (total : option Z) pc :
  (0 ≤ b)%Z → (∀ t, total = Some t → (b ≤ t)%Z) →
  computePercentage b total = Some pc → (pc ≤ 100)%Z.
Proof.
  intros Hb Ht. unfold computePercentage.
  destruct total as [t|]; [|done]. case_decide; [done|].
  intros [= <-]. apply round_percentage_bound; [done|by apply Ht|done].
Qed.

Lemma monotoneBytes_nil : monotoneBytes [].
Proof. intros i j e1 e2 _ H. by rewrite lookup_nil in H. Qed.

Lemma monotoneBytes_snoc events p :
  monotoneBytes events →
  Forall (λ e, (DownloadProgress.bytesDownloaded e
                ≤ DownloadProgress.bytesDownloaded p)%Z) events →
  monotoneBytes (events ++ [p]).
Proof.
  intros Hm Hall i j e1 e2 Hij H1 H2.
  destruct (decide (j < length events)) as [Hj|Hj].
  - rewrite lookup_app_l in H1 by lia. rewrite lookup_app_l in H2 by done.
    by apply (Hm i j e1 e2).
  - rewrite lookup_app_r in H2 by lia.
    apply list_lookup_singleton_Some in H2 as [_ <-].
    destruct (decide (i < length events)) as [Hi|Hi].
    + rewrite lookup_app_l in H1 by done.
      rewrite Forall_forall in Hall. apply Hall.
      by eapply list_elem_of_lookup_2.
    + rewrite lookup_app_r in H1 by lia.
      apply list_lookup_singleton_Some in H1 as [_ <-]. lia.
Qed.

Lemma busInv_mono d before B B' w :
  (B ≤ B')%Z → busInv d before B w → busInv d before B' w.
Proof.
  intros HB (events & Hp & Hok & Hm & Hex & Hs).
  exists events. repeat split; try done.
  all: destruct (Hs session H) as (? & ? & ? & ?); try done; lia.
Qed.

(** The progress object [p] replaces the one of the session of [d] and
    is published. *)
Lemma busInv_setProgress now d before B session p w :
  busInv d before B w →
  sessions w !! d = Some session →
  eventOk d p →
  (DownloadProgress.bytesDownloaded (DownloadSession.progress session)
   ≤ DownloadProgress.bytesDownloaded p ≤ B)%Z →
  busInv d before B (setProgress now d session p w).
Proof.
  intros (events & Hp & Hok & Hm & Hex & Hs) Hsess Hpok Hbytes.
  destruct (Hs session Hsess) as (_ & Hb & _ & Hall).
  destruct (setProgress_bus now d session p w) as [Hs' Hp'].
  assert (Forall (λ e, (DownloadProgress.bytesDownloaded e
                        ≤ DownloadProgress.bytesDownloaded p)%Z) events)
    as Hall'.
  { eapply Forall_impl; [exact Hall|]. cbn. intros e He. lia. }
  exists (events ++ [p]). split; [by rewrite Hp', Hp, app_assoc|].
  split; [apply Forall_app; split; [done|by constructor]|].
  split; [by apply monotoneBytes_snoc|].
  split; [intros _; rewrite Hs', lookup_insert_eq; by eexists|].
  intros session'. rewrite Hs', lookup_insert_eq. intros [= <-]. cbn.
  destruct Hpok as (? & ? & ? & _). repeat split; try done; try lia.
  apply Forall_app. split; [done|]. by constructor.
Qed.

Lemma busInv_updateProgress now d before B total w :
  (0 ≤ B)%Z → busInv d before B w →
  busInv d before B (updateProgress now d B total w).
Proof.
  intros HB Hinv. unfold updateProgress.
  destruct (sessions w !! d) as [session|] eqn:Hsess; [|done].
  pose proof Hinv as (events & _ & _ & _ & _ & Hs).
  destruct (Hs session Hsess) as (_ & Hb & _ & _).
  apply busInv_setProgress; [done|done| |cbn; lia].
  repeat split; cbn; [done| |done].
  intros Hwt pc Hpc. eapply computePercentage_bounded; [exact HB| |exact Hpc].
  exact Hwt.
Qed.

(** The calls that copy the progress object of the session and change
    its status, error or percentage. *)
Lemma busInv_remark now d before B w session status error percentage :
  busInv d before B w →
  sessions w !! d = Some session →
  (percentage = DownloadProgress.percentage (DownloadSession.progress session)
   ∧ status ≠ SCompleted
   ∨ percentage = Some 100%Z) →
  busInv d before B
    (setProgress now d session
       {| DownloadProgress.downloadId :=
            DownloadProgress.downloadId (DownloadSession.progress session);
          DownloadProgress.bytesDownloaded :=
            DownloadProgress.bytesDownloaded (DownloadSession.progress session);
          DownloadProgress.totalBytes :=
            DownloadProgress.totalBytes (DownloadSession.progress session);
          DownloadProgress.percentage := percentage;
          DownloadProgress.status := status;
          DownloadProgress.error := error |} w).
Proof.
  intros Hinv Hsess Hpct.
  pose proof Hinv as (events & _ & _ & _ & _ & Hs).
  destruct (Hs session Hsess) as (Hid & Hb & Hgood & _).
  apply busInv_setProgress; [done|done| |cbn; lia].
  repeat split; cbn; [done|lia| |].
  - intros Hwt pc Hpc. destruct Hpct as [[-> _]| ->].
    + by apply Hgood.
    + injection Hpc as <-. lia.
  - intros ->. by destruct Hpct as [[_ ?]| ->].
Qed.

Lemma busInv_markCompleted now d before B w :
  busInv d before B w → busInv d before B (markCompleted now d w).
Proof.
  intros Hinv. unfold markCompleted.
  destruct (sessions w !! d) as [session|] eqn:Hsess; [|done].
  apply busInv_remark; [done|done|by right].
Qed.

Lemma busInv_markError now d before B error w :
  busInv d before B w → busInv d before B (markError now d error w).
Proof.
  intros Hinv. unfold markError.
  destruct (sessions w !! d) as [session|] eqn:Hsess; [|done].
  apply busInv_remark; [done|done|by left].
Qed.

Lemma busInv_cancelDownload now d before B w :
  busInv d before B w → busInv d before B (cancelDownload now d w).2.
Proof.
  intros Hinv. unfold cancelDownload.
  destruct (sessions w !! d) as [session|] eqn:Hsess; [|done].
  apply busInv_remark; [done|done|by left].
Qed.

Lemma streamInv_onExit now verb code signal text d before s w :
  streamInv d before (s, w) →
  streamInv d before (onExit now verb code signal text s w).
Proof.
  intros (Hd & HB & Hinv). unfold onExit. cbn in *.
  destruct (st_isCleanedUp s) eqn:Hc; [done|].
  destruct (abnormal code); [|case_bool_decide]; repeat split; cbn;
    rewrite ?Hd; try done.
  - by apply busInv_markError.
  - by apply busInv_markCompleted.
Qed.

Lemma busStep_cancel now s w :
  busStep now RouteCancelDownload (s, w)
  = (if (cancelDownload now (st_downloadId s) w).1 && negb (st_killed s)
        && bool_decide (st_exitCode s = None)
     then kill s else s,
     (cancelDownload now (st_downloadId s) w).2).
Proof.
  cbn [busStep]. destruct (cancelDownload now (st_downloadId s) w) as [c w'].
  cbn [fst snd]. by destruct (c && negb (st_killed s) && _).
Qed.

Lemma streamInv_step now c d before sw :
  streamInv d before sw → streamInv d before (busStep now c sw).
Proof.
  destruct sw as [s w]. intros Hi. pose proof Hi as (Hd & HB & Hinv).
  cbn in Hd, HB, Hinv.
  destruct c as [e| | |]; [cbn [busStep]..|rewrite busStep_cancel].
  - destruct e; cbn [streamStep].
    + assert (0 ≤ st_bytesDownloaded s + Z.of_N length)%Z as HB' by lia.
      assert (busInv d before (st_bytesDownloaded s + Z.of_N length) w)
        as Hinv' by (eapply busInv_mono; [|exact Hinv]; lia).
      destruct (_ || _); repeat split; cbn; rewrite ?Hd; try done.
      by apply busInv_updateProgress.
    + repeat split; cbn; rewrite ?Hd; try done.
      by apply busInv_markCompleted, busInv_updateProgress.
    + destruct (Stderr.progressMatch data) as [[[whole frac] u]|]; [|done].
      repeat split; cbn; rewrite ?Hd; try done.
      by apply busInv_updateProgress.
    + destruct (st_isCleanedUp s); [done|].
      repeat split; cbn; rewrite ?Hd; try done.
      by apply busInv_markError.
    + destruct (st_timeoutId s); [|done]. destruct (st_killed s); [done|].
      repeat split; cbn; rewrite ?Hd; try done.
      by apply busInv_markError.
    + destruct (st_isCleanedUp s); [done|]. by destruct (_ && _).
    + by apply streamInv_onExit.
    + by apply streamInv_onExit.
  - repeat split; cbn; rewrite ?Hd; try done. by apply busInv_markCompleted.
  - repeat split; cbn; rewrite ?Hd; try done. by apply busInv_markError.
  - destruct (_ && _); repeat split; cbn; rewrite ?Hd; try done;
      by apply busInv_cancelDownload.
Qed.

Lemma streamInv_run now cs d before sw :
  streamInv d before sw → streamInv d before (busRun now cs sw).
Proof.
  revert sw. induction cs as [|c cs IH]; intros sw Hi; [done|].
  cbn. apply IH. by apply streamInv_step.
Qed.

Lemma streamInv_open d w :
  freshSession d w → streamInv d (published w) (streamDownload d, w).
Proof.
  intros Hfresh. repeat split; cbn; [done|].
  exists []. split; [by rewrite app_nil_r|]. split; [constructor|].
  split; [apply monotoneBytes_nil|]. split; [done|].
  intros session Hs. rewrite (Hfresh session Hs). cbn.
  split; [done|]. split; [lia|]. split; [by intros _ pc|constructor].
Qed.

(** *** Events of a stream opened on an arbitrary session *)

Lemma untilTerminal_live events :
  stillDownloading events → untilTerminal events = events.
Proof.
  induction 1 as [|e events He _ IH]; cbn; [done|].
  rewrite decide_True by done. by rewrite IH.
Qed.

Lemma untilTerminal_snoc_live events p :
  stillDownloading events → untilTerminal (events ++ [p]) = events ++ [p].
Proof.
  induction 1 as [|e events He _ IH]; cbn.
  - by case_decide.
  - rewrite decide_True by done. by rewrite IH.
Qed.

Lemma untilTerminal_snoc_done events p :
  ¬ stillDownloading events →
  untilTerminal (events ++ [p]) = untilTerminal events.
Proof.
  induction events as [|e events IH]; intros Hnot; cbn.
  - destruct Hnot. constructor.
  - case_decide as He; [|done]. rewrite IH; [done|].
    intros Hall. apply Hnot. by constructor.
Qed.

Lemma liveInv_mono d before B B' w :
  (B ≤ B')%Z → liveInv d before B w → liveInv d before B' w.
Proof.
  intros HB (events & Hp & Hok & Hm & Hlive).
  exists events. split; [done|]. split; [done|]. split; [done|].
  intros Hall. destruct (Hlive Hall) as [Hle Hsess]. split; [|done].
  eapply Forall_impl; [exact Hle|]. cbn. intros e He. lia.
Qed.

(** The event [p] is published and stored in the session of [d]. *)
Lemma liveInv_setProgress now d before B session p w :
  liveInv d before B w →
  sessions w !! d = Some session →
  runOk p →
  (DownloadProgress.status p = SDownloading →
   DownloadProgress.bytesDownloaded p = B) →
  (DownloadProgress.status p ≠ SDownloading →
   DownloadProgress.bytesDownloaded p
   = DownloadProgress.bytesDownloaded (DownloadSession.progress session)) →
  liveInv d before B (setProgress now d session p w).
Proof.
  intros (events & Hp & Hok & Hm & Hlive) Hsess Hpok Hupd Hcopy.
  destruct (setProgress_bus now d session p w) as [Hs' Hp'].
  exists (events ++ [p]). split; [by rewrite Hp', Hp, app_assoc|].
  split; [apply Forall_app; split; [done|by constructor]|].
  split.
  - destruct (decide (Forall (λ e, DownloadProgress.status e = SDownloading)
                        events)) as [Hall|Hnot].
    + rewrite untilTerminal_snoc_live by done.
      destruct (Hlive Hall) as [Hle Hold].
      apply monotoneBytes_snoc; [by rewrite <- (untilTerminal_live events)|].
      destruct (decide (DownloadProgress.status p = SDownloading)) as [Hd|Hd].
      * by rewrite (Hupd Hd).
      * rewrite (Hcopy Hd). destruct events as [|e events]; [constructor|].
        by apply Hold.
    + by rewrite untilTerminal_snoc_done.
  - intros Hall. apply Forall_app in Hall as [Hall Hpd].
    apply Forall_cons in Hpd as [Hpd _].
    destruct (Hlive Hall) as [Hle _].
    assert (Forall (λ e, (DownloadProgress.bytesDownloaded e ≤ B)%Z)
              (events ++ [p])) as Hle'.
    { apply Forall_app. split; [done|]. constructor; [|done].
      rewrite (Hupd Hpd). lia. }
    split; [done|]. intros session' _.
    rewrite Hs', lookup_insert_eq. intros [= <-]. cbn. by rewrite (Hupd Hpd).
Qed.

Lemma liveInv_updateProgress now d before B total w :
  (0 ≤ B)%Z → liveInv d before B w →
  liveInv d before B (updateProgress now d B total w).
Proof.
  intros HB Hinv. unfold updateProgress.
  destruct (sessions w !! d) as [session|] eqn:Hsess; [|done].
  apply liveInv_setProgress; [done|done| |done|done].
  split; cbn; [|done].
  intros _ Hwt pc Hpc. eapply computePercentage_bounded; [exact HB| |exact Hpc].
  exact Hwt.
Qed.

Lemma liveInv_markCompleted now d before B w :
  liveInv d before B w → liveInv d before B (markCompleted now d w).
Proof.
  intros Hinv. unfold markCompleted.
  destruct (sessions w !! d) as [session|] eqn:Hsess; [|done].
  by apply liveInv_setProgress.
Qed.

Lemma liveInv_markError now d before B error w :
  liveInv d before B w → liveInv d before B (markError now d error w).
Proof.
  intros Hinv. unfold markError.
  destruct (sessions w !! d) as [session|] eqn:Hsess; [|done].
  by apply liveInv_setProgress.
Qed.

Lemma liveInv_cancelDownload now d before B w :
  liveInv d before B w → liveInv d before B (cancelDownload now d w).2.
Proof.
  intros Hinv. unfold cancelDownload.
  destruct (sessions w !! d) as [session|] eqn:Hsess; [|done].
  by apply liveInv_setProgress.
Qed.

Lemma liveStreamInv_onExit now verb code signal text d before s w :
  liveStreamInv d before (s, w) →
  liveStreamInv d before (onExit now verb code signal text s w).
Proof.
  intros (Hd & HB & Hinv). unfold onExit. cbn in *.
  destruct (st_isCleanedUp s) eqn:Hc; [done|].
  destruct (abnormal code); [|case_bool_decide]; repeat split; cbn;
    rewrite ?Hd; try done.
  - by apply liveInv_markError.
  - by apply liveInv_markCompleted.
Qed.

Lemma liveStreamInv_step now c d before sw :
  liveStreamInv d before sw → liveStreamInv d before (busStep now c sw).
Proof.
  destruct sw as [s w]. intros Hi. pose proof Hi as (Hd & HB & Hinv).
  cbn in Hd, HB, Hinv.
  destruct c as [e| | |]; [cbn [busStep]..|rewrite busStep_cancel].
  - destruct e; cbn [streamStep].
    + assert (0 ≤ st_bytesDownloaded s + Z.of_N length)%Z as HB' by lia.
      assert (liveInv d before (st_bytesDownloaded s + Z.of_N length) w)
        as Hinv' by (eapply liveInv_mono; [|exact Hinv]; lia).
      destruct (_ || _); repeat split; cbn; rewrite ?Hd; try done.
      by apply liveInv_updateProgress.
    + repeat split; cbn; rewrite ?Hd; try done.
      by apply liveInv_markCompleted, liveInv_updateProgress.
    + destruct (Stderr.progressMatch data) as [[[whole frac] u]|]; [|done].
      repeat split; cbn; rewrite ?Hd; try done.
      by apply liveInv_updateProgress.
    + destruct (st_isCleanedUp s); [done|].
      repeat split; cbn; rewrite ?Hd; try done.
      by apply liveInv_markError.
    + destruct (st_timeoutId s); [|done]. destruct (st_killed s); [done|].
      repeat split; cbn; rewrite ?Hd; try done.
      by apply liveInv_markError.
    + destruct (st_isCleanedUp s); [done|]. by destruct (_ && _).
    + by apply liveStreamInv_onExit.
    + by apply liveStreamInv_onExit.
  - repeat split; cbn; rewrite ?Hd; try done. by apply liveInv_markCompleted.
  - repeat split; cbn; rewrite ?Hd; try done. by apply liveInv_markError.
  - destruct (_ && _); repeat split; cbn; rewrite ?Hd; try done;
      by apply liveInv_cancelDownload.
Qed.

Lemma liveStreamInv_run now cs d before sw :
  liveStreamInv d before sw → liveStreamInv d before (busRun now cs sw).
Proof.
  revert sw. induction cs as [|c cs IH]; intros sw Hi; [done|].
  cbn. apply IH. by apply liveStreamInv_step.
Qed.

Lemma liveStreamInv_open d w :
  liveStreamInv d (published w) (streamDownload d, w).
Proof.
  repeat split; cbn; [done|].
  exists []. split; [by rewrite app_nil_r|]. split; [constructor|].
  split; [apply monotoneBytes_nil|]. intros _. split; [constructor|].
  by intros session Hne.
Qed.

End StreamEvents.

(** C7, as stated, fails in both halves.  The extractor reports a
    total of 1.00MiB on stderr after two MiB have been piped through:
    the event published for that line carries the percentage 200.  And
    when a download id is streamed a second time while its session is
    still [downloading], the byte count of the events published for
    that id drops from 131072 to 65536 with no terminal status in
    between. *)
Lemma progress_events_counterexample :
  (Stderr.progressMatch stderrLine
   = Some (Str.lit "1", Str.lit "00", Stderr.MIB)
   ∧ st_bytesDownloaded twoMiBStreamed.1 = 2097152%Z
   ∧ ∃ p, last (published
                  (busStep 2 (FromStream (StderrData stderrLine))
                     twoMiBStreamed).2) = Some p
          ∧ DownloadProgress.downloadId p = "d1"
          ∧ DownloadProgress.status p = SDownloading
          ∧ DownloadProgress.bytesDownloaded p = 2097152%Z
          ∧ DownloadProgress.totalBytes p = Some 1048576%Z
          ∧ DownloadProgress.percentage p = Some 200%Z)
  ∧ (λ p, (DownloadProgress.downloadId p, DownloadProgress.status p,
           DownloadProgress.bytesDownloaded p))
      <$> published streamedTwice.2
    = [ ("d1", SDownloading, 131072%Z); ("d1", SDownloading, 65536%Z) ]
  ∧ ¬ monotoneBytes (published streamedTwice.2).
Proof.
  split; [|split].
  - split; [reflexivity|]. split; [reflexivity|].
    eexists. split; [reflexivity|]. repeat split; reflexivity.
  - reflexivity.
  - intros Hmono.
    specialize (Hmono 0 1 _ _ ltac:(lia) eq_refl eq_refl).
    vm_compute in Hmono. by apply Hmono.
Qed.

(** C7, amended.  For the events that one stream publishes for its
    download id, by its callbacks and by [markCompleted], [markError]
    and [cancelDownload] calls for that id, whatever the session held
    when the stream was opened: the byte counts never decrease until a
    terminal status, the percentage of a [downloading] event is at most
    100 whenever its byte count does not exceed its total, and the
    percentage of a [completed] event is 100.  When the stream was
    opened on a freshly created session, the byte counts never decrease
    at all, also after a terminal status, and the bound on the
    percentage holds for every event. *)
Theorem stream_progress_events (now : Z) (downloadId : string)
    (calls : list BusCall) (w : World) :
  ∃ events,
    published (busRun now calls (streamDownload downloadId, w)).2
    = published w ++ events
    ∧ monotoneBytes (untilTerminal events)
    ∧ (∀ p, p ∈ events → DownloadProgress.status p = SDownloading →
            withinTotal p → percentageBounded p)
    ∧ (∀ p, p ∈ events → DownloadProgress.status p = SCompleted →
            DownloadProgress.percentage p = Some 100%Z)
    ∧ (freshSession downloadId w →
       (∀ p, p ∈ events → DownloadProgress.downloadId p = downloadId)
       ∧ monotoneBytes events
       ∧ (∀ p, p ∈ events → withinTotal p → percentageBounded p)).
Proof.
  destruct (liveStreamInv_run now calls downloadId (published w) _
              (liveStreamInv_open downloadId w))
    as (_ & _ & events & Hp & Hok & Hm & _).
  exists events. rewrite Forall_forall in Hok.
  split; [done|]. split; [done|].
  split; [intros p Hin; by apply Hok|].
  split; [intros p Hin; by apply Hok|].
  intros Hfresh.
  destruct (streamInv_run now calls downloadId (published w) _
              (streamInv_open downloadId w Hfresh))
    as (_ & _ & events' & Hp' & Hok' & Hm' & _).
  assert (events' = events) as ->.
  { rewrite Hp in Hp'. by apply app_inv_head in Hp'. }
  rewrite Forall_forall in Hok'.
  split; [intros p Hin; by apply Hok'|]. split; [done|].
  intros p Hin. by apply Hok'.
Qed.

Lemma stream_progress_events_witness :
  freshSession "d1" sessionCreated
  ∧ ∃ events,
      published (busRun 1 [FromStream (Chunk 65536); FromStream Flush]
                   (streamDownload "d1", sessionCreated)).2
      = published sessionCreated ++ events
      ∧ (∀ p, p ∈ events → DownloadProgress.downloadId p = "d1")
      ∧ monotoneBytes events
      ∧ (∀ p, p ∈ events → withinTotal p → percentageBounded p)
      ∧ (∀ p, p ∈ events → DownloadProgress.status p = SCompleted →
              DownloadProgress.percentage p = Some 100%Z).
Proof.
  assert (freshSession "d1" sessionCreated) as Hfresh.
  { intros session Hs. vm_compute in Hs. by injection Hs as <-. }
  split; [exact Hfresh|].
  destruct (stream_progress_events 1 "d1"
              [FromStream (Chunk 65536); FromStream Flush] sessionCreated)
    as (events & Hp & _ & _ & Hdone & Hrest).
  destruct (Hrest Hfresh) as (Hid & Hm & Hpct).
  by exists events.
Defined.

(** ** URL policy *)

Section UrlPolicy.

Implicit Types (s h pat : jsstring).

Lemma inRange_spec lo hi c :
  Str.inRange lo hi c = true ↔ (lo ≤ c ≤ hi)%N.
Proof.
  unfold Str.inRange. rewrite andb_true_iff, !N.leb_le. done.
Qed.

Lemma stripPrefix_exact pat s rest :
  Str.stripPrefix false pat s = Some rest ↔ s = pat ++ rest.
Proof.
  revert s. induction pat as [|p pat IH]; intros s; cbn.
  - split; [by intros [= ->] | by intros ->].
  - destruct s as [|c s]; [done|]. unfold Str.eqChar.
    destruct (N.eqb_spec p c) as [->|Hne].
    + rewrite IH. split; [by intros -> | by intros [= ->]].
    + split; [done | by intros [= -> _]].
Qed.

Lemma stripPrefix_ci pat s rest :
  Str.stripPrefix true pat s = Some rest ↔
  ∃ pre, s = pre ++ rest ∧ Str.foldCase <$> pre = Str.foldCase <$> pat.
Proof.
  revert s. induction pat as [|p pat IH]; intros s; cbn.
  - split.
    + intros [= ->]. by exists [].
    + intros (pre & -> & Hpre). apply fmap_nil_inv in Hpre as ->. done.
  - destruct s as [|c s].
    + split; [done|]. intros (pre & Hs & Hpre).
      symmetry in Hs. apply app_eq_nil in Hs as [-> _]. done.
    + unfold Str.eqChar. destruct (N.eqb_spec (Str.foldCase p) (Str.foldCase c))
        as [Heq|Hne].
      * rewrite IH. split.
        -- intros (pre & -> & Hpre). exists (c :: pre). cbn.
           by rewrite Hpre, Heq.
        -- intros (pre & Hs & Hpre). destruct pre as [|c' pre]; [done|].
           cbn in Hs, Hpre. injection Hs as <- ->. injection Hpre as _ Hpre.
           by exists pre.
      * split; [done|]. intros (pre & Hs & Hpre).
        destruct pre as [|c' pre]; [done|].
        cbn in Hs, Hpre. injection Hs as <- _. injection Hpre as Hc _.
        by destruct Hne.
Qed.

Lemma startsWith_exact pat s :
  Str.startsWith false pat s = true ↔ pat `prefix_of` s.
Proof.
  unfold Str.startsWith. rewrite bool_decide_eq_true. split.
  - intros [rest Hr]. exists rest. by apply stripPrefix_exact.
  - intros [rest ->]. exists rest. by apply stripPrefix_exact.
Qed.

Lemma startsWith_ci pat s :
  Str.startsWith true pat s = true ↔ prefixCI pat s.
Proof.
  unfold Str.startsWith, prefixCI. rewrite bool_decide_eq_true. split.
  - intros [rest (pre & ? & ?)%stripPrefix_ci]. by exists pre, rest.
  - intros (pre & rest & ? & ?). exists rest. apply stripPrefix_ci.
    by exists pre.
Qed.

Lemma private172_spec h :
  private172 h = true ↔
  ∃ n, (16 ≤ n ≤ 31)%Z
       ∧ (Str.lit "172." ++ Str.ofZ n ++ Str.lit ".") `prefix_of` h.
Proof.
  unfold private172. split.
  - destruct (Str.stripPrefix false (Str.lit "172.") h) as [r|] eqn:Hs;
      [|done].
    apply stripPrefix_exact in Hs as ->.
    destruct r as [|a [|b [|c rest]]]; try done.
    rewrite andb_true_iff, !orb_true_iff, !andb_true_iff.
    unfold Str.isDigit. rewrite !inRange_spec, !N.eqb_eq.
    intros [Hab ->].
    exists (Z.of_N (10 * (a - 48) + (b - 48))).
    assert ((a = 49 ∧ (b = 54 ∨ b = 55 ∨ b = 56 ∨ b = 57))
            ∨ (a = 50 ∧ (b = 48 ∨ b = 49 ∨ b = 50 ∨ b = 51 ∨ b = 52
                         ∨ b = 53 ∨ b = 54 ∨ b = 55 ∨ b = 56 ∨ b = 57))
            ∨ (a = 51 ∧ (b = 48 ∨ b = 49)))%N as Hcases by lia.
    clear Hab.
    repeat match goal with
           | H : _ ∨ _ |- _ => destruct H
           | H : _ ∧ _ |- _ => destruct H
           end; subst; (split; [lia|]); by exists rest.
  - intros (n & Hn & rest & ->).
    assert (n = 16 ∨ n = 17 ∨ n = 18 ∨ n = 19 ∨ n = 20 ∨ n = 21 ∨ n = 22
            ∨ n = 23 ∨ n = 24 ∨ n = 25 ∨ n = 26 ∨ n = 27 ∨ n = 28 ∨ n = 29
            ∨ n = 30 ∨ n = 31)%Z as Hcases by lia.
    repeat match goal with H : _ ∨ _ |- _ => destruct H end; by subst.
Qed.

Lemma blocked_patterns_spec h :
  existsb (λ pattern, pattern h) BLOCKED_PATTERNS = true
  ∨ h = Str.lit "localhost" ∨ h = Str.lit "127.0.0.1" ∨ h = Str.lit "::1"
  ↔ hostBlocked h ∨ schemeLike h.
Proof.
  unfold BLOCKED_PATTERNS, hostBlocked, schemeLike. cbn [existsb].
  rewrite !orb_true_iff, !startsWith_ci, !startsWith_exact, private172_spec.
  split.
  - intros [H|[->|[->|H]]]; [intuition discriminate| | |tauto].
    + left. left. by exists (Str.lit "localhost"), [].
    + left. right. left. by exists (Str.lit "0.0.1").
  - tauto.
Qed.

Section Validator.

Variable parseURL : jsstring → option URL.
Variable toLowerCase : jsstring → jsstring.

Lemma isValidUrl_true_iff url :
  isValidUrl parseURL toLowerCase url = true ↔
  url ≠ [] ∧ (N.of_nat (length url) ≤ 2048)%N
  ∧ ∃ u, parseURL url = Some u
         ∧ (protocol u = Str.lit "http:" ∨ protocol u = Str.lit "https:")
         ∧ toLowerCase (hostname u) ≠ []
         ∧ ¬ hostBlocked (toLowerCase (hostname u))
         ∧ ¬ schemeLike (toLowerCase (hostname u)).
Proof.
  unfold isValidUrl.
  case_bool_decide as Hempty; [by split; [|intros []]|].
  destruct (N.ltb_spec 2048 (N.of_nat (length url))) as [Hlen|Hlen].
  { split; [done|]. intros (_ & ? & _). lia. }
  destruct (parseURL url) as [u|]; [|split; [done|by intros (_ & _ & ? & ? & _)]].
  pose proof (blocked_patterns_spec (toLowerCase (hostname u))) as Hblocked.
  repeat case_bool_decide; cbn [negb andb orb];
    destruct (existsb _ BLOCKED_PATTERNS) eqn:Hpat;
    try (split; [done|];
         intros (_ & _ & u' & [= <-] & Hproto & Hhost & Hnb & Hns);
         first [ by destruct Hproto
               | done
               | destruct Hblocked as [Hb _];
                 destruct Hb as [?|?]; [auto|done|done] ]).
  all: split; [intros _|done]; (split; [done|]); (split; [done|]);
    exists u; (split; [done|]); (split; [auto|]); (split; [done|]);
    split; intros Hb;
    (destruct Hblocked as [_ Hb']; destruct Hb' as [?|[?|[?|?]]];
     [auto|congruence..]).
Qed.

End Validator.

End UrlPolicy.

(** The policy for every parser.  [isValidUrl] is a total function from
    strings to booleans.  It returns false for every input longer than 2048 characters, for
    every input that is not an absolute URL or whose scheme is neither
    http nor https, and for every input whose lower-cased host name
    matches the blocklist; it returns true exactly for the non-empty
    inputs of at most 2048 characters that parse as http or https URLs
    with a non-empty host name that no entry of the blocklist
    matches. *)
Theorem isValidUrl_policy (parseURL : jsstring → option URL)
    (toLowerCase : jsstring → jsstring) (url : jsstring) :
  let valid := isValidUrl parseURL toLowerCase url in
  ((2048 < N.of_nat (length url))%N → valid = false)
  ∧ (parseURL url = None → valid = false)
  ∧ (∀ u, parseURL url = Some u →
          protocol u ≠ Str.lit "http:" → protocol u ≠ Str.lit "https:" →
          valid = false)
  ∧ (∀ u, parseURL url = Some u →
          hostBlocked (toLowerCase (hostname u)) → valid = false)
  ∧ (valid = true ↔
       url ≠ [] ∧ (N.of_nat (length url) ≤ 2048)%N
       ∧ ∃ u, parseURL url = Some u
              ∧ (protocol u = Str.lit "http:" ∨ protocol u = Str.lit "https:")
              ∧ toLowerCase (hostname u) ≠ []
              ∧ ¬ hostBlocked (toLowerCase (hostname u))
              ∧ ¬ schemeLike (toLowerCase (hostname u))).
Proof.
  cbn zeta.
  pose proof (isValidUrl_true_iff parseURL toLowerCase url) as Hiff.
  destruct (isValidUrl parseURL toLowerCase url).
  - destruct Hiff as [Htrue _].
    destruct (Htrue eq_refl) as (Hne & Hlen & u & Hu & Hproto & Hh & Hnb & Hns).
    split; [lia|]. split; [congruence|].
    split; [intros u' Hu' H1 H2|split; [intros u' Hu' Hb|]].
    + assert (u' = u) as -> by congruence. by destruct Hproto.
    + assert (u' = u) as -> by congruence. done.
    + split; [intros _|done]. split; [done|]. split; [done|]. by exists u.
  - destruct Hiff as [_ Hfalse].
    split; [done|]. split; [done|]. split; [done|]. split; [done|].
    split; [done|exact Hfalse].
Qed.

(** The policy on concrete addresses, with the example parser. *)
Example isValidUrl_examples :
  let valid s := isValidUrl demoParse demoLower (Str.lit s) in
  valid "https://example.test/watch?v=1" = true
  ∧ valid "http://LOCALHOST/x" = false
  ∧ valid "http://localhost.example.test/" = false
  ∧ valid "http://127.0.0.1/" = false
  ∧ valid "http://192.168.1.1/" = false
  ∧ valid "http://10.0.0.1/" = false
  ∧ valid "http://172.16.0.1/" = false
  ∧ valid "http://172.31.255.1/" = false
  ∧ valid "http://172.32.0.1/" = true
  ∧ valid "http://0.0.0.0/" = false
  ∧ valid "file://host/etc/passwd" = false
  ∧ valid "ftp://example.test/" = false
  ∧ valid "not a url" = false.
Proof. cbn zeta. repeat split; reflexivity. Qed.

(** C8.  The validator does not reject the loopback address written as
    an IPv6 literal.  The parser reports the host name of
    [http://[::1]/] with its brackets, as [[::1]]; no entry of the
    blocklist matches that text and the comparison with [::1] fails, so
    [isValidUrl] returns true where the policy asks for false.  This
    holds for every parser that reports the host name in this way, and
    in particular for the example parser. *)
Theorem isValidUrl_ipv6_loopback :
  (∀ (parseURL : jsstring → option URL) (toLowerCase : jsstring → jsstring)
     (url : jsstring),
     url ≠ [] → (N.of_nat (length url) ≤ 2048)%N →
     parseURL url = Some {| protocol := Str.lit "http:";
                            hostname := Str.lit "[::1]" |} →
     toLowerCase (Str.lit "[::1]") = Str.lit "[::1]" →
     isValidUrl parseURL toLowerCase url = true)
  ∧ demoParse (Str.lit "http://[::1]/")
    = Some {| protocol := Str.lit "http:"; hostname := Str.lit "[::1]" |}
  ∧ demoLower (Str.lit "[::1]") = Str.lit "[::1]"
  ∧ isValidUrl demoParse demoLower (Str.lit "http://[::1]/") = true.
Proof.
  split; [|repeat split; reflexivity].
  intros parseURL toLowerCase url Hne Hlen Hparse Hlower.
  unfold isValidUrl. rewrite bool_decide_eq_false_2 by done.
  assert ((2048 <? N.of_nat (length url))%N = false) as ->
    by (apply N.ltb_ge; lia).
  rewrite Hparse. cbn [protocol hostname]. rewrite Hlower. reflexivity.
Qed.

(** ** Filename sanitisation *)

Section Sanitiser.

Implicit Types (s : jsstring) (c r : N) (C P : N → bool).

Ltac charlia :=
  unfold isSafeChar, isKept, isUnderscore, underscore, Str.isWord,
    Str.isAlnum, Str.isSpace, Str.isDigit, Str.isUpper, Str.isLower,
    Str.inRange in *;
  rewrite ?orb_true_iff, ?andb_true_iff, ?N.leb_le, ?N.eqb_eq in *; lia.

Lemma safe_not_space c : isSafeChar c = true → Str.isSpace c = false.
Proof. intros H. destruct (Str.isSpace c) eqn:E; [exfalso; charlia|done]. Qed.

Lemma safe_kept c : isSafeChar c = true → isKept c = true.
Proof. intros H. charlia. Qed.

Lemma kept_safe c : isKept c = true → Str.isSpace c = false →
  isSafeChar c = true.
Proof.
  intros H Hs. unfold isKept in H. rewrite Hs in H. unfold isSafeChar.
  by rewrite orb_false_r in H.
Qed.

Lemma alnum_safe c : Str.isAlnum c = true → isSafeChar c = true.
Proof. intros H. charlia. Qed.

Lemma alnum_not_underscore c : Str.isAlnum c = true → isUnderscore c = false.
Proof.
  intros H. destruct (isUnderscore c) eqn:E; [exfalso; charlia|done].
Qed.

Lemma underscore_safe : isSafeChar underscore = true.
Proof. reflexivity. Qed.

(** *** Runs *)

Lemma replaceRuns_Forall C r (Q : N → Prop) inRun s :
  Q r → Forall (λ c, C c = false → Q c) s →
  Forall Q (Str.replaceRuns C r inRun s).
Proof.
  intros Hr Hs. revert inRun.
  induction Hs as [|c s Hc Hs IH]; intros inRun; cbn; [constructor|].
  destruct (C c) eqn:HC.
  - destruct inRun; [apply IH|constructor; [done|apply IH]].
  - constructor; [by apply Hc|apply IH].
Qed.

Lemma replaceRuns_none C r inRun s :
  Forall (λ c, C c = false) s → Str.replaceRuns C r inRun s = s.
Proof.
  revert inRun. induction s as [|c s IH]; intros inRun Hs; [done|].
  apply Forall_cons in Hs as [Hc Hs]. cbn. rewrite Hc. f_equal. by apply IH.
Qed.

Lemma replaceRuns_app C r inRun s1 c s2 :
  C c = false →
  Str.replaceRuns C r inRun (s1 ++ c :: s2)
  = Str.replaceRuns C r inRun s1 ++ c :: Str.replaceRuns C r false s2.
Proof.
  intros Hc. revert inRun. induction s1 as [|x s1 IH]; intros inRun; cbn.
  - by rewrite Hc.
  - destruct (C x); [destruct inRun|]; cbn; by rewrite IH.
Qed.

Lemma noRuns_weaken C s : noRuns C true s → noRuns C false s.
Proof. destruct s as [|c s]; cbn; [done|]. destruct (C c); [by intros []|done]. Qed.

Lemma replaceRuns_noRuns C r inRun s :
  noRuns C inRun (Str.replaceRuns C r inRun s).
Proof.
  revert inRun. induction s as [|c s IH]; intros inRun; cbn; [done|].
  destruct (C c) eqn:Hc.
  - destruct inRun; [apply IH|]. cbn. destruct (C r); [split; [done|apply IH]|].
    apply noRuns_weaken, IH.
  - cbn. rewrite Hc. apply IH.
Qed.

(** A string without runs is left alone when the class is the single
    character [r]. *)
Lemma replaceRuns_fix C r inRun s :
  (∀ c, C c = true → c = r) → noRuns C inRun s →
  Str.replaceRuns C r inRun s = s.
Proof.
  intros HC. revert inRun. induction s as [|c s IH]; intros inRun; cbn; [done|].
  destruct (C c) eqn:Hc.
  - intros [-> Hs]. rewrite (HC c Hc). f_equal. by apply IH.
  - intros Hs. f_equal. by apply IH.
Qed.

Lemma noRuns_app_l C prev s1 s2 : noRuns C prev (s1 ++ s2) → noRuns C prev s1.
Proof.
  revert prev. induction s1 as [|c s1 IH]; intros prev; cbn; [done|].
  destruct (C c); [intros [? ?]; split; [done|by apply IH]|apply IH].
Qed.

Lemma noRuns_app_r C prev s1 s2 : noRuns C prev (s1 ++ s2) → noRuns C false s2.
Proof.
  revert prev. induction s1 as [|c s1 IH]; intros prev; cbn.
  - destruct prev; [apply noRuns_weaken|done].
  - destruct (C c); [intros [_ ?]|]; by eapply IH.
Qed.

(** *** Stripping at both ends *)

Lemma dropWhile_split P s :
  ∃ pre, s = pre ++ Str.dropWhile P s ∧ Forall (λ c, P c = true) pre.
Proof.
  induction s as [|c s (pre & Hs & Hpre)]; cbn; [by exists []|].
  destruct (P c) eqn:Hc.
  - exists (c :: pre). split; [cbn; by f_equal|by constructor].
  - by exists [].
Qed.

Lemma dropWhile_head P s c :
  head (Str.dropWhile P s) = Some c → P c = false.
Proof.
  induction s as [|x s IH]; cbn; [done|].
  destruct (P x) eqn:Hx; [done|]. cbn. by intros [= <-].
Qed.

Lemma dropWhile_id P s :
  (∀ c, head s = Some c → P c = false) → Str.dropWhile P s = s.
Proof. destruct s as [|c s]; cbn; [done|]. intros H. by rewrite (H c). Qed.

Lemma dropWhile_app P s1 c s2 :
  P c = false →
  Str.dropWhile P (s1 ++ c :: s2) = Str.dropWhile P s1 ++ c :: s2.
Proof.
  intros Hc. induction s1 as [|x s1 IH]; cbn; [by rewrite Hc|].
  by destruct (P x).
Qed.

Lemma dropWhileEnd_split P s :
  ∃ post, s = Str.dropWhileEnd P s ++ post ∧ Forall (λ c, P c = true) post.
Proof.
  unfold Str.dropWhileEnd.
  destruct (dropWhile_split P (reverse s)) as (pre & Hs & Hpre).
  exists (reverse pre). split; [|by apply Forall_reverse].
  rewrite <- reverse_app, <- Hs. by rewrite reverse_involutive.
Qed.

Lemma dropWhileEnd_last P s c :
  last (Str.dropWhileEnd P s) = Some c → P c = false.
Proof.
  unfold Str.dropWhileEnd. rewrite last_reverse. apply dropWhile_head.
Qed.

Lemma dropWhileEnd_id P s :
  (∀ c, last s = Some c → P c = false) → Str.dropWhileEnd P s = s.
Proof.
  intros H. unfold Str.dropWhileEnd. rewrite dropWhile_id.
  - apply reverse_involutive.
  - intros c. rewrite head_reverse. apply H.
Qed.

Lemma dropWhileEnd_Forall P (Q : N → Prop) s :
  Forall Q s → Forall Q (Str.dropWhileEnd P s).
Proof.
  intros H. destruct (dropWhileEnd_split P s) as (post & Hs & _).
  rewrite Hs in H. by apply Forall_app in H as [? _].
Qed.

Lemma dropWhile_Forall P (Q : N → Prop) s :
  Forall Q s → Forall Q (Str.dropWhile P s).
Proof.
  intros H. destruct (dropWhile_split P s) as (pre & Hs & _).
  rewrite Hs in H. by apply Forall_app in H as [_ ?].
Qed.

Lemma trim_safe s :
  Forall (λ c, isSafeChar c = true) s → Str.trim s = s.
Proof.
  intros Hs. unfold Str.trim. rewrite (dropWhile_id _ s).
  - apply dropWhileEnd_id. intros c Hc. apply safe_not_space.
    rewrite Forall_forall in Hs. apply Hs.
    apply last_Some in Hc as [l' ->]. apply elem_of_app. right. left.
  - intros c Hc. apply safe_not_space.
    destruct s as [|x s]; [done|]. injection Hc as ->.
    by apply Forall_cons in Hs as [? _].
Qed.

(** *** The cleaned name *)

Lemma filter_kept_Forall s : Forall (λ c, isKept c = true) (List.filter isKept s).
Proof.
  induction s as [|c s IH]; cbn; [constructor|].
  destruct (isKept c) eqn:Hc; [by constructor|done].
Qed.

Lemma filter_kept_id s :
  Forall (λ c, isKept c = true) s → List.filter isKept s = s.
Proof.
  induction 1 as [|c s Hc Hs IH]; cbn; [done|]. rewrite Hc. by f_equal.
Qed.

Lemma filter_kept_length s : length (List.filter isKept s) ≤ length s.
Proof.
  induction s as [|c s IH]; cbn; [done|]. destruct (isKept c); cbn; lia.
Qed.

Lemma replaceRuns_length C r inRun s :
  length (Str.replaceRuns C r inRun s) ≤ length s.
Proof.
  revert inRun. induction s as [|c s IH]; intros inRun; cbn; [done|].
  destruct (C c); [destruct inRun|]; cbn;
    [specialize (IH true)|specialize (IH true)|specialize (IH false)]; lia.
Qed.

Lemma dropWhile_length P s : length (Str.dropWhile P s) ≤ length s.
Proof.
  destruct (dropWhile_split P s) as (pre & Hs & _).
  rewrite Hs at 2. rewrite length_app. lia.
Qed.

Lemma dropWhileEnd_length P s : length (Str.dropWhileEnd P s) ≤ length s.
Proof.
  destruct (dropWhileEnd_split P s) as (post & Hs & _).
  rewrite Hs at 2. rewrite length_app. lia.
Qed.

Lemma cleanName_length s : length (cleanName s) ≤ length s.
Proof.
  unfold cleanName.
  etrans; [apply dropWhileEnd_length|]. etrans; [apply dropWhile_length|].
  etrans; [apply replaceRuns_length|]. etrans; [apply replaceRuns_length|].
  apply filter_kept_length.
Qed.

Lemma cleanName_safe s : Forall (λ c, isSafeChar c = true) (cleanName s).
Proof.
  unfold cleanName. apply dropWhileEnd_Forall, dropWhile_Forall.
  apply replaceRuns_Forall; [apply underscore_safe|].
  apply Forall_forall. intros c Hc _. revert c Hc. apply Forall_forall.
  apply replaceRuns_Forall; [apply underscore_safe|].
  eapply Forall_impl; [apply filter_kept_Forall|]. intros c. apply kept_safe.
Qed.

Lemma cleanName_noRuns s : noRuns isUnderscore false (cleanName s).
Proof.
  unfold cleanName.
  set (s3 := Str.replaceRuns isUnderscore underscore false _).
  pose proof (replaceRuns_noRuns isUnderscore underscore false
                (Str.replaceRuns Str.isSpace underscore false
                   (List.filter isKept s))) as H3.
  fold s3 in H3.
  destruct (dropWhile_split isUnderscore s3) as (pre & Hs3 & _).
  rewrite Hs3 in H3. apply noRuns_app_r in H3.
  destruct (dropWhileEnd_split isUnderscore (Str.dropWhile isUnderscore s3))
    as (post & Hd & _).
  rewrite Hd in H3. by apply noRuns_app_l in H3.
Qed.

Lemma cleanName_head s c :
  head (cleanName s) = Some c → isUnderscore c = false.
Proof.
  unfold cleanName.
  set (d := Str.dropWhile isUnderscore _).
  destruct (dropWhileEnd_split isUnderscore d) as (post & Hd & _).
  intros Hc. apply (dropWhile_head isUnderscore
                      (Str.replaceRuns isUnderscore underscore false
                         (Str.replaceRuns Str.isSpace underscore false
                            (List.filter isKept s)))).
  fold d. rewrite Hd. destruct (Str.dropWhileEnd isUnderscore d); done.
Qed.

Lemma cleanName_last s c :
  last (cleanName s) = Some c → isUnderscore c = false.
Proof. apply dropWhileEnd_last. Qed.

(** A name that is already clean is left alone. *)
Lemma cleanName_fix s :
  Forall (λ c, isSafeChar c = true) s →
  noRuns isUnderscore false s →
  (∀ c, head s = Some c → isUnderscore c = false) →
  (∀ c, last s = Some c → isUnderscore c = false) →
  cleanName s = s.
Proof.
  intros Hsafe Hruns Hhead Hlast. unfold cleanName.
  rewrite filter_kept_id
    by (eapply Forall_impl; [exact Hsafe|]; intros c; apply safe_kept).
  rewrite (replaceRuns_none Str.isSpace)
    by (eapply Forall_impl; [exact Hsafe|]; intros c; apply safe_not_space).
  rewrite replaceRuns_fix; [|intros c Hc; by apply N.eqb_eq in Hc|done].
  rewrite (dropWhile_id _ s) by done. by apply dropWhileEnd_id.
Qed.

Lemma safeFilename_unfold s :
  safeFilename s = orDownload (take 100 (cleanName s)).
Proof.
  unfold safeFilename. destruct s as [|c s]; [done|].
  rewrite trim_safe; [done|]. apply Forall_take, cleanName_safe.
Qed.

(** The shape of every result: the fallback, or a clean name that may
    have been cut. *)
Lemma safeFilename_shape s :
  let r := safeFilename s in
  Forall (λ c, isSafeChar c = true) r
  ∧ 0 < length r ≤ 100
  ∧ noRuns isUnderscore false r
  ∧ (∀ c, head r = Some c → isUnderscore c = false).
Proof.
  cbn zeta. rewrite safeFilename_unfold.
  set (t := take 100 (cleanName s)).
  assert (Forall (λ c, isSafeChar c = true) t) as Hsafe
    by apply Forall_take, cleanName_safe.
  assert (length t ≤ 100) as Hlen by (unfold t; rewrite length_take; lia).
  assert (noRuns isUnderscore false t) as Hruns.
  { apply (noRuns_app_l _ _ _ (drop 100 (cleanName s))).
    unfold t. rewrite take_drop. apply cleanName_noRuns. }
  assert (∀ c, head t = Some c → isUnderscore c = false) as Hhead.
  { intros c Hc. apply (cleanName_head s). unfold t in Hc.
    by destruct (cleanName s). }
  clearbody t. destruct t as [|c t]; cbn [orDownload].
  - split; [by repeat constructor|].
    split; [cbn; lia|]. split; [done|]. by intros c [= <-].
  - split; [done|]. split; [cbn in *; lia|]. by split.
Qed.

Lemma safeFilename_fix s :
  Forall (λ c, isSafeChar c = true) s → 0 < length s ≤ 100 →
  noRuns isUnderscore false s →
  (∀ c, head s = Some c → isUnderscore c = false) →
  (∀ c, last s = Some c → isUnderscore c = false) →
  safeFilename s = s.
Proof.
  intros Hsafe Hlen Hruns Hhead Hlast.
  rewrite safeFilename_unfold, cleanName_fix by done.
  rewrite take_ge by lia. destruct s; [cbn in Hlen; lia|done].
Qed.

Lemma safeFilename_last_twice s c :
  last (safeFilename (safeFilename s)) = Some c → isUnderscore c = false.
Proof.
  destruct (safeFilename_shape s) as (_ & Hlen & _).
  rewrite (safeFilename_unfold (safeFilename s)).
  rewrite take_ge by (pose proof (cleanName_length (safeFilename s)); lia).
  destruct (cleanName (safeFilename s)) as [|x t] eqn:Hc.
  - cbn. by intros [= <-].
  - cbn [orDownload]. rewrite <- Hc. apply cleanName_last.
Qed.

(** The sanitiser is idempotent exactly on the names whose result does
    not end in an underscore. *)
Lemma safeFilename_idempotent_iff s :
  safeFilename (safeFilename s) = safeFilename s
  ↔ last (safeFilename s) ≠ Some underscore.
Proof.
  split.
  - intros Heq Hlast. rewrite <- Heq in Hlast.
    by apply safeFilename_last_twice in Hlast.
  - intros Hlast. destruct (safeFilename_shape s) as (? & ? & ? & ?).
    apply safeFilename_fix; try done.
    intros c Hc. destruct (isUnderscore c) eqn:Hu; [|done].
    apply N.eqb_eq in Hu as ->. done.
Qed.

(** The cleaned name keeps an alphanumeric extension. *)
Lemma cleanName_extension stem ext :
  ext ≠ [] → Forall (λ c, Str.isAlnum c = true) ext →
  ∃ stem', cleanName (stem ++ Str.lit "." ++ ext) = stem' ++ Str.lit "." ++ ext.
Proof.
  intros Hne Hext. unfold cleanName.
  assert (Forall (λ c, isKept c = true) ext) as Hkept.
  { eapply Forall_impl; [exact Hext|]. intros c Hc. by apply safe_kept, alnum_safe. }
  assert (Forall (λ c, Str.isSpace c = false) ext) as Hnsp.
  { eapply Forall_impl; [exact Hext|]. intros c Hc.
    by apply safe_not_space, alnum_safe. }
  assert (Forall (λ c, isUnderscore c = false) ext) as Hnus.
  { eapply Forall_impl; [exact Hext|]. intros c. apply alnum_not_underscore. }
  change (Str.lit "." ++ ext) with (46%N :: ext).
  assert (List.filter isKept (stem ++ 46%N :: ext)
          = List.filter isKept stem ++ 46%N :: ext) as ->.
  { rewrite List.filter_app. f_equal.
    change (List.filter isKept (46%N :: ext))
      with (46%N :: List.filter isKept ext).
    by rewrite filter_kept_id. }
  rewrite replaceRuns_app by done.
  rewrite (replaceRuns_none Str.isSpace _ _ ext) by done.
  rewrite replaceRuns_app by done.
  rewrite (replaceRuns_none isUnderscore _ _ ext) by done.
  rewrite dropWhile_app by done.
  rewrite dropWhileEnd_id; [by eexists|].
  intros c Hc. rewrite Forall_forall in Hnus. apply Hnus.
  destruct (last ext) as [x|] eqn:Hx.
  - change (46%N :: ext) with ([46%N] ++ ext) in Hc.
    rewrite app_assoc, last_app, Hx in Hc. injection Hc as <-.
    apply last_Some in Hx as [l' ->]. apply elem_of_app. right. left.
  - by apply last_None in Hx.
Qed.

End Sanitiser.

(** C10.  On a name whose cleaned form is longer than 100 characters
    the sanitiser does not do what it is meant to do.  The name of 99
    letters, a blank, [b] and the extension mp4 is cut after the
    underscore that stands for the blank: the result ends in an
    underscore, although trailing underscores are stripped one step
    earlier, a second application removes that underscore, so that
    sanitising twice differs from sanitising once, and the extension is
    lost.  The same name reaches the client when the title has 99
    letters, a blank and [b]. *)
Theorem safeFilename_cut_at_cap :
  length longName = 105
  ∧ safeFilename longName = replicate 99 97%N ++ Str.lit "_"
  ∧ safeFilename (safeFilename longName) = replicate 99 97%N
  ∧ safeFilename (safeFilename longName) ≠ safeFilename longName
  ∧ ¬ (Str.lit ".mp4" `suffix_of` safeFilename longName)
  ∧ headerFilename (replicate 99 97%N ++ Str.lit " b") (Str.lit "mp4")
    = replicate 99 97%N ++ Str.lit "_".
Proof.
  split; [reflexivity|]. split; [by vm_compute|]. split; [by vm_compute|].
  split; [|split].
  - intros H. apply (f_equal length) in H. vm_compute in H. discriminate.
  - intros [k Hk]. apply (f_equal last) in Hk. rewrite last_app in Hk.
    vm_compute in Hk. discriminate.
  - by vm_compute.
Qed.

(** What the sanitiser does guarantee.  Every result consists of
    letters, digits, underscore, dot and hyphen only, has between 1 and
    100 characters
    and no two adjacent underscores, and is the literal "download" when
    nothing is left of the name.  Whenever the cleaned name is within
    the cap of 100 characters, sanitising twice equals sanitising once
    and an alphanumeric extension is kept. *)
Theorem safeFilename_properties (name : jsstring) :
  Forall (λ c, isSafeChar c = true) (safeFilename name)
  ∧ 0 < length (safeFilename name) ≤ 100
  ∧ noRuns isUnderscore false (safeFilename name)
  ∧ (cleanName name = [] → safeFilename name = Str.lit "download")
  ∧ (length (cleanName name) ≤ 100 →
     safeFilename (safeFilename name) = safeFilename name
     ∧ ∀ stem ext,
         name = stem ++ Str.lit "." ++ ext → ext ≠ [] →
         Forall (λ c, Str.isAlnum c = true) ext →
         (Str.lit "." ++ ext) `suffix_of` safeFilename name).
Proof.
  destruct (safeFilename_shape name) as (Hsafe & Hlen & Hruns & _).
  split; [done|]. split; [done|]. split; [done|].
  split; [intros Hc; by rewrite safeFilename_unfold, Hc|].
  intros Hcap.
  assert (safeFilename name = orDownload (cleanName name)) as Hr.
  { rewrite safeFilename_unfold. by rewrite take_ge. }
  split.
  - apply safeFilename_idempotent_iff. rewrite Hr.
    destruct (cleanName name) as [|c t] eqn:Hc; [done|].
    cbn [orDownload]. rewrite <- Hc. intros Hlast.
    by apply cleanName_last in Hlast.
  - intros stem ext -> Hne Hext.
    destruct (cleanName_extension stem ext Hne Hext) as [stem' Hc].
    rewrite Hr, Hc. exists stem'.
    by destruct stem'.
Qed.

Lemma safeFilename_properties_witness :
  length (cleanName (Str.lit "My  video: (2024).mp4")) ≤ 100
  ∧ safeFilename (safeFilename (Str.lit "My  video: (2024).mp4"))
    = safeFilename (Str.lit "My  video: (2024).mp4")
  ∧ (Str.lit "." ++ Str.lit "mp4")
      `suffix_of` safeFilename (Str.lit "My  video: (2024).mp4").
Proof.
  assert (length (cleanName (Str.lit "My  video: (2024).mp4")) ≤ 100) as Hcap
    by (vm_compute; lia).
  split; [exact Hcap|].
  destruct (safeFilename_properties (Str.lit "My  video: (2024).mp4"))
    as (_ & _ & _ & _ & H).
  destruct (H Hcap) as [Hidem Hext]. split; [exact Hidem|].
  apply (Hext (Str.lit "My  video: (2024)") (Str.lit "mp4"));
    [reflexivity|done|by repeat constructor].
Defined.

(** The sanitiser on concrete names. *)
Example safeFilename_examples :
  safeFilename (Str.lit "My  video: (2024) [HD]!!.mp4")
  = Str.lit "My_video_2024_HD.mp4"
  ∧ safeFilename [] = Str.lit "download"
  ∧ safeFilename (Str.lit "???") = Str.lit "download"
  ∧ safeFilename (Str.lit "__ a__b _ .. ") = Str.lit "a_b_..".
Proof. repeat split; reflexivity. Qed.

(** ** The format list of an analysis *)

Lemma StronglySorted_lookup {A} (R : relation A) (l : list A) i j x y :
  StronglySorted R l → i < j → l !! i = Some x → l !! j = Some y → R x y.
Proof.
  intros Hs. revert i j. induction Hs as [|z l Hs IH Hx]; intros i j Hij Hi Hj.
  - by rewrite lookup_nil in Hi.
  - destruct j as [|j]; [lia|]. cbn in Hj. destruct i as [|i].
    + injection Hi as ->. rewrite Forall_forall in Hx. apply Hx.
      by eapply list_elem_of_lookup_2.
    + cbn in Hi. apply (IH i j); [lia|done|done].
Qed.

Section Sorting.

Context {A : Type} (compare : A → A → Z).

Hypothesis compare_connex :
  ∀ a b, (0 < compare a b)%Z → notAfter compare b a.
Hypothesis notAfter_trans :
  ∀ a b c, notAfter compare a b → notAfter compare b c → notAfter compare a c.

Lemma insertSorted_perm x l : insertSorted compare x l ≡ₚ x :: l.
Proof.
  induction l as [|y l IH]; cbn; [done|].
  destruct (0 <? compare y x)%Z; [done|].
  rewrite IH. apply Permutation_swap.
Qed.

Lemma fold_insertSorted_perm l acc :
  fold_left (λ sorted x, insertSorted compare x sorted) l acc ≡ₚ acc ++ l.
Proof.
  revert acc. induction l as [|x l IH]; intros acc; cbn.
  - by rewrite app_nil_r.
  - rewrite IH, insertSorted_perm. apply Permutation_middle.
Qed.

Lemma sort_perm l : sort compare l ≡ₚ l.
Proof. apply (fold_insertSorted_perm l []). Qed.

Lemma insertSorted_sorted x l :
  StronglySorted (notAfter compare) l →
  StronglySorted (notAfter compare) (insertSorted compare x l).
Proof.
  induction 1 as [|y l Hs IH Hy]; cbn; [by repeat constructor|].
  destruct (Z.ltb_spec 0 (compare y x)) as [Hlt|Hle].
  - constructor; [by constructor|]. constructor; [by apply compare_connex|].
    eapply Forall_impl; [exact Hy|]. intros z Hz.
    eapply notAfter_trans; [|exact Hz]. by apply compare_connex.
  - constructor; [done|].
    rewrite insertSorted_perm. by constructor.
Qed.

Lemma sort_sorted l : StronglySorted (notAfter compare) (sort compare l).
Proof.
  unfold sort.
  assert (StronglySorted (notAfter compare) []) as Hnil by constructor.
  revert Hnil. generalize (@nil A) as acc.
  induction l as [|x l IH]; intros acc Hacc; cbn; [done|].
  by apply IH, insertSorted_sorted.
Qed.

End Sorting.

Section FormatList.

Variable toLowerCase : jsstring → jsstring.

Implicit Types (a b c e : FormatInfo.t) (acc : list FormatInfo.t * gset jsstring).

Lemma notAfter_compareFormats a b :
  notAfter compareFormats a b ↔
  (FormatInfo.type a = video ∧ FormatInfo.type b = audio)
  ∨ (FormatInfo.type a = FormatInfo.type b
     ∧ (resolutionValue b ≤ resolutionValue a)%Z).
Proof.
  unfold notAfter, compareFormats, resolutionValue.
  destruct (FormatInfo.type a), (FormatInfo.type b);
    repeat case_decide; try done;
    (split; [intros Hle|intros [[? ?]|[? ?]]]); try done; try lia;
    first [left; by split | right; split; [done|lia]].
Qed.

Lemma compareFormats_connex a b :
  (0 < compareFormats a b)%Z → notAfter compareFormats b a.
Proof.
  unfold notAfter, compareFormats.
  destruct (FormatInfo.type a), (FormatInfo.type b);
    repeat case_decide; try done; lia.
Qed.

Lemma compareFormats_trans a b c :
  notAfter compareFormats a b → notAfter compareFormats b c →
  notAfter compareFormats a c.
Proof.
  rewrite !notAfter_compareFormats.
  intros [[? ?]|[? ?]] [[? ?]|[? ?]]; try congruence.
  - left. split; congruence.
  - left. split; congruence.
  - right. split; [congruence|lia].
Qed.

Lemma triple_key e c : triple e = triple c → formatKeyOf e = formatKeyOf c.
Proof. unfold triple, formatKeyOf. by intros [= -> -> ->]. Qed.

Lemma sameTriple_triple e c :
  sameTriple (FormatInfo.type c) (FormatInfo.ext c) (FormatInfo.resolution c) e
  ↔ triple e = triple c.
Proof.
  unfold sameTriple, triple. split.
  - by intros (-> & -> & ->).
  - by intros [= -> -> ->].
Qed.

(** The loop body builds an entry, or skips the raw format, and then
    merges the entry. *)
Lemma processFormat_candidate acc raw :
  processFormat toLowerCase acc raw
  = match candidate toLowerCase raw with
    | Some entry => mergeEntry acc entry
    | None => acc
    end.
Proof.
  unfold processFormat, candidate. destruct acc as [processed seen].
  destruct (_ || _); [done|]. destruct (_ || _); [done|].
  destruct (_ && _); [done|]. destruct (_ && _); [done|].
  reflexivity.
Qed.

Lemma NoDup_triple_unique (l : list FormatInfo.t) e1 e2 :
  NoDup (triple <$> l) → e1 ∈ l → e2 ∈ l → triple e1 = triple e2 → e1 = e2.
Proof.
  intros Hnd [i Hi]%list_elem_of_lookup [j Hj]%list_elem_of_lookup Ht.
  assert (i = j) as ->; [|congruence].
  eapply NoDup_lookup; [exact Hnd| |].
  - by rewrite list_lookup_fmap, Hi.
  - rewrite list_lookup_fmap, Hj. cbn. congruence.
Qed.

Lemma elem_of_snoc {A} (l : list A) (x y : A) : y ∈ l ++ [x] ↔ y ∈ l ∨ y = x.
Proof. by rewrite elem_of_app, list_elem_of_singleton. Qed.

Lemma mergeEntry_inv candidates acc entry :
  loopInv candidates acc → loopInv (candidates ++ [entry]) (mergeEntry acc entry).
Proof.
  destruct acc as [processed seen]. intros (Hnd & Hkeys & Hcands & Hpref).
  cbn [fst snd] in *. unfold mergeEntry. cbn [fst snd].
  case_bool_decide as Hseen.
  - destruct (list_find _ processed) as [[i existing]|] eqn:Hfind.
    + apply list_find_Some in Hfind as (Hi & Hsame%sameTriple_triple & _).
      assert (existing ∈ processed) as Hex by by eapply list_elem_of_lookup_2.
      destruct (negb _ && _) eqn:Hreplace.
      * apply andb_true_iff in Hreplace as [Hk Hu].
        apply negb_true_iff, bool_decide_eq_false in Hk.
        apply bool_decide_eq_true in Hu.
        assert (triple <$> <[i:=entry]> processed = triple <$> processed)
          as Htriples.
        { rewrite list_fmap_insert. apply list_insert_id.
          rewrite list_lookup_fmap, Hi. cbn. by rewrite Hsame. }
        assert (∀ e, e ∈ <[i:=entry]> processed →
                     e = entry ∨ (e ∈ processed ∧ triple e ≠ triple entry))
          as Helem.
        { intros e [j Hj]%list_elem_of_lookup.
          destruct (decide (i = j)) as [->|Hne].
          - rewrite list_lookup_insert_eq in Hj
              by by eapply lookup_lt_Some.
            left. congruence.
          - rewrite list_lookup_insert_ne in Hj by done. right.
            split; [by eapply list_elem_of_lookup_2|]. intros Ht.
            apply Hne. eapply NoDup_lookup; [exact Hnd| |].
            + by rewrite list_lookup_fmap, Hi.
            + rewrite list_lookup_fmap, Hj. cbn. congruence. }
        repeat split; cbn [fst snd].
        -- by rewrite Htriples.
        -- intros e [->|[He _]]%Helem; [done|by apply Hkeys].
        -- intros c [Hc| ->]%elem_of_snoc;
             [by apply Hcands|done].
        -- intros c e [Hc| ->]%elem_of_snoc
             [->|[He Hne]]%Helem Ht Hkn; try done.
           by apply (Hpref c e).
      * repeat split; cbn [fst snd]; try done.
        -- intros c [Hc| ->]%elem_of_snoc;
             [by apply Hcands|done].
        -- intros c e [Hc| ->]%elem_of_snoc He Ht Hkn;
             [by apply (Hpref c e)|].
           assert (e = existing) as ->
             by (apply (NoDup_triple_unique processed); congruence).
           intros Hu. apply andb_false_iff in Hreplace as [Hk|Hk].
           ++ apply negb_false_iff, bool_decide_eq_true in Hk. done.
           ++ apply bool_decide_eq_false in Hk. done.
    + apply list_find_None in Hfind. rewrite Forall_forall in Hfind.
      repeat split; cbn [fst snd]; try done.
      * intros c [Hc| ->]%elem_of_snoc;
          [by apply Hcands|done].
      * intros c e [Hc| ->]%elem_of_snoc He Ht Hkn;
          [by apply (Hpref c e)|].
        destruct (Hfind e He). by apply sameTriple_triple.
  - assert (∀ e, e ∈ processed → triple e ≠ triple entry) as Hfresh.
    { intros e He Ht. apply Hseen. rewrite <- (triple_key e entry Ht).
      by apply Hkeys. }
    repeat split; cbn [fst snd].
    + rewrite fmap_app. apply NoDup_app. split; [done|].
      split; [|apply NoDup_singleton].
      intros t (e & -> & He)%list_elem_of_fmap Hin.
      apply list_elem_of_singleton in Hin. by apply (Hfresh e).
    + intros e [He| ->]%elem_of_snoc;
        [apply elem_of_union_r; by apply Hkeys|].
      apply elem_of_union_l. by apply elem_of_singleton.
    + intros c [Hc| ->]%elem_of_snoc;
        [apply elem_of_union_r; by apply Hcands|].
      apply elem_of_union_l. by apply elem_of_singleton.
    + intros c e [Hc| ->]%elem_of_snoc
        [He| ->]%elem_of_snoc Ht Hkn; try done.
      * by apply (Hpref c e).
      * destruct Hseen. rewrite (triple_key entry c Ht). by apply Hcands.
      * by destruct (Hfresh e He).
Qed.

Lemma loop_inv raws acc candidates :
  loopInv candidates acc →
  loopInv (candidates ++ omap (candidate toLowerCase) raws)
    (fold_left (processFormat toLowerCase) raws acc).
Proof.
  revert acc candidates.
  induction raws as [|raw raws IH]; intros acc candidates Hinv; cbn.
  - by rewrite app_nil_r.
  - rewrite processFormat_candidate.
    destruct (candidate toLowerCase raw) as [entry|]; [|by apply IH].
    rewrite (cons_middle entry), app_assoc.
    by apply IH, mergeEntry_inv.
Qed.

Lemma loopInv_initial : loopInv [] ([], ∅).
Proof.
  split; [apply NoDup_nil_2|].
  split; [intros e Hin; by apply elem_of_nil in Hin|].
  split; [intros c Hin; by apply elem_of_nil in Hin|].
  intros c e Hin. by apply elem_of_nil in Hin.
Qed.

End FormatList.

(** The format list and the comparator.  In the format list of an
    analysis no two entries have the same kind, container and
    resolution; every video entry stands before
    every audio entry; entries of the same kind are in descending order
    of the number extracted from their resolution; and an entry has a
    known size as soon as one raw format that was accepted with the
    same kind, container and resolution has one. *)
Theorem normalizeResponse_formats (toLowerCase : jsstring → jsstring)
    (info : RawInfo) :
  let out := formats (normalizeResponse toLowerCase info) in
  NoDup (triple <$> out)
  ∧ (∀ i j a b, out !! i = Some a → out !! j = Some b →
       FormatInfo.type a = video → FormatInfo.type b = audio → i < j)
  ∧ (∀ i j a b, i < j → out !! i = Some a → out !! j = Some b →
       FormatInfo.type a = FormatInfo.type b →
       (resolutionValue b ≤ resolutionValue a)%Z)
  ∧ (∀ raw c e, raw ∈ default [] (raw_formats info) →
       candidate toLowerCase raw = Some c → e ∈ out →
       triple e = triple c → knownSize c → knownSize e).
Proof.
  cbn zeta. cbn [formats normalizeResponse].
  set (raws := default [] (raw_formats info)).
  pose proof (loop_inv toLowerCase raws ([], ∅) [] loopInv_initial)
    as (Hnd & _ & _ & Hpref).
  set (processed := (fold_left (processFormat toLowerCase) raws ([], ∅)).1)
    in *.
  pose proof (sort_perm compareFormats processed) as Hperm.
  pose proof (sort_sorted compareFormats compareFormats_connex
                compareFormats_trans processed) as Hsorted.
  split; [by rewrite Hperm|]. split; [|split].
  - intros i j a b Hi Hj Ha Hb.
    destruct (decide (i < j)) as [|Hge]; [done|exfalso].
    assert (j < i) as Hlt.
    { destruct (decide (i = j)) as [->|]; [congruence|lia]. }
    pose proof (StronglySorted_lookup _ _ j i b a Hsorted Hlt Hj Hi) as Hba.
    apply notAfter_compareFormats in Hba as [[? ?]|[? ?]]; congruence.
  - intros i j a b Hij Hi Hj Hab.
    pose proof (StronglySorted_lookup _ _ i j a b Hsorted Hij Hi Hj) as Hle.
    apply notAfter_compareFormats in Hle as [[? ?]|[? ?]]; [congruence|done].
  - intros raw c e Hraw Hc He. rewrite Hperm in He.
    apply (Hpref c e); [|done]. cbn. apply list_elem_of_omap. by exists raw.
Qed.

(** C9.  Within the video entries the list is not in descending order
    of resolution.  [extractResolutionValue] is documented to take the
    number of a label such as 1080p and the height of a label such as
    1920x1080, but it takes the first number of the label, which is
    the width of the second kind.  Of a format of 1280 by 720 pixels
    and a format of 1080 lines, the first is labelled 1280x720, the
    second 1080p, and the one with 720 lines is listed before the one
    with 1080 lines. *)
Theorem resolution_order_follows_width :
  (λ f, (FormatInfo.format_id f, FormatInfo.type f, FormatInfo.resolution f,
         extractResolutionValue (FormatInfo.resolution f)))
    <$> formats (normalizeResponse demoLower mixedLabels)
  = [ (Str.lit "22", video, Str.lit "1280x720", 1280%Z);
      (Str.lit "137", video, Str.lit "1080p", 1080%Z) ].
Proof. by vm_compute. Qed.

(** The container of an extension that names a member of
    [Object.prototype] is that member, not a string; its text in the
    key of the duplicate test is the text of the function. *)
Example normalizeContainerType_samples :
  normalizeContainerType demoLower (Str.lit " M4A ") = Text (Str.lit "mp4")
  ∧ normalizeContainerType demoLower (Str.lit "mkv") = Text (Str.lit "mkv")
  ∧ normalizeContainerType demoLower (Str.lit "constructor")
    = PrototypeMember (Str.lit "constructor")
  ∧ propertyText (normalizeContainerType demoLower (Str.lit "constructor"))
    = Str.lit "function Object() { [native code] }"
  ∧ propertyText (normalizeContainerType demoLower (Str.lit "__proto__"))
    = Str.lit "[object Object]".
Proof. repeat split; by vm_compute. Qed.

(** A negative duration keeps its sign in every part. *)
Example formatDuration_samples :
  formatDuration (-1 # 1) = Str.lit "-1:-1"
  ∧ formatDuration (65 # 1) = Str.lit "1:05"
  ∧ formatDuration (7384 # 1) = Str.lit "2:03:04".
Proof. repeat split; by vm_compute. Qed.

(** The normalisation of a sample with the ASCII lower-casing: the two
    720p formats are collapsed into the one with a known size. *)
Example normalizeResponse_sample :
  (λ f, (FormatInfo.format_id f, FormatInfo.type f, FormatInfo.ext f,
         FormatInfo.resolution f, FormatInfo.filesize f))
    <$> formats (normalizeResponse demoLower sampleInfo)
  = [ (Str.lit "137", video, Text (Str.lit "mp4"), Str.lit "1080p",
       Str.lit "unknown");
      (Str.lit "22b", video, Text (Str.lit "mp4"), Str.lit "720p",
       Str.lit "42.13 MB");
      (Str.lit "140", audio, Text (Str.lit "mp4"), Str.lit "audio",
       Str.lit "1.5 KB") ]
  ∧ duration (normalizeResponse demoLower sampleInfo) = Str.lit "1:05".
Proof. split; by vm_compute. Qed.

(** * Further properties of the services *)

(** ** The queue state *)

Section QueueState.

Implicit Types (w : World) (j : QueueJob.t) (js : list QueueJob.t).

Lemma countStatus_cons P j js :
  countStatus P (j :: js)
  = (if P (QueueJob.status j) then 1 else 0) + countStatus P js.
Proof.
  unfold countStatus. rewrite filter_cons.
  destruct (P (QueueJob.status j)); cbn; by case_decide.
Qed.

Lemma keepsRunning_refl x w : keepsRunning x w w.
Proof. split; [done|]. split; [done|]. intros a j _ Hg Ha. by exists j. Qed.

Lemma keepsRunning_trans x w1 w2 w3 :
  keepsRunning x w1 w2 → keepsRunning x w2 w3 → keepsRunning x w1 w3.
Proof.
  intros (A1 & I1 & K1) (A2 & I2 & K2).
  split; [congruence|]. split; [congruence|].
  intros a j Hx Hg Ha. destruct (K1 a j Hx Hg Ha) as (j2 & Hg2 & Ha2).
  by apply (K2 a j2).
Qed.

Lemma keepsRunning_weaken x w w' : keepsRunning None w w' → keepsRunning x w w'.
Proof.
  intros (A & I & K). split; [done|]. split; [done|].
  intros a j _. by apply K.
Qed.

(** Steps that leave the jobs and [activeJob] alone. *)
Lemma keepsRunning_frame x w w' :
  jobs w' = jobs w → activeJob w' = activeJob w → keepsRunning x w w'.
Proof.
  intros Hj Ha. split; [done|]. rewrite Hj. split; [done|].
  intros a j _ Hg Hact. by exists j.
Qed.

Lemma keepsRunning_emit x e w : keepsRunning x w (emit e w).
Proof. by apply keepsRunning_frame. Qed.

Lemma keepsRunning_emitQueueUpdated x w : keepsRunning x w (emitQueueUpdated w).
Proof. by apply keepsRunning_frame. Qed.

Lemma keepsRunning_processQueue x w : keepsRunning x w (processQueue w).
Proof.
  destruct (processQueueFrom_frame (queue w) w) as (Hj & Ha & _).
  by apply keepsRunning_frame.
Qed.

Lemma keepsRunning_fold {A} x (g : World → A → World) (l : list A) w :
  (∀ w y, keepsRunning x w (g w y)) → keepsRunning x w (fold_left g l w).
Proof.
  intros Hg. revert w. induction l as [|y l IH]; intros w; cbn.
  - apply keepsRunning_refl.
  - eapply keepsRunning_trans; [apply Hg | apply IH].
Qed.

(** An update of the job [x] keeps all the others. *)
Lemma keepsRunning_updateJob x f w :
  (∀ j, QueueJob.id (f j) = QueueJob.id j) →
  keepsRunning (Some x) w (set_jobs (updateJob x f (jobs w)) w).
Proof.
  intros Hf. split; [done|]. split; [by apply updateJob_ids|].
  intros a j Hx Hg Ha. exists j. split; [|done]. cbn.
  rewrite getJob_updateJob by done. rewrite decide_False; [done|congruence].
Qed.

(** An update that does not change the status keeps every job. *)
Lemma keepsRunning_touch x y f w :
  (∀ j, QueueJob.id (f j) = QueueJob.id j) →
  (∀ j, QueueJob.status (f j) = QueueJob.status j) →
  keepsRunning x w (set_jobs (updateJob y f (jobs w)) w).
Proof.
  intros Hf Hs. split; [done|]. split; [by apply updateJob_ids|].
  intros a j _ Hg Ha. cbn. rewrite getJob_updateJob by done.
  case_decide as Hay; [|by exists j]. subst y. rewrite Hg. cbn.
  exists (f j). split; [done|]. by rewrite Hs.
Qed.

Lemma keepsRunning_notify x d w : keepsRunning x w (notifyDependentJobs d w).
Proof.
  apply keepsRunning_frame; [apply notifyDependentJobs_jobs|].
  apply sameControl_notify.
Qed.

(** The loop of [failDependentJobs] passes over the jobs that are not
    queued. *)
Lemma failDependentJobs_loop_skip d e now (l : list QueueJob.t) w a :
  (∀ y, y ∈ l → QueueJob.id y = a → dependsOnQueued d y = false) →
  getJob a
    (jobs
       (fold_left
          (λ w job,
             if dependsOnQueued d job then
               let w := set_queue (removeFirst (QueueJob.id job) (queue w)) w in
               let w := set_jobs
                          (updateJob (QueueJob.id job)
                             (markFailed (Some e) now) (jobs w)) w in
               emit (jobFailed (QueueJob.id job)) w
             else w) l w))
  = getJob a (jobs w).
Proof.
  revert w. induction l as [|y l IH]; intros w Hl; [done|].
  cbn [fold_left]. rewrite IH by (intros z Hz; apply Hl; by right).
  destruct (dependsOnQueued d y) eqn:Hd; [|done]. cbn.
  rewrite getJob_updateJob by done. rewrite decide_False; [done|].
  intros Heq. rewrite Hl in Hd; [done|by left|done].
Qed.

Lemma keepsRunning_failDependentJobs x d e now w :
  uniqueIds w → keepsRunning x w (failDependentJobs d e now w).
Proof.
  intros Hu. split; [apply sameControl_failDependent|].
  split.
  { apply settled_ids. apply quiet_failDependentJobs. }
  intros a j _ Hg Ha. exists j. split; [|done].
  unfold failDependentJobs. rewrite failDependentJobs_loop_skip; [done|].
  intros y Hy Hid. rewrite (getJob_unique a _ y Hu Hy Hid) in Hg.
  assert (y = j) as -> by congruence.
  unfold dependsOnQueued. apply bool_decide_eq_false. intros (_ & _ & Hq).
  rewrite Hq in Ha. by apply bool_decide_unpack in Ha as [?|?].
Qed.

Lemma uniqueIds_keepsRunning x w w' :
  keepsRunning x w w' → uniqueIds w → uniqueIds w'.
Proof. intros (_ & I & _). unfold uniqueIds. by rewrite I. Qed.

Lemma runningInv_keeps w w' :
  keepsRunning None w w' → runningInv w → runningInv w'.
Proof.
  intros (A & _ & K) Hr a Ha. rewrite A in Ha.
  destruct (Hr a Ha) as (j & Hg & Hact). by apply (K a j).
Qed.

(** The job [x] is settled, other steps follow, and [finishJob] is
    called for it. *)
Lemma runningInv_finishJob x w w2 :
  keepsRunning (Some x) w w2 → runningInv w → runningInv (finishJob x w2).
Proof.
  intros (A & _ & K) Hr a Ha. rewrite finishJob_jobs.
  destruct (finishJob_control x w2) as [Hc _]. cbn zeta in Hc.
  rewrite Hc in Ha. case_decide as Hx; [done|].
  rewrite A in Ha, Hx.
  destruct (Hr a Ha) as (j & Hg & Hact). apply (K a j); [congruence|done..].
Qed.

Lemma runningInv_onProgress now p w :
  uniqueIds w → runningInv w → runningInv (onProgress now p w).
Proof.
  intros Hu Hr. unfold onProgress.
  destruct (findByDownloadId _ _) as [job|]; [|done].
  set (w1 := set_jobs (updateJob (QueueJob.id job) _ (jobs w)) w).
  assert (keepsRunning None w w1) as K1 by by apply keepsRunning_touch.
  assert (uniqueIds w1) as Hu1 by by eapply uniqueIds_keepsRunning.
  assert (runningInv w1) as Hr1 by by eapply runningInv_keeps.
  assert (∀ w2, runningInv w2 →
            runningInv (emitQueueUpdated
                          (emit (jobProgress (QueueJob.id job)) w2))) as Hend.
  { intros w2 H2.
    eapply runningInv_keeps; [apply (keepsRunning_emitQueueUpdated None)|].
    eapply runningInv_keeps; [apply (keepsRunning_emit None)|exact H2]. }
  apply Hend.
  destruct (DownloadProgress.status p); try done.
  - destruct (isActive (QueueJob.status job)); [|done].
    apply (runningInv_finishJob _ w1); [|done].
    eapply keepsRunning_trans; [|apply keepsRunning_emit].
    case_decide; [|by apply keepsRunning_updateJob].
    eapply keepsRunning_trans; [|apply keepsRunning_notify].
    by apply keepsRunning_updateJob.
  - apply (runningInv_finishJob _ w1); [|done].
    set (w2 := set_jobs (updateJob (QueueJob.id job) _ (jobs w1)) w1).
    assert (keepsRunning (Some (QueueJob.id job)) w1 w2) as K2
      by by apply keepsRunning_updateJob.
    eapply keepsRunning_trans; [|apply keepsRunning_emit].
    case_decide; [|exact K2].
    eapply keepsRunning_trans; [exact K2|].
    apply keepsRunning_failDependentJobs.
    by eapply uniqueIds_keepsRunning.
Qed.

Lemma runningInv_setProgress now d session p w :
  uniqueIds w → runningInv w → runningInv (setProgress now d session p w).
Proof.
  intros Hu Hr. unfold setProgress, emitProgress.
  by apply runningInv_onProgress.
Qed.

Lemma runningInv_step w o :
  schedulerInv w → runningInv w → runningInv (step w o).
Proof.
  intros [Hu Hs] Hr. destruct o; cbn [step].
  - unfold addDownloadJob.
    destruct (getJob _ (jobs w)) eqn:Hnew; [done|]. cbn [snd].
    match goal with |- runningInv (if ?c then processQueue ?w1 else _) =>
      assert (runningInv w1) as H1
    end.
    { intros a Ha. destruct (Hr a Ha) as (j & Hg & Hact).
      exists j. split; [|done]. cbn. by apply getJob_app. }
    destruct (_ && _); [|done].
    eapply runningInv_keeps; [apply (keepsRunning_processQueue None)|exact H1].
  - unfold addConvertJob.
    destruct (getJob _ (jobs w)) eqn:Hnew; [done|].
    match goal with |- context [match ?e with Some m => _ | None => _ end] =>
      destruct e end; [done|]. cbn [snd].
    match goal with |- runningInv (if ?c then processQueue ?w1 else _) =>
      assert (runningInv w1) as H1
    end.
    { intros a Ha. destruct (Hr a Ha) as (j & Hg & Hact).
      exists j. split; [|done]. cbn. by apply getJob_app. }
    destruct (_ && _); [|done].
    eapply runningInv_keeps; [apply (keepsRunning_processQueue None)|exact H1].
  - unfold startJob. destruct (getJob jobId (jobs w)) as [job|] eqn:Hg; [|done].
    destruct (negb _); [done|]. destruct (negb _); [done|].
    destruct (negb _); [done|]. cbn [snd].
    intros a [= <-]. cbn. rewrite getJob_updateJob by done.
    rewrite decide_True by done. rewrite Hg. cbn. eexists. split; [done|].
    cbn. by destruct (QueueJob.type job).
  - unfold completeJob.
    destruct (getJob jobId (jobs w)) as [job|]; [|done].
    apply (runningInv_finishJob _ w); [|done].
    eapply keepsRunning_trans; [|apply keepsRunning_emit].
    case_decide; [|by apply keepsRunning_updateJob].
    eapply keepsRunning_trans; [|apply keepsRunning_notify].
    by apply keepsRunning_updateJob.
  - unfold failJob.
    destruct (getJob jobId (jobs w)) as [job|]; [|done].
    apply (runningInv_finishJob _ w); [|done].
    set (w1 := set_jobs (updateJob jobId _ (jobs w)) w).
    assert (keepsRunning (Some jobId) w w1) as K1
      by by apply keepsRunning_updateJob.
    eapply keepsRunning_trans; [|apply keepsRunning_emit].
    case_decide; [|exact K1].
    eapply keepsRunning_trans; [exact K1|].
    apply keepsRunning_failDependentJobs. by eapply uniqueIds_keepsRunning.
  - unfold cancelJob.
    destruct (getJob jobId (jobs w)) as [job|]; [|done]. cbn [snd].
    eapply runningInv_keeps; [apply (keepsRunning_processQueue None)|].
    eapply runningInv_keeps; [apply (keepsRunning_emitQueueUpdated None)|].
    eapply runningInv_keeps; [apply (keepsRunning_emit None)|].
    case_decide as Hact.
    + intros a Ha. done.
    + intros a Ha. cbn in Ha, Hact. destruct (Hr a Ha) as (j & Hg & Hj).
      exists j. split; [|done]. cbn. rewrite getJob_updateJob by done.
      rewrite decide_False; [done|congruence].
  - by apply runningInv_onProgress.
  - unfold createSession. destruct (sessions w !! _); [done|]. cbn [snd].
    eapply runningInv_keeps; [|exact Hr]. by apply keepsRunning_frame.
  - unfold updateProgress.
    destruct (sessions w !! _); [by apply runningInv_setProgress|done].
  - unfold markCompleted.
    destruct (sessions w !! _); [by apply runningInv_setProgress|done].
  - unfold markError.
    destruct (sessions w !! _); [by apply runningInv_setProgress|done].
  - unfold cancelDownload.
    destruct (sessions w !! _); [by apply runningInv_setProgress|done].
  - eapply runningInv_keeps; [|exact Hr]. by apply keepsRunning_frame.
  - unfold setConvertJobInputFile.
    destruct (getJob _ (jobs w)); [|done]. case_decide; [|done]. cbn [snd].
    eapply runningInv_keeps; [apply (keepsRunning_emitQueueUpdated None)|].
    eapply runningInv_keeps; [|exact Hr]. by apply keepsRunning_touch.
  - intros a Ha. destruct (Hr a Ha) as (j & Hg & Hj). exists j.
    split; [|done]. cbn.
    destruct (getJob_Some _ _ _ Hg) as [Hin Hid].
    apply getJob_unique; [| |done].
    + eapply sublist_NoDup; [exact Hu|]. apply fmap_sublist, sublist_filter.
    + apply list_elem_of_filter. split; [|done].
      unfold isOldJob, isTerminal. intros Hold.
      apply andb_prop_elim in Hold as [Ht _].
      apply bool_decide_unpack in Ht. apply bool_decide_unpack in Hj.
      destruct Ht as [?|?], Hj as [?|?]; congruence.
  - eapply runningInv_keeps; [|exact Hr]. by apply keepsRunning_touch.
Qed.

Lemma runningInv_run ops w :
  schedulerInv w → runningInv w → runningInv (run ops w).
Proof.
  revert w. induction ops as [|o ops IH]; intros w Hi Hr; [done|].
  apply IH; [by apply inv_step | by apply runningInv_step].
Qed.

End QueueState.

(** X1.  In every reachable state the job named by [activeJob] (the
    [processing] field of the queue state) is a known job in status
    [downloading] or [converting], and [processingCount] is 1 when
    [processing] is set and 0 when it is null. *)
Theorem processing_names_running_job (w : World) :
  reachable w →
  (∀ a, activeJob w = Some a →
        ∃ j, getJob a (jobs w) = Some j
             ∧ (QueueJob.status j = downloading
                ∨ QueueJob.status j = converting))
  ∧ processingCount (getQueueState w)
    = match qs_processing (getQueueState w) with
      | Some _ => 1
      | None => 0
      end.
Proof.
  intros [ops ->].
  assert (schedulerInv (run ops initial)) as Hi
    by (apply inv_run, inv_initial).
  assert (runningInv (run ops initial)) as Hr.
  { apply runningInv_run; [apply inv_initial|]. intros a Ha. done. }
  set (w := run ops initial) in *. split.
  - intros a Ha. destruct (Hr a Ha) as (j & Hg & Hact).
    exists j. split; [done|]. by apply bool_decide_unpack in Hact.
  - pose proof (inv_count w Hi) as Hle. cbn in *.
    destruct (activeJob w) as [a|] eqn:Ha.
    + destruct (Hr a Ha) as (j & Hg & Hact).
      apply getJob_Some in Hg as [Hin _].
      assert (j ∈ filter (λ j, Is_true (isActive (QueueJob.status j))) (jobs w))
        as Hf by (by apply list_elem_of_filter).
      unfold countStatus in *.
      destruct (filter _ (jobs w)); [by apply elem_of_nil in Hf|].
      cbn in *. lia.
    + destruct Hi as [_ Hs]. unfold countStatus.
      destruct (filter _ (jobs w)) as [|j l] eqn:Hf; [done|].
      assert (j ∈ filter (λ j, Is_true (isActive (QueueJob.status j))) (jobs w))
        as [Hact Hin]%list_elem_of_filter by (rewrite Hf; left).
      specialize (Hs j Hin Hact). congruence.
Qed.

Lemma processing_names_running_job_witness :
  reachable oneActive
  ∧ ((∀ a, activeJob oneActive = Some a →
           ∃ j, getJob a (jobs oneActive) = Some j
                ∧ (QueueJob.status j = downloading
                   ∨ QueueJob.status j = converting))
     ∧ processingCount (getQueueState oneActive)
       = match qs_processing (getQueueState oneActive) with
         | Some _ => 1
         | None => 0
         end).
Proof.
  split.
  - eexists. reflexivity.
  - apply (processing_names_running_job oneActive). eexists. reflexivity.
Defined.

(** X2.  The four counters of the queue state partition the jobs:
    they add up to the number of jobs listed, in every state. *)
Theorem getQueueState_counts (w : World) :
  queuedCount (getQueueState w) + processingCount (getQueueState w)
  + completedCount (getQueueState w) + failedCount (getQueueState w)
  = length (qs_jobs (getQueueState w)).
Proof.
  cbn. rewrite length_fmap.
  induction (jobs w) as [|j js IH]; [done|].
  rewrite !countStatus_cons. cbn [length]. rewrite <- IH.
  unfold isActive.
  destruct (QueueJob.status j); repeat case_bool_decide;
    first [lia | exfalso; intuition congruence].
Qed.

(** ** Dependencies *)

Lemma dependency_guard_witness :
  ∃ j j',
    getJob "J2" (jobs dependencyDone) = Some j
    ∧ getJob "J2" (jobs (step dependencyDone (OpStartJob 4 "J2" "J2")))
      = Some j'
    ∧ QueueJob.status j' = converting
    ∧ dependencySatisfied dependencyDone j.
Proof.
  eexists _, _. split; [reflexivity|]. split; [reflexivity|].
  split; [reflexivity|].
  eapply (dependency_guard dependencyDone (OpStartJob 4 "J2" "J2") "J2").
  - apply inv_reachable. eexists. reflexivity.
  - reflexivity.
  - reflexivity.
  - reflexivity.
  - right. reflexivity.
Defined.

Lemma failJob_cascade_witness :
  statusOf "J2" (failJob 2 "J1" "boom" dependentPair) = Some failed
  ∧ errorOf "J2" (failJob 2 "J1" "boom" dependentPair)
    = Some (Some "Dependency failed: boom")
  ∧ "J2" ∉ queue (failJob 2 "J1" "boom" dependentPair).
Proof.
  eapply (failJob_cascade 2 "J1" "boom" dependentPair).
  - apply inv_reachable. eexists. reflexivity.
  - apply NoDup_cons. split; [by intros ?%list_elem_of_singleton|].
    apply NoDup_singleton.
  - reflexivity.
  - reflexivity.
  - reflexivity.
  - reflexivity.
  - reflexivity.
  - reflexivity.
Defined.

Lemma cancelJob_no_cascade_witness :
  statusOf "J2" (cancelJob 2 "J1" dependentPair).2
  = statusOf "J2" dependentPair
  ∧ errorOf "J2" (cancelJob 2 "J1" dependentPair).2
    = errorOf "J2" dependentPair.
Proof. apply (cancelJob_no_cascade 2 "J1" dependentPair "J2"). discriminate. Defined.

(** ** The drain routine and admission *)

Section Admission.

Implicit Types (w : World) (j : QueueJob.t) (q : list string).

Lemma processQueueFrom_drop q w :
  queue w = q →
  ∃ dropped,
    q = dropped ++ queue (processQueueFrom q w)
    ∧ Forall (λ x, getJob x (jobs w) = None) dropped
    ∧ (is_Some (activeJob w) → dropped = [])
    ∧ (activeJob w = None →
       ∀ x, head (queue (processQueueFrom q w)) = Some x →
            is_Some (getJob x (jobs w))).
Proof.
  revert w. induction q as [|x q IH]; intros w Hq; cbn.
  - exists []. destruct (activeJob w); cbn; rewrite Hq;
      (split; [done|]); (split; [done|]); (split; [done|]); by intros _ y.
  - destruct (activeJob w) as [a|] eqn:Ha; cbn.
    { exists []. rewrite Hq. split; [done|]. split; [done|].
      split; [done|]. by intros [=]. }
    destruct (getJob x (jobs w)) as [nextJob|] eqn:Hx; cbn.
    + exists []. assert (queue (if canJobStart nextJob
                                  (set_drains (drains w ++ [None]) w)
                               then emitQueueUpdated
                                      (set_drains (drains w ++ [None]) w)
                               else emitQueueUpdated
                                      (set_drains (drains w ++ [None]) w))
                         = x :: q) as -> by (by destruct (canJobStart _ _)).
      split; [done|]. split; [done|]. split; [done|].
      intros _ y [= <-]. by rewrite Hx.
    + destruct (IH (set_queue q (set_drains (drains w ++ [None]) w)) eq_refl)
        as (dropped & Hd & Hall & _ & Hhead).
      exists (x :: dropped). split; [cbn; by f_equal|].
      split; [by constructor|]. split; [by intros [? [=]]|].
      intros _. by apply Hhead.
Qed.

Lemma processQueue_known_head w x :
  head (queue w) = Some x → is_Some (getJob x (jobs w)) →
  queue (processQueue w) = queue w.
Proof.
  intros Hh [j Hj]. unfold processQueue.
  destruct (processQueueFrom_drop (queue w) w eq_refl)
    as (dropped & Hd & Hall & _).
  destruct dropped as [|y dropped]; [by cbn in Hd|].
  rewrite Hd in Hh at 1. cbn in Hh. injection Hh as ->.
  apply Forall_cons in Hall as [Hy _]. congruence.
Qed.

Lemma headIs_snoc x q :
  headIs x (q ++ [x]) = true ↔ q = [] ∨ head q = Some x.
Proof.
  unfold headIs. rewrite bool_decide_eq_true.
  destruct q as [|y q]; cbn; [by split; [left|]|].
  split; [by right | by intros [?|?]].
Qed.

Lemma getJob_snoc x (js : list QueueJob.t) j :
  getJob x js = None → QueueJob.id j = x → getJob x (js ++ [j]) = Some j.
Proof.
  intros Hnew Hid. induction js as [|j0 js IH]; cbn in *.
  - by rewrite decide_True.
  - case_decide; [done|]. by apply IH.
Qed.

Lemma canJobStart_jobs j w w' :
  jobs w' = jobs w → canJobStart j w' = canJobStart j w.
Proof. intros Hj. unfold canJobStart. by rewrite Hj. Qed.

Lemma startJob_result now x d w j :
  getJob x (jobs w) = Some j →
  (startJob now x d w).1
  = bool_decide (activeJob w = None) && headIs x (queue w) && canJobStart j w.
Proof.
  intros Hg. unfold startJob. rewrite Hg.
  destruct (bool_decide (activeJob w = None)); [|done].
  destruct (headIs x (queue w)); [|done].
  by destruct (canJobStart j w).
Qed.

(** What the two admission methods do once the job is stored: the
    flag is computed, and the queue is drained when it is true. *)
Lemma admitted_then_start now x d w j :
  getJob x (jobs w) = Some j →
  let c := bool_decide (activeJob w = None) && headIs x (queue w)
           && canJobStart j w in
  (startJob now x d (if c then processQueue w else w)).1 = c.
Proof.
  intros Hg. cbn zeta.
  destruct (bool_decide (activeJob w = None) && headIs x (queue w)
            && canJobStart j w) eqn:Hc.
  - apply andb_true_iff in Hc as [[Ha Hh]%andb_true_iff Hcan].
    destruct (processQueueFrom_frame (queue w) w) as (Hj & Hact & _).
    fold (processQueue w) in Hj, Hact.
    rewrite (startJob_result now x d (processQueue w) j)
      by (by rewrite Hj).
    rewrite Hact, (canJobStart_jobs j w) by done.
    rewrite (processQueue_known_head w x);
      [by rewrite Ha, Hh, Hcan | by apply bool_decide_eq_true in Hh
      | by rewrite Hg].
  - by rewrite (startJob_result now x d w j), Hc.
Qed.

End Admission.

(** X6.  The drain routine [processQueue] changes neither the jobs nor
    [activeJob]; it removes from the front of the queue exactly the
    leading ids that name no job, and only while no job is active, so
    that afterwards the head of the queue, if no job is active, names
    a known job. *)
Theorem processQueue_drops_stale_heads (w : World) :
  ∃ dropped,
    queue w = dropped ++ queue (processQueue w)
    ∧ Forall (λ x, getJob x (jobs w) = None) dropped
    ∧ (is_Some (activeJob w) → dropped = [])
    ∧ (activeJob w = None →
       ∀ x, head (queue (processQueue w)) = Some x →
            is_Some (getJob x (jobs w)))
    ∧ jobs (processQueue w) = jobs w
    ∧ activeJob (processQueue w) = activeJob w.
Proof.
  destruct (processQueueFrom_drop (queue w) w eq_refl)
    as (dropped & Hd & Hall & Hact & Hhead).
  destruct (processQueueFrom_frame (queue w) w) as (Hj & Ha & _).
  exists dropped. unfold processQueue. by repeat split.
Qed.

(** X7.  For an id that is not yet known, the [canStart] flag returned
    by [addDownloadJob] and [addConvertJob] is exact: it is true
    precisely when a [startJob] for the new job, called right after,
    succeeds.  For a download job that is when no job is active and
    the queue was empty or already began with that id.  When
    [addConvertJob] throws, nothing has changed. *)
Theorem canStart_is_exact (now now' : Z) (url formatId : string)
    (targetFormat : ConversionFormat) (dependsOn inputFile : option string)
    (jobId : option string) (gen downloadId : string) (w : World) :
  getJob (JS.or_else jobId gen) (jobs w) = None →
  let id := JS.or_else jobId gen in
  let added := addDownloadJob now url formatId jobId gen w in
  (added.1.1 = id
   ∧ (startJob now' id downloadId added.2).1 = added.1.2
   ∧ (added.1.2 = true ↔
      activeJob w = None ∧ (queue w = [] ∨ head (queue w) = Some id)))
  ∧ match addConvertJob now url targetFormat dependsOn inputFile jobId gen w
    with
    | (Returned (id', canStart), w') =>
        id' = id ∧ (startJob now' id downloadId w').1 = canStart
    | (Thrown _, w') => w' = w
    end.
Proof.
  intros Hnew. cbn zeta. set (id := JS.or_else jobId gen) in *. split.
  - unfold addDownloadJob. fold id. rewrite Hnew. cbn [fst snd].
    set (job := QueueJob.mk id download url _ _ _ _ _ _ _ _ _ _ _).
    set (w1 := emitQueueUpdated _).
    assert (getJob id (jobs w1) = Some job) as Hjob
      by (by apply getJob_snoc).
    pose proof (admitted_then_start now' id downloadId w1 job Hjob) as Hs.
    cbn zeta in Hs. replace (canJobStart job w1) with true in Hs by done.
    rewrite !andb_true_r in Hs.
    split; [done|]. split; [exact Hs|].
    rewrite andb_true_iff, bool_decide_eq_true. cbn. by rewrite headIs_snoc.
  - unfold addConvertJob. fold id. rewrite Hnew.
    match goal with |- context [match ?e with Some m => _ | None => _ end] =>
      destruct e end; [done|]. cbn [fst snd].
    set (job := QueueJob.mk id convert url _ _ _ _ _ _ _ _ _ _ _).
    set (w1 := emitQueueUpdated _).
    assert (getJob id (jobs w1) = Some job) as Hjob
      by (by apply getJob_snoc).
    split; [done|].
    exact (admitted_then_start now' id downloadId w1 job Hjob).
Qed.

Lemma canStart_is_exact_witness :
  getJob (JS.or_else (Some "J1") "gen1") (jobs initial) = None
  ∧ (startJob 1 "J1" "J1"
       (addDownloadJob 0 "https://example.test/v" "22" (Some "J1") "gen1"
          initial).2).1
    = true.
Proof.
  split; [reflexivity|].
  exact (proj1 (proj2 (proj1
           (canStart_is_exact 0 1 "https://example.test/v" "22" mp3 None None
              (Some "J1") "gen1" "J1" initial eq_refl)))).
Defined.

(** ** Queued jobs stay in the queue *)

Section QueuedJobs.

Implicit Types (w : World) (j : QueueJob.t) (js : list QueueJob.t).

Lemma getJob_settled_back x js js' j' :
  Forall2 settle js js' → getJob x js' = Some j' →
  ∃ j, getJob x js = Some j ∧ settle j j'.
Proof.
  induction 1 as [|j0 j0' js js' Hs _ IH]; cbn; [done|].
  destruct (settle_facts _ _ Hs) as (-> & _).
  case_decide; [|done]. intros [= <-]. by exists j0.
Qed.

Lemma queuedAt_settled_back x w w' :
  Forall2 settle (jobs w) (jobs w') → queuedAt x w' → queuedAt x w.
Proof.
  intros Hs (j' & Hg' & Hq).
  destruct (getJob_settled_back _ _ _ _ Hs Hg') as (j & Hg & Hjj').
  exists j. split; [done|]. by apply (settle_facts _ _ Hjj').
Qed.

Lemma queueSafe_refl w : queueSafe w w.
Proof. split; [reflexivity | done]. Qed.

Lemma queueSafe_trans w1 w2 w3 :
  queueSafe w1 w2 → queueSafe w2 w3 → queueSafe w1 w3.
Proof.
  intros [S1 Q1] [S2 Q2]. split; [by etrans|].
  intros x Hx Hq. apply Q2; [|done]. apply Q1; [done|].
  by apply (queuedAt_settled_back x w2 w3).
Qed.

Lemma queueSafe_frame w w' :
  jobs w' = jobs w → queue w' = queue w → queueSafe w w'.
Proof.
  intros Hj Hq. split; [rewrite Hj; reflexivity|]. by rewrite Hq.
Qed.

Lemma queueSafe_emit e w : queueSafe w (emit e w).
Proof. by apply queueSafe_frame. Qed.

Lemma queueSafe_emitQueueUpdated w : queueSafe w (emitQueueUpdated w).
Proof. by apply queueSafe_frame. Qed.

Lemma queueSafe_setActive a w : queueSafe w (set_activeJob a w).
Proof. by apply queueSafe_frame. Qed.

Lemma queueSafe_fold {A} (g : World → A → World) (l : list A) w :
  (∀ w y, queueSafe w (g w y)) → queueSafe w (fold_left g l w).
Proof.
  intros Hg. revert w. induction l as [|y l IH]; intros w; cbn.
  - apply queueSafe_refl.
  - eapply queueSafe_trans; [apply Hg | apply IH].
Qed.

Lemma queueSafe_updateJob x f w :
  (∀ j, settle j (f j)) →
  queueSafe w (set_jobs (updateJob x f (jobs w)) w).
Proof. intros Hf. split; [by apply updateJob_settled | done]. Qed.

Lemma queueSafe_processQueue w : queueSafe w (processQueue w).
Proof.
  destruct (processQueueFrom_frame (queue w) w) as (Hj & _).
  fold (processQueue w) in Hj.
  split; [rewrite Hj; reflexivity|].
  intros x Hx (j & Hg & _). rewrite Hj in Hg.
  destruct (processQueueFrom_drop (queue w) w eq_refl)
    as (dropped & Hd & Hall & _).
  fold (processQueue w) in Hd. rewrite Hd in Hx.
  apply elem_of_app in Hx as [Hx|Hx]; [|done].
  rewrite Forall_forall in Hall. rewrite (Hall x Hx) in Hg. done.
Qed.

Lemma queueSafe_finishJob x w : queueSafe w (finishJob x w).
Proof.
  unfold finishJob.
  eapply queueSafe_trans; [|apply queueSafe_processQueue].
  eapply queueSafe_trans; [|apply queueSafe_emitQueueUpdated].
  case_decide; [by apply queueSafe_frame | apply queueSafe_refl].
Qed.

Lemma notifyDependentJobs_queue d w :
  queue (notifyDependentJobs d w) = queue w.
Proof.
  unfold notifyDependentJobs. generalize (jobs w) as l.
  intros l. revert w. induction l as [|y l IH]; intros w; cbn; [done|].
  rewrite IH. by destruct (dependsOnQueued d y).
Qed.

Lemma queueSafe_notify d w : queueSafe w (notifyDependentJobs d w).
Proof.
  apply queueSafe_frame;
    [apply notifyDependentJobs_jobs | apply notifyDependentJobs_queue].
Qed.

Lemma removeFirst_other x y (q : list string) :
  y ≠ x → y ∈ q → y ∈ removeFirst x q.
Proof.
  intros Hne. induction q as [|z q IH]; cbn; [done|].
  intros [->|Hy]%elem_of_cons.
  - rewrite decide_False by done. left.
  - case_decide; [done|]. right. by apply IH.
Qed.

(** A job is taken out of the queue and put in a status other than
    [queued]. *)
Lemma queueSafe_remove x f w :
  (∀ j, settle j (f j)) → (∀ j, QueueJob.status (f j) ≠ queued) →
  queueSafe w
    (set_jobs (updateJob x f (jobs w)) (set_queue (removeFirst x (queue w)) w)).
Proof.
  intros Hf Hs. split; [by apply updateJob_settled|]. cbn.
  intros y Hy (j & Hg & Hq). apply removeFirst_other; [|done].
  intros ->. cbn in Hg.
  rewrite getJob_updateJob in Hg
    by (intros j0; apply (settle_facts _ _ (Hf j0))).
  rewrite decide_True in Hg by done.
  destruct (getJob x (jobs w)) as [j0|]; [|done].
  cbn in Hg. injection Hg as <-. by apply (Hs j0).
Qed.

Lemma queueSafe_failDependentJobs d e now w :
  queueSafe w (failDependentJobs d e now w).
Proof.
  apply queueSafe_fold. intros w' y.
  destruct (dependsOnQueued d y); [|apply queueSafe_refl].
  eapply queueSafe_trans; [|apply queueSafe_emit].
  apply (queueSafe_remove (QueueJob.id y) (markFailed (Some e) now) w').
  - intros j. constructor.
  - done.
Qed.

Lemma queuedInv_safe w w' : queueSafe w w' → queuedInv w → queuedInv w'.
Proof.
  intros [Hs Hq] Hi x Hx. apply Hq; [|done].
  apply Hi. by apply (queuedAt_settled_back x w w').
Qed.

Lemma queueSafe_onProgress now p w : queueSafe w (onProgress now p w).
Proof.
  unfold onProgress.
  destruct (findByDownloadId _ _) as [job|]; [|apply queueSafe_refl].
  eapply queueSafe_trans; [|apply queueSafe_emitQueueUpdated].
  eapply queueSafe_trans; [|apply queueSafe_emit].
  set (w1 := set_jobs (updateJob (QueueJob.id job) _ (jobs w)) w).
  assert (queueSafe w w1) as H1.
  { apply queueSafe_updateJob. intros j. constructor. }
  apply (queueSafe_trans _ w1); [done|].
  destruct (DownloadProgress.status p); try apply queueSafe_refl.
  - destruct (isActive (QueueJob.status job)); [|apply queueSafe_refl].
    eapply queueSafe_trans; [|apply queueSafe_finishJob].
    eapply queueSafe_trans; [|apply queueSafe_emit].
    assert (∀ f, (∀ j, settle j (f j)) →
              queueSafe w1
                (set_jobs (updateJob (QueueJob.id job) f (jobs w1)) w1)) as H2
      by (intros f Hf; by apply queueSafe_updateJob).
    case_decide; [|apply H2; intros j; constructor].
    eapply queueSafe_trans; [|apply queueSafe_notify].
    apply H2. intros j. constructor.
  - eapply queueSafe_trans; [|apply queueSafe_finishJob].
    eapply queueSafe_trans; [|apply queueSafe_emit].
    assert (∀ f, (∀ j, settle j (f j)) →
              queueSafe w1
                (set_jobs (updateJob (QueueJob.id job) f (jobs w1)) w1)) as H2
      by (intros f Hf; by apply queueSafe_updateJob).
    case_decide; [|apply H2; intros j; constructor].
    eapply queueSafe_trans; [|apply queueSafe_failDependentJobs].
    apply H2. intros j. constructor.
Qed.

Lemma queueSafe_setProgress now d session p w :
  queueSafe w (setProgress now d session p w).
Proof.
  unfold setProgress, emitProgress.
  eapply queueSafe_trans; [|apply queueSafe_onProgress].
  by apply queueSafe_frame.
Qed.

Lemma queueSafe_cancelDownload now d w :
  queueSafe w (cancelDownload now d w).2.
Proof.
  unfold cancelDownload.
  destruct (sessions w !! d); [apply queueSafe_setProgress|apply queueSafe_refl].
Qed.

Lemma getJob_snoc_inv x js j j' :
  getJob x (js ++ [j]) = Some j' →
  getJob x js = Some j' ∨ (QueueJob.id j = x ∧ j' = j).
Proof.
  induction js as [|j0 js IH]; cbn.
  - case_decide; [|done]. intros [= <-]. by right.
  - case_decide; [by left | done].
Qed.

(** The state in which both admission methods leave a new job. *)
Lemma queuedInv_admit job e1 w :
  queuedInv w →
  queuedInv
    (emitQueueUpdated
       (emit e1
          (set_queue (queue (set_jobs (jobs w ++ [job]) w) ++ [QueueJob.id job])
             (set_jobs (jobs w ++ [job]) w)))).
Proof.
  intros Hi x (j & Hg & Hq). cbn in *.
  apply getJob_snoc_inv in Hg as [Hg|[<- ->]].
  - apply elem_of_app. left. apply Hi. by exists j.
  - apply elem_of_app. right. by left.
Qed.

Lemma queuedInv_step w o : uniqueIds w → queuedInv w → queuedInv (step w o).
Proof.
  intros Hu Hi. destruct o; cbn [step].
  - unfold addDownloadJob.
    destruct (getJob _ (jobs w)); [done|]. cbn [snd].
    match goal with |- queuedInv (if ?c then processQueue ?w1 else _) =>
      assert (queuedInv w1) as H1 by (by apply queuedInv_admit)
    end.
    destruct (_ && _); [|done].
    eapply queuedInv_safe; [apply queueSafe_processQueue | exact H1].
  - unfold addConvertJob.
    destruct (getJob _ (jobs w)); [done|].
    match goal with |- context [match ?e with Some m => _ | None => _ end] =>
      destruct e end; [done|]. cbn [snd].
    match goal with |- queuedInv (if ?c then processQueue ?w1 else _) =>
      assert (queuedInv w1) as H1 by (by apply queuedInv_admit)
    end.
    destruct (_ && _); [|done].
    eapply queuedInv_safe; [apply queueSafe_processQueue | exact H1].
  - unfold startJob. destruct (getJob jobId (jobs w)) as [job|] eqn:Hg; [|done].
    destruct (negb _); [done|].
    destruct (headIs jobId (queue w)) eqn:Hh; [|done]. cbn [negb].
    destruct (negb _); [done|]. cbn [snd].
    intros x (j & Hx & Hq). cbn in *.
    rewrite getJob_updateJob in Hx by done.
    apply bool_decide_eq_true in Hh.
    case_decide as Hxj.
    + subst x. rewrite Hg in Hx. injection Hx as <-.
      cbn in Hq. by destruct (QueueJob.type job).
    + assert (x ∈ queue w) as Hin by (apply Hi; by exists j).
      destruct (queue w) as [|y q]; [done|]. cbn in Hh. injection Hh as ->.
      by apply elem_of_cons in Hin as [?|?].
  - eapply queuedInv_safe; [|exact Hi]. unfold completeJob.
    destruct (getJob jobId (jobs w)) as [job|]; [|apply queueSafe_refl].
    eapply queueSafe_trans; [|apply queueSafe_finishJob].
    eapply queueSafe_trans; [|apply queueSafe_emit].
    case_decide; [|apply queueSafe_updateJob; intros j; constructor].
    eapply queueSafe_trans; [|apply queueSafe_notify].
    apply queueSafe_updateJob. intros j. constructor.
  - eapply queuedInv_safe; [|exact Hi]. unfold failJob.
    destruct (getJob jobId (jobs w)) as [job|]; [|apply queueSafe_refl].
    eapply queueSafe_trans; [|apply queueSafe_finishJob].
    eapply queueSafe_trans; [|apply queueSafe_emit].
    case_decide; [|apply queueSafe_updateJob; intros j; constructor].
    eapply queueSafe_trans; [|apply queueSafe_failDependentJobs].
    apply queueSafe_updateJob. intros j. constructor.
  - unfold cancelJob.
    destruct (getJob jobId (jobs w)) as [job|] eqn:Hg; [|done]. cbn [snd].
    eapply queuedInv_safe; [apply queueSafe_processQueue|].
    eapply queuedInv_safe; [apply queueSafe_emitQueueUpdated|].
    eapply queuedInv_safe; [apply queueSafe_emit|].
    set (wq := set_queue (removeFirst jobId (queue w)) w).
    match goal with
    | |- queuedInv (set_jobs (updateJob _ _ (jobs ?w0)) _) => set (w2 := w0)
    end.
    assert (queueSafe wq w2) as Hs.
    { subst w2. case_decide; [|apply queueSafe_refl].
      eapply queueSafe_trans; [|apply queueSafe_setActive].
      destruct (QueueJob.downloadId job) as [d|]; [|apply queueSafe_refl].
      destruct (JS.truthy d);
        [apply queueSafe_cancelDownload | apply queueSafe_refl]. }
    intros x (j & Hj & Hq). cbn in Hj |- *.
    rewrite getJob_updateJob in Hj by done.
    case_decide as Hxj.
    { destruct (getJob jobId (jobs w2)) as [j0|]; [|done].
      cbn in Hj. injection Hj as <-. done. }
    apply Hs; [|by exists j]. cbn. apply removeFirst_other; [done|].
    apply Hi. apply (queuedAt_settled_back x wq w2 (proj1 Hs)). by exists j.
  - eapply queuedInv_safe; [apply queueSafe_onProgress | exact Hi].
  - unfold createSession. destruct (sessions w !! _); [done|]. cbn [snd].
    eapply queuedInv_safe; [|exact Hi]. by apply queueSafe_frame.
  - unfold updateProgress. destruct (sessions w !! _); [|done].
    eapply queuedInv_safe; [apply queueSafe_setProgress | exact Hi].
  - unfold markCompleted. destruct (sessions w !! _); [|done].
    eapply queuedInv_safe; [apply queueSafe_setProgress | exact Hi].
  - unfold markError. destruct (sessions w !! _); [|done].
    eapply queuedInv_safe; [apply queueSafe_setProgress | exact Hi].
  - eapply queuedInv_safe; [apply queueSafe_cancelDownload | exact Hi].
  - eapply queuedInv_safe; [|exact Hi]. by apply queueSafe_frame.
  - unfold setConvertJobInputFile.
    destruct (getJob _ (jobs w)); [|done]. case_decide; [|done]. cbn [snd].
    eapply queuedInv_safe; [|exact Hi].
    eapply queueSafe_trans; [|apply queueSafe_emitQueueUpdated].
    apply queueSafe_updateJob. intros j. constructor.
  - intros x (j & Hg & Hq). cbn in *.
    apply getJob_Some in Hg as [[_ Hin]%list_elem_of_filter Hid].
    apply Hi. exists j. split; [by apply getJob_unique | done].
  - eapply queuedInv_safe; [|exact Hi].
    apply queueSafe_updateJob. intros j. constructor.
Qed.

Lemma queuedInv_run ops w :
  schedulerInv w → queuedInv w → queuedInv (run ops w).
Proof.
  revert w. induction ops as [|o ops IH]; intros w Hs Hi; [done|].
  apply IH; [by apply inv_step | apply queuedInv_step; [apply Hs | done]].
Qed.

End QueuedJobs.

(** X8.  In every reachable state a job in status [queued] has its id
    in the queue: no operation drops a waiting job from the queue. *)
Theorem queued_jobs_are_in_queue (w : World) (j : QueueJob.t) :
  reachable w → j ∈ jobs w → QueueJob.status j = queued →
  QueueJob.id j ∈ queue w.
Proof.
  intros [ops ->] Hin Hq.
  assert (schedulerInv (run ops initial)) as [Hu _]
    by (apply inv_run, inv_initial).
  apply (queuedInv_run ops initial inv_initial).
  - intros x (j0 & Hg & _). done.
  - exists j. split; [by apply getJob_unique | done].
Qed.

Lemma queued_jobs_are_in_queue_witness :
  ∃ j, getJob "B" (jobs activeAndQueued) = Some j
       ∧ QueueJob.id j ∈ queue activeAndQueued.
Proof.
  eexists. split; [reflexivity|].
  apply (queued_jobs_are_in_queue activeAndQueued).
  - eexists. reflexivity.
  - apply (getJob_Some "B"). reflexivity.
  - reflexivity.
Defined.

(** X9.  Completing a download job unblocks the conversion that waits
    for it: when the dependent convert job is at the head of the queue
    and no other job is active, a [startJob] for it succeeds right
    after [completeJob] of its dependency. *)
Theorem completeJob_unblocks_dependent (now now' : Z)
    (d c downloadId : string) (w : World) (dj cj : QueueJob.t) :
  getJob d (jobs w) = Some dj →
  getJob c (jobs w) = Some cj →
  QueueJob.dependsOn cj = Some d → c ≠ d →
  head (queue w) = Some c →
  activeJob w = Some d ∨ activeJob w = None →
  (startJob now' c downloadId (completeJob now d w)).1 = true.
Proof.
  intros Hd Hc Hdep Hne Hhead Hact.
  destruct (control_completeJob now d w dj Hd) as [Ha _]. cbn zeta in Ha.
  assert (activeJob (completeJob now d w) = None) as Hnone.
  { rewrite Ha. case_decide; [done|]. by destruct Hact. }
  clear Ha.
  assert (jobs (completeJob now d w)
          = updateJob d (λ j, QueueJob.set_completedAt (Some now)
                                (QueueJob.set_status completed j)) (jobs w))
    as Hjobs.
  { unfold completeJob. rewrite Hd, finishJob_jobs. cbn [jobs emit set_emitted].
    case_decide; [by rewrite notifyDependentJobs_jobs | done]. }
  assert (getJob c (jobs (completeJob now d w)) = Some cj) as Hc'.
  { rewrite Hjobs, getJob_updateJob by done. by rewrite decide_False. }
  assert (queue (completeJob now d w) = queue w) as Hq.
  { unfold completeJob. rewrite Hd. unfold finishJob.
    match goal with |- queue (processQueue ?w0) = _ =>
      assert (queue w0 = queue w) as Hq0;
        [|assert (jobs w0 = updateJob d (λ j, QueueJob.set_completedAt
                      (Some now) (QueueJob.set_status completed j)) (jobs w))
            as Hj0]
    end.
    { destruct (decide (activeJob _ = Some d));
        cbn [queue emitQueueUpdated emit set_emitted set_activeJob];
        destruct (decide (QueueJob.type dj = download));
        by rewrite ?notifyDependentJobs_queue. }
    { destruct (decide (activeJob _ = Some d));
        cbn [jobs emitQueueUpdated emit set_emitted set_activeJob];
        destruct (decide (QueueJob.type dj = download));
        by rewrite ?notifyDependentJobs_jobs. }
    rewrite (processQueue_known_head _ c); [done|by rewrite Hq0|].
    rewrite Hj0, getJob_updateJob by done. rewrite decide_False by done.
    by rewrite Hc. }
  rewrite (startJob_result now' c downloadId _ cj Hc'), Hnone, Hq.
  unfold headIs. rewrite !bool_decide_eq_true_2 by done. cbn.
  unfold canJobStart. rewrite Hdep. destruct (JS.truthy d); [|done].
  rewrite Hjobs, getJob_updateJob by done. rewrite decide_True by done.
  rewrite Hd. cbn. by apply bool_decide_eq_true.
Qed.

Lemma completeJob_unblocks_dependent_witness :
  (startJob 4 "J2" "J2" (completeJob 3 "J1" dependencyRunning)).1 = true.
Proof.
  eapply (completeJob_unblocks_dependent 3 4 "J1" "J2" "J2" dependencyRunning).
  - reflexivity.
  - reflexivity.
  - reflexivity.
  - discriminate.
  - reflexivity.
  - left. reflexivity.
Defined.

(** X10.  [cleanupOldJobs] forgets exactly the completed and failed
    jobs that finished more than [maxAge] ago.  Jobs that are queued,
    downloading or converting are always kept, and the queue and
    [activeJob] are not touched, so the id of a forgotten job that was
    never taken out of the queue stays in the queue. *)
Theorem cleanupOldJobs_spec (now maxAge : Z) (w : World) :
  reachable w →
  let w' := cleanupOldJobs now maxAge w in
  (∀ x, getJob x (jobs w')
        = match getJob x (jobs w) with
          | Some j => if isOldJob now maxAge j then None else Some j
          | None => None
          end)
  ∧ (∀ x j, getJob x (jobs w) = Some j →
            QueueJob.status j ≠ completed → QueueJob.status j ≠ failed →
            getJob x (jobs w') = Some j)
  ∧ queue w' = queue w ∧ activeJob w' = activeJob w
  ∧ sessions w' = sessions w.
Proof.
  intros Hr. pose proof (inv_reachable w Hr) as [Hu _]. cbn zeta.
  assert (∀ x, getJob x (jobs (cleanupOldJobs now maxAge w))
               = match getJob x (jobs w) with
                 | Some j => if isOldJob now maxAge j then None else Some j
                 | None => None
                 end) as Hlook.
  { intros x. cbn. unfold uniqueIds in Hu.
    induction (jobs w) as [|j js IH]; [done|].
    cbn in Hu. apply NoDup_cons in Hu as [Hj Hu].
    rewrite filter_cons. cbn [getJob].
    destruct (decide (QueueJob.id j = x)) as [<-|Hne].
    - destruct (isOldJob now maxAge j) eqn:Hold.
      + rewrite decide_False by (intros H; by apply H).
        rewrite (IH Hu).
        apply getJob_None in Hj. by rewrite Hj.
      + rewrite decide_True by (by intros []).
        cbn. by rewrite decide_True.
    - case_decide; [cbn; rewrite decide_False by done|]; by apply IH. }
  split; [exact Hlook|]. split; [|done].
  intros x j Hg Hc Hf. rewrite Hlook, Hg.
  unfold isOldJob, isTerminal. rewrite bool_decide_eq_false_2; [done|].
  by intros [?|?].
Qed.

Lemma cleanupOldJobs_spec_witness :
  reachable withOldFailure
  ∧ getJob "A" (jobs (cleanupOldJobs 2000000 defaultMaxAge withOldFailure))
    = None
  ∧ queue (cleanupOldJobs 2000000 defaultMaxAge withOldFailure) = ["A"; "B"].
Proof.
  split; [eexists; reflexivity|].
  destruct (cleanupOldJobs_spec 2000000 defaultMaxAge withOldFailure)
    as (Hlook & _ & Hq & _); [eexists; reflexivity|].
  split; [rewrite Hlook; vm_compute; reflexivity | rewrite Hq; reflexivity].
Defined.

(** ** The scheduler and the progress bus *)

Section SchedulerAndBus.

Implicit Types (w : World) (j : QueueJob.t) (js : list QueueJob.t).

Lemma sameBus_refl w : sameBus w w.
Proof. by split. Qed.

Lemma sameBus_frame w w' :
  sessions w' = sessions w → published w' = published w → sameBus w w'.
Proof. by split. Qed.

Lemma sameBus_processQueue w : sameBus w (processQueue w).
Proof.
  destruct (processQueueFrom_frame (queue w) w) as (_ & _ & Hs & Hp).
  by split.
Qed.

Lemma sameBus_completeJob now x w : sameBus w (completeJob now x w).
Proof.
  unfold completeJob. destruct (getJob x (jobs w)) as [job|]; [|done].
  eapply sameBus_trans; [|apply sameBus_finishJob].
  destruct (decide (QueueJob.type job = download)); [|done].
  match goal with |- context [notifyDependentJobs ?d ?w0] =>
    destruct (sameBus_notify d w0) end. by split.
Qed.

Lemma sameBus_failJob now x e w : sameBus w (failJob now x e w).
Proof.
  unfold failJob. destruct (getJob x (jobs w)) as [job|]; [|done].
  eapply sameBus_trans; [|apply sameBus_finishJob].
  destruct (decide (QueueJob.type job = download)); [|done].
  match goal with |- context [failDependentJobs ?d ?m ?t ?w0] =>
    destruct (sameBus_failDependent d m t w0) end. by split.
Qed.

(** What [cancelDownload] does to the bus. *)
Lemma cancelDownload_bus now d w :
  match sessions w !! d with
  | Some session =>
      let p := withStatus SCancelled (DownloadSession.progress session) in
      sessions (cancelDownload now d w).2
      = <[d := DownloadSession.set_progress p session]> (sessions w)
      ∧ published (cancelDownload now d w).2 = published w ++ [p]
  | None => (cancelDownload now d w).2 = w
  end.
Proof.
  unfold cancelDownload. destruct (sessions w !! d) as [session|]; [|done].
  cbn [snd]. apply setProgress_bus.
Qed.

(** What [cancelJob] does to the bus: nothing, or one
    [cancelDownload]. *)
Lemma cancelJob_bus now x w :
  sameBus w (cancelJob now x w).2
  ∨ ∃ job d,
      getJob x (jobs w) = Some job ∧ activeJob w = Some x
      ∧ QueueJob.downloadId job = Some d ∧ d ≠ EmptyString
      ∧ sameBus (cancelDownload now d w).2 (cancelJob now x w).2.
Proof.
  unfold cancelJob. destruct (getJob x (jobs w)) as [job|]; [|by left].
  cbn [snd].
  destruct (decide (activeJob w = Some x)) as [Ha|Ha].
  - destruct (QueueJob.downloadId job) as [d|] eqn:Hd.
    + destruct (JS.truthy d) eqn:Ht.
      * right. exists job, d. split; [done|]. split; [done|]. split; [done|].
        split; [by apply bool_decide_eq_true in Ht|].
        eapply sameBus_trans; [|apply sameBus_processQueue].
        rewrite decide_True by done.
        pose proof (cancelDownload_bus now d w) as B1.
        pose proof (cancelDownload_bus now d
                      (set_queue (removeFirst x (queue w)) w)) as B2.
        cbn [sessions published set_queue] in B2.
        split; cbn [sessions published emitQueueUpdated emit set_emitted
                    set_jobs set_activeJob];
          (destruct (sessions w !! d);
           [destruct B1 as [S1 P1], B2 as [S2 P2]; congruence
           |rewrite B1, B2; done]).
      * left. eapply sameBus_trans; [|apply sameBus_processQueue].
        by rewrite decide_True by done.
    + left. eapply sameBus_trans; [|apply sameBus_processQueue].
      by rewrite decide_True by done.
  - left. eapply sameBus_trans; [|apply sameBus_processQueue].
    by rewrite decide_False by done.
Qed.

Lemma sameBus_addDownloadJob now u f x g w :
  sameBus w (addDownloadJob now u f x g w).2.
Proof.
  unfold addDownloadJob. destruct (getJob _ (jobs w)); [done|]. cbn [snd].
  destruct (_ && _); [|done].
  eapply sameBus_trans; [|apply sameBus_processQueue]. done.
Qed.

Lemma sameBus_addConvertJob now u t dep inp x g w :
  sameBus w (addConvertJob now u t dep inp x g w).2.
Proof.
  unfold addConvertJob. destruct (getJob _ (jobs w)); [done|].
  match goal with |- context [match ?e with Some m => _ | None => _ end] =>
    destruct e end; [done|]. cbn [snd].
  destruct (_ && _); [|done].
  eapply sameBus_trans; [|apply sameBus_processQueue]. done.
Qed.

Lemma sameBus_startJob now x d w : sameBus w (startJob now x d w).2.
Proof.
  unfold startJob. destruct (getJob x (jobs w)); [|done].
  by repeat (destruct (negb _); [done|]).
Qed.

Lemma sameBus_setConvertJobInputFile c f w :
  sameBus w (setConvertJobInputFile c f w).2.
Proof.
  unfold setConvertJobInputFile. destruct (getJob _ (jobs w)); [|done].
  by case_decide.
Qed.

Lemma cancelJob_active_bus now x d w job :
  getJob x (jobs w) = Some job → activeJob w = Some x →
  QueueJob.downloadId job = Some d → d ≠ EmptyString →
  sameBus (cancelDownload now d w).2 (cancelJob now x w).2.
Proof.
  intros Hg Ha Hd Hne. unfold cancelJob. rewrite Hg. cbn [snd].
  eapply sameBus_trans; [|apply sameBus_processQueue].
  rewrite decide_True by done. rewrite Hd. unfold JS.truthy.
  rewrite bool_decide_eq_true_2 by done.
  pose proof (cancelDownload_bus now d w) as B1.
  pose proof (cancelDownload_bus now d
                (set_queue (removeFirst x (queue w)) w)) as B2.
  cbn [sessions published set_queue] in B2.
  split; cbn [sessions published emitQueueUpdated emit set_emitted
              set_jobs set_activeJob];
    (destruct (sessions w !! d);
     [destruct B1 as [S1 P1], B2 as [S2 P2]; congruence
     |rewrite B1, B2; done]).
Qed.

End SchedulerAndBus.

(** X11.  The scheduler leaves the progress bus alone: none of its
    methods, nor its listener, creates, changes or removes a session
    or publishes a progress event, with one exception, [cancelJob] of
    the active job.  In particular [completeJob] and [failJob] do not
    mark the download session. *)
Theorem scheduler_leaves_bus_alone (w : World) (o : Op) :
  schedulerCall o = true →
  (∀ now jobId, o = OpCancelJob now jobId → activeJob w ≠ Some jobId) →
  sessions (step w o) = sessions w ∧ published (step w o) = published w.
Proof.
  intros Hcall Hcancel. destruct o; try discriminate Hcall; cbn [step].
  - apply sameBus_addDownloadJob.
  - apply sameBus_addConvertJob.
  - apply sameBus_startJob.
  - apply sameBus_completeJob.
  - apply sameBus_failJob.
  - destruct (cancelJob_bus now jobId w) as [?|(job & d & _ & Ha & _)]; [done|].
    by destruct (Hcancel now jobId eq_refl).
  - apply sameBus_onProgress.
  - apply sameBus_setConvertJobInputFile.
  - done.
  - done.
Qed.

Lemma scheduler_leaves_bus_alone_witness :
  sessions (step streamingJob (OpCompleteJob 2 "J1")) = sessions streamingJob
  ∧ published (step streamingJob (OpCompleteJob 2 "J1"))
    = published streamingJob.
Proof.
  apply (scheduler_leaves_bus_alone streamingJob (OpCompleteJob 2 "J1")).
  - reflexivity.
  - discriminate.
Defined.

(** X12.  [cancelJob] of the active job cancels its download: the
    session stored under the job's [downloadId] gets the status
    [cancelled] with its byte counts kept, exactly one event is
    published for it, the job is failed with the error
    [Cancelled by user], and no job is active afterwards. *)
Theorem cancelJob_cancels_session (now : Z) (jobId d : string) (w : World)
    (job : QueueJob.t) (session : DownloadSession.t) :
  getJob jobId (jobs w) = Some job → activeJob w = Some jobId →
  QueueJob.downloadId job = Some d → d ≠ EmptyString →
  sessions w !! d = Some session →
  let w' := (cancelJob now jobId w).2 in
  let p := withStatus SCancelled (DownloadSession.progress session) in
  getProgress d w' = Some p
  ∧ published w' = published w ++ [p]
  ∧ statusOf jobId w' = Some failed
  ∧ errorOf jobId w' = Some (Some "Cancelled by user")
  ∧ activeJob w' = None.
Proof.
  intros Hg Ha Hd Hne Hs. cbn zeta.
  destruct (cancelJob_active_bus now jobId d w job Hg Ha Hd Hne) as [S P].
  pose proof (cancelDownload_bus now d w) as Hb. rewrite Hs in Hb.
  cbn zeta in Hb. destruct Hb as [S' P'].
  destruct (terminal_cancelJob now jobId w job Hg) as (j' & Hj' & Hf).
  destruct (control_cancelJob now jobId w job Hg) as [Hact _].
  cbn zeta in Hact. rewrite decide_True in Hact by done.
  unfold getProgress, statusOf, errorOf.
  rewrite S, S', lookup_insert_eq, P, P', Hj', Hact. cbn.
  split; [done|]. split; [done|]. split; [by rewrite Hf|].
  split; [|done].
  revert Hj'. unfold cancelJob. rewrite Hg. cbn [snd].
  unfold processQueue.
  match goal with |- context [processQueueFrom ?q ?w0] =>
    destruct (processQueueFrom_frame q w0) as (-> & _)
  end.
  cbn [jobs emitQueueUpdated emit set_emitted set_jobs].
  rewrite getJob_updateJob by done. rewrite decide_True by done.
  match goal with |- _ <$> ?g = _ → _ => destruct g as [j0|]; [|done] end.
  simpl. intros Heq. injection Heq as Heq. by rewrite <- Heq.
Qed.

Lemma cancelJob_cancels_session_witness :
  sessionStatus "J1" (cancelJob 2 "J1" streamingJob).2 = Some SCancelled
  ∧ statusOf "J1" (cancelJob 2 "J1" streamingJob).2 = Some failed
  ∧ activeJob (cancelJob 2 "J1" streamingJob).2 = None.
Proof.
  destruct (cancelJob_cancels_session 2 "J1" "J1" streamingJob
              (default (QueueJob.mk "J1" download "u" None None None None
                          queued 0 None None None None None)
                 (getJob "J1" (jobs streamingJob)))
              (default (DownloadSession.mk "J1" "u" "22"
                          (freshProgress "J1") 0)
                 (sessions streamingJob !! "J1")))
    as (Hp & _ & Hst & _ & Hact).
  - reflexivity.
  - reflexivity.
  - reflexivity.
  - discriminate.
  - reflexivity.
  - unfold sessionStatus. rewrite Hp. by repeat split.
Defined.

(** ** Sessions of the progress bus *)

Section Sessions.

Implicit Types (w : World) (session : DownloadSession.t).

Lemma sessionKeyInv_sameBus w w' :
  sameBus w w' → sessionKeyInv w → sessionKeyInv w'.
Proof. intros [Hs _] Hi d session. rewrite Hs. apply Hi. Qed.

Lemma sessionKeyInv_setProgress now d session p w :
  sessions w !! d = Some session → DownloadProgress.downloadId p = d →
  sessionKeyInv w → sessionKeyInv (setProgress now d session p w).
Proof.
  intros Hs Hp Hi d' session'.
  destruct (setProgress_bus now d session p w) as [-> _].
  destruct (decide (d' = d)) as [->|Hne].
  - rewrite lookup_insert_eq. intros [= <-]. cbn.
    split; [by apply (Hi d session) | done].
  - rewrite lookup_insert_ne by done. apply Hi.
Qed.

Lemma sessionKeyInv_cancelDownload now d w :
  sessionKeyInv w → sessionKeyInv (cancelDownload now d w).2.
Proof.
  intros Hi. unfold cancelDownload.
  destruct (sessions w !! d) as [session|] eqn:Hs; [|done].
  apply sessionKeyInv_setProgress; [done| |done]. cbn.
  by apply (Hi d session).
Qed.

Lemma sessionKeyInv_step w o : sessionKeyInv w → sessionKeyInv (step w o).
Proof.
  intros Hi. destruct o; cbn [step].
  - eapply sessionKeyInv_sameBus; [apply sameBus_addDownloadJob | done].
  - eapply sessionKeyInv_sameBus; [apply sameBus_addConvertJob | done].
  - eapply sessionKeyInv_sameBus; [apply sameBus_startJob | done].
  - eapply sessionKeyInv_sameBus; [apply sameBus_completeJob | done].
  - eapply sessionKeyInv_sameBus; [apply sameBus_failJob | done].
  - destruct (cancelJob_bus now jobId w) as [Hb|(job & d & _ & _ & _ & _ & Hb)].
    + by eapply sessionKeyInv_sameBus.
    + eapply sessionKeyInv_sameBus; [exact Hb|].
      by apply sessionKeyInv_cancelDownload.
  - eapply sessionKeyInv_sameBus; [apply sameBus_onProgress | done].
  - unfold createSession.
    destruct (sessions w !! _) eqn:Hs; [done|]. cbn [snd].
    intros d' session'. cbn.
    destruct (decide (d' = JS.or_else downloadId gen)) as [->|Hne].
    + rewrite lookup_insert_eq. by intros [= <-].
    + rewrite lookup_insert_ne by done. apply Hi.
  - unfold updateProgress.
    destruct (sessions w !! _) eqn:Hs; [|done].
    by apply sessionKeyInv_setProgress.
  - unfold markCompleted.
    destruct (sessions w !! downloadId) as [session|] eqn:Hs; [|done].
    apply sessionKeyInv_setProgress; [done| |done]. cbn.
    by apply (Hi downloadId session).
  - unfold markError.
    destruct (sessions w !! downloadId) as [session|] eqn:Hs; [|done].
    apply sessionKeyInv_setProgress; [done| |done]. cbn.
    by apply (Hi downloadId session).
  - by apply sessionKeyInv_cancelDownload.
  - intros d' session'. cbn. intros Hl.
    apply lookup_delete_Some in Hl as [_ Hl]. by apply Hi.
  - eapply sessionKeyInv_sameBus;
      [apply sameBus_setConvertJobInputFile | done].
  - done.
  - done.
Qed.

Lemma sessionKeyInv_run ops w : sessionKeyInv w → sessionKeyInv (run ops w).
Proof.
  revert w. induction ops as [|o ops IH]; intros w Hi; [done|].
  apply IH. by apply sessionKeyInv_step.
Qed.

Lemma sessionKeyInv_reachable w : reachable w → sessionKeyInv w.
Proof.
  intros [ops ->]. apply sessionKeyInv_run. intros d session Hl.
  cbn in Hl. by rewrite lookup_empty in Hl.
Qed.


End Sessions.

(** X13.  In every reachable state a session is stored under its own
    id and so is its progress object: what [getProgress] returns for a
    download id carries that id. *)
Theorem sessions_are_keyed_by_their_id (w : World) (d : string)
    (p : DownloadProgress.t) :
  reachable w → getProgress d w = Some p →
  DownloadProgress.downloadId p = d
  ∧ ∃ session, sessions w !! d = Some session
               ∧ DownloadSession.downloadId session = d.
Proof.
  intros Hr Hp. unfold getProgress in Hp.
  destruct (sessions w !! d) as [session|] eqn:Hs; [|done].
  cbn in Hp. injection Hp as <-.
  destruct (sessionKeyInv_reachable w Hr d session Hs) as [H1 H2].
  split; [done|]. by exists session.
Qed.

Lemma sessions_are_keyed_by_their_id_witness :
  ∃ p, getProgress "d1" erroredSession = Some p
       ∧ DownloadProgress.downloadId p = "d1".
Proof.
  eexists. split; [reflexivity|].
  eapply (sessions_are_keyed_by_their_id erroredSession "d1").
  - eexists. reflexivity.
  - reflexivity.
Defined.



(** X15.  A [completed] event that arrives for a job which is not
    downloading or converting any more (it was cancelled, or has
    failed) is not applied: the listener mirrors the byte counts, but
    status and error of every job, the queue and [activeJob] stay as
    they are. *)
Theorem late_completed_event_is_ignored (now : Z) (p : DownloadProgress.t)
    (w : World) (job : QueueJob.t) :
  DownloadProgress.status p = SCompleted →
  findByDownloadId (DownloadProgress.downloadId p) (jobs w) = Some job →
  ¬ (QueueJob.status job = downloading ∨ QueueJob.status job = converting) →
  let w' := onProgress now p w in
  (∀ x, statusOf x w' = statusOf x w ∧ errorOf x w' = errorOf x w)
  ∧ activeJob w' = activeJob w ∧ queue w' = queue w.
Proof.
  intros Hst Hfind Hna. cbn zeta. unfold onProgress. rewrite Hfind, Hst.
  unfold isActive. rewrite bool_decide_eq_false_2 by done.
  split; [|done]. intros x. unfold statusOf, errorOf.
  cbn [jobs emitQueueUpdated emit set_emitted set_jobs].
  rewrite getJob_updateJob by done.
  case_decide as Hx; [|done]. rewrite Hx.
  by destruct (getJob (QueueJob.id job) (jobs w)).
Qed.

Lemma late_completed_event_is_ignored_witness :
  statusOf "J1"
    (onProgress 3 (withStatus SCompleted (freshProgress "J1")) cancelledJob)
  = Some failed.
Proof.
  destruct (late_completed_event_is_ignored 3
              (withStatus SCompleted (freshProgress "J1")) cancelledJob
              (default (QueueJob.mk "J1" download "u" None None None None
                          queued 0 None None None None None)
                 (getJob "J1" (jobs cancelledJob))))
    as [Hall _].
  - reflexivity.
  - vm_compute. reflexivity.
  - vm_compute. intros [?|?]; discriminate.
  - destruct (Hall "J1") as [-> _]. vm_compute. reflexivity.
Defined.

(** X16.  [createSession] never overwrites: for an id that already has
    a session it returns the id and changes nothing, so the progress
    recorded so far, even a terminal one, is kept; for a new id the
    session starts with 0 bytes, no total, no percentage and the status
    [downloading].  In both cases [getProgress] of the returned id is
    defined afterwards, and no event is published. *)
Theorem createSession_spec (now : Z) (url formatId : string)
    (downloadId : option string) (gen : string) (w : World) :
  let id := (createSession now url formatId downloadId gen w).1 in
  let w' := (createSession now url formatId downloadId gen w).2 in
  id = JS.or_else downloadId gen
  ∧ getProgress id w'
    = Some (default (freshProgress id) (getProgress id w))
  ∧ (is_Some (sessions w !! id) → w' = w)
  ∧ (∀ other, other ≠ id → sessions w' !! other = sessions w !! other)
  ∧ published w' = published w
  ∧ jobs w' = jobs w ∧ queue w' = queue w ∧ activeJob w' = activeJob w.
Proof.
  cbn zeta. unfold createSession, getProgress.
  destruct (sessions w !! JS.or_else downloadId gen) as [session|] eqn:Hs;
    cbn [fst snd].
  - rewrite Hs. by repeat split.
  - rewrite Hs. cbn. rewrite lookup_insert_eq. cbn.
    split; [done|]. split; [done|]. split; [by intros [? ?]|].
    split; [|done]. intros other Hne. by rewrite lookup_insert_ne.
Qed.

(** X17.  Calls for a download id that has no session do nothing:
    [updateProgress], [markCompleted] and [markError] leave both
    services as they are and publish no event, [cancelDownload] returns
    false, and [getProgress] returns null. *)
Theorem unknown_download_id_is_ignored (now : Z) (d error : string)
    (bytes : Z) (total : option Z) (w : World) :
  sessions w !! d = None →
  updateProgress now d bytes total w = w
  ∧ markCompleted now d w = w
  ∧ markError now d error w = w
  ∧ cancelDownload now d w = (false, w)
  ∧ getProgress d w = None.
Proof.
  intros Hs.
  unfold updateProgress, markCompleted, markError, cancelDownload, getProgress.
  rewrite Hs. by repeat split.
Qed.

Lemma unknown_download_id_is_ignored_witness :
  markCompleted 1 "nobody" oneActive = oneActive
  ∧ cancelDownload 1 "nobody" oneActive = (false, oneActive).
Proof.
  destruct (unknown_download_id_is_ignored 1 "nobody" "e" 0 None oneActive)
    as (_ & H2 & _ & H4 & _); [reflexivity|].
  split; [exact H2 | exact H4].
Defined.

(** X18.  The periodic [cleanupSessions] removes exactly the sessions
    that are older than thirty minutes and whose status is [completed],
    [error] or [cancelled].  A session that is still [downloading] is
    never removed, however old it is; nothing is published and the
    scheduler is not touched. *)
Theorem cleanupSessions_spec (now : Z) (w : World) :
  let w' := cleanupSessions now w in
  (∀ d, sessions w' !! d
        = match sessions w !! d with
          | Some session =>
              if isStaleSession now session then None else Some session
          | None => None
          end)
  ∧ (∀ d session, sessions w !! d = Some session →
       DownloadProgress.status (DownloadSession.progress session)
       = SDownloading
       ∨ (now - DownloadSession.createdAt session ≤ sessionTimeout)%Z →
       sessions w' !! d = Some session)
  ∧ published w' = published w
  ∧ jobs w' = jobs w ∧ queue w' = queue w ∧ activeJob w' = activeJob w.
Proof.
  cbn zeta.
  assert (∀ d, sessions (cleanupSessions now w) !! d
               = match sessions w !! d with
                 | Some session =>
                     if isStaleSession now session then None else Some session
                 | None => None
                 end) as Hlook.
  { intros d. cbn. rewrite map_lookup_filter.
    destruct (sessions w !! d) as [session|]; [|done]. cbn.
    destruct (isStaleSession now session) eqn:Hst.
    - rewrite option_guard_False; [done|]. cbn. intros H. by apply H.
    - rewrite option_guard_True; [done|]. cbn. by intros []. }
  split; [exact Hlook|]. split; [|done].
  intros d session Hs Hkeep. rewrite Hlook, Hs.
  unfold isStaleSession. destruct Hkeep as [->|Hyoung].
  - by rewrite andb_false_r.
  - rewrite bool_decide_eq_false_2; [done|lia].
Qed.

(** ** The download stream *)

Section StreamCounter.

Lemma onExit_counter now verb code signal text s w :
  st_bytesDownloaded (onExit now verb code signal text s w).1
  = st_bytesDownloaded s
  ∧ st_downloadId (onExit now verb code signal text s w).1 = st_downloadId s.
Proof.
  unfold onExit. destruct (st_isCleanedUp s); [done|].
  destruct (abnormal code); [done|]. by case_bool_decide.
Qed.

Lemma busStep_counter now c s w :
  st_bytesDownloaded (busStep now c (s, w)).1
  = (st_bytesDownloaded s + chunkBytes [c])%Z
  ∧ st_downloadId (busStep now c (s, w)).1 = st_downloadId s.
Proof.
  destruct c as [e| | |]; [| | |rewrite busStep_cancel];
    cbn [busStep chunkBytes foldr fst];
    [|split; [lia|done]..|destruct (_ && _); cbn; (split; [lia|done])].
  destruct e; cbn [streamStep].
  - destruct (_ || _); cbn; (split; [lia|done]).
  - cbn. split; [lia|done].
  - destruct (Stderr.progressMatch data) as [[[? ?] ?]|]; cbn;
      (split; [lia|done]).
  - destruct (st_isCleanedUp s); cbn; (split; [lia|done]).
  - destruct (st_timeoutId s); [destruct (st_killed s)|]; cbn;
      (split; [lia|done]).
  - destruct (st_isCleanedUp s); [cbn; split; [lia|done]|].
    destruct (_ && _); cbn; (split; [lia|done]).
  - destruct (onExit_counter now "exited" code signal codeText
                (set_exitCode code s) w) as [-> ->].
    cbn. split; [lia|done].
  - destruct (onExit_counter now "closed" code signal codeText s w)
      as [-> ->].
    split; [lia|done].
Qed.

Lemma busRun_counter now calls s w :
  st_bytesDownloaded (busRun now calls (s, w)).1
  = (st_bytesDownloaded s + chunkBytes calls)%Z
  ∧ st_downloadId (busRun now calls (s, w)).1 = st_downloadId s.
Proof.
  revert s w. induction calls as [|c calls IH]; intros s w.
  - cbn. split; [lia|done].
  - cbn [busRun fold_left]. fold (busRun now calls (busStep now c (s, w))).
    destruct (busStep now c (s, w)) as [s1 w1] eqn:Hstep.
    destruct (IH s1 w1) as [-> ->].
    pose proof (busStep_counter now c s w) as [Hb Hd].
    rewrite Hstep in Hb, Hd. cbn [fst] in Hb, Hd. rewrite Hb, Hd.
    split; [|done]. unfold chunkBytes in *. cbn [foldr] in *.
    destruct c as [[]| | |]; lia.
Qed.

(** A stream that has been cleaned up has no timer left. *)
Lemma busStep_cleaned now c s w :
  (st_isCleanedUp s = true → st_timeoutId s = false) →
  st_isCleanedUp (busStep now c (s, w)).1 = true →
  st_timeoutId (busStep now c (s, w)).1 = false.
Proof.
  intros Hi.
  assert (∀ s', st_isCleanedUp s' = st_isCleanedUp s →
                st_timeoutId s' = st_timeoutId s ∨ st_timeoutId s' = false →
                st_isCleanedUp s' = true → st_timeoutId s' = false) as Hkeep.
  { intros s' Hc [Ht|Ht] Hc'; [|done]. rewrite Ht. apply Hi. congruence. }
  destruct c as [e| | |]; [| | |rewrite busStep_cancel]; cbn [busStep fst];
    [|by apply Hkeep; [|left]..|destruct (_ && _); by apply Hkeep; [|left]].
  destruct e; cbn [streamStep].
  - destruct (_ || _); (apply Hkeep; [done|by left]).
  - apply Hkeep; [done|by left].
  - destruct (Stderr.progressMatch data) as [[[? ?] ?]|];
      (apply Hkeep; [done|by left]).
  - destruct (st_isCleanedUp s) eqn:Hc; cbn [fst].
    + apply Hkeep; [done|by left].
    + cbn. congruence.
  - destruct (st_timeoutId s) eqn:Ht; [|by apply Hkeep; [|left]].
    destruct (st_killed s); (apply Hkeep; [done|by left]).
  - destruct (st_isCleanedUp s) eqn:Hc; [by apply Hkeep; [|left]|].
    by destruct (_ && _).
  - unfold onExit. cbn [st_isCleanedUp set_exitCode].
    destruct (st_isCleanedUp s) eqn:Hc.
    + apply Hkeep; [done|by left].
    + destruct (abnormal code); [cbn; congruence|].
      case_bool_decide; cbn; congruence.
  - unfold onExit.
    destruct (st_isCleanedUp s) eqn:Hc.
    + apply Hkeep; [done|by left].
    + destruct (abnormal code); [cbn; congruence|].
      case_bool_decide; cbn; congruence.
Qed.

Lemma busRun_cleaned now calls s w :
  (st_isCleanedUp s = true → st_timeoutId s = false) →
  st_isCleanedUp (busRun now calls (s, w)).1 = true →
  st_timeoutId (busRun now calls (s, w)).1 = false.
Proof.
  revert s w. induction calls as [|c calls IH]; intros s w Hi; [done|].
  cbn [busRun fold_left]. fold (busRun now calls (busStep now c (s, w))).
  pose proof (busStep_cleaned now c s w Hi) as Hstep.
  destruct (busStep now c (s, w)) as [s1 w1]. by apply IH.
Qed.

(** The callbacks that report on the process do nothing on a stream
    that is cleaned up and has no timer. *)
Lemma silent_step now e s w :
  processEvent e = true →
  st_isCleanedUp s = true → st_timeoutId s = false →
  (streamStep now e s w).2 = w
  ∧ st_isCleanedUp (streamStep now e s w).1 = true
  ∧ st_timeoutId (streamStep now e s w).1 = false.
Proof.
  intros He Hc Ht. destruct e; try discriminate He; cbn [streamStep].
  - by rewrite Hc.
  - by rewrite Ht.
  - by rewrite Hc.
  - unfold onExit. cbn. by rewrite Hc.
  - unfold onExit. by rewrite Hc.
Qed.

Lemma silent_run now events s w :
  Forall (λ e, processEvent e = true) events →
  st_isCleanedUp s = true → st_timeoutId s = false →
  (busRun now (FromStream <$> events) (s, w)).2 = w.
Proof.
  intros Hev. revert s. induction Hev as [|e events He _ IH]; intros s Hc Ht.
  - done.
  - cbn [fmap list_fmap busRun fold_left busStep].
    destruct (silent_step now e s w He Hc Ht) as (Hw & Hc' & Ht').
    destruct (streamStep now e s w) as [s1 w1]. cbn [fst snd] in *. subst w1.
    by apply IH.
Qed.

End StreamCounter.

(** X19.  When the stream is flushed, two events are published for its
    session: a [downloading] event whose byte count is the total size
    of the chunks received, and a [completed] event with the same byte
    count and the percentage 100.  Both carry a null total: a total
    that was learnt from the extractor's progress line is not kept. *)
Theorem flush_publishes_final_count (now : Z) (d : string)
    (calls : list BusCall) (w : World) :
  let sw := busRun now calls (streamDownload d, w) in
  is_Some (sessions sw.2 !! d) →
  let w' := (streamStep now Flush sw.1 sw.2).2 in
  let p1 := {| DownloadProgress.downloadId := d;
               DownloadProgress.bytesDownloaded := chunkBytes calls;
               DownloadProgress.totalBytes := None;
               DownloadProgress.percentage := None;
               DownloadProgress.status := SDownloading;
               DownloadProgress.error := None |} in
  let p2 := {| DownloadProgress.downloadId := d;
               DownloadProgress.bytesDownloaded := chunkBytes calls;
               DownloadProgress.totalBytes := None;
               DownloadProgress.percentage := Some 100%Z;
               DownloadProgress.status := SCompleted;
               DownloadProgress.error := None |} in
  published w' = published sw.2 ++ [p1; p2]
  ∧ getProgress d w' = Some p2.
Proof.
  cbn zeta. intros [session Hs].
  destruct (busRun_counter now calls (streamDownload d) w) as [Hb Hd].
  destruct (busRun now calls (streamDownload d, w)) as [s1 w1].
  cbn [fst snd streamDownload st_bytesDownloaded st_downloadId] in *.
  rewrite Z.add_0_l in Hb. cbn [streamStep snd].
  unfold updateProgress. rewrite Hd, Hs, Hb.
  set (p1 := DownloadProgress.mk d (chunkBytes calls) None _ _ _).
  destruct (setProgress_bus now d session p1 w1) as [S1 P1].
  unfold markCompleted. rewrite S1, lookup_insert_eq.
  match goal with |- context [setProgress now d ?s ?p ?w0] =>
    destruct (setProgress_bus now d s p w0) as [S2 P2]
  end.
  unfold getProgress. rewrite P2, P1, S2, lookup_insert_eq.
  rewrite <- app_assoc. done.
Qed.

Lemma flush_publishes_final_count_witness :
  is_Some (sessions twoMiBStreamed.2 !! "d1")
  ∧ (DownloadProgress.bytesDownloaded
       <$> getProgress "d1"
             (streamStep 1 Flush twoMiBStreamed.1 twoMiBStreamed.2).2)
    = Some 2097152%Z.
Proof.
  assert (is_Some (sessions twoMiBStreamed.2 !! "d1")) as Hs
    by (vm_compute; by eexists).
  split; [exact Hs|].
  destruct (flush_publishes_final_count 1 "d1"
              [FromStream (Chunk 1048576); FromStream (Chunk 1048576)]
              (run [OpCreateSession 0 "https://example.test/v" "22"
                      (Some "d1") "gen1"] initial) Hs) as [_ Hp].
  unfold twoMiBStreamed. rewrite Hp. reflexivity.
Defined.

(** X20.  Once the [cleanup] function of a stream has run, the
    callbacks that report on the child process are silent: whatever
    sequence of [error], [exit], [close], timeout and further
    [cleanup] calls follows, no event is published and neither service
    changes.  The cleanup itself publishes nothing either. *)
Theorem cleaned_up_stream_is_silent (now : Z) (d : string)
    (calls : list BusCall) (events : list StreamEvent) (w : World) :
  Forall (λ e, processEvent e = true) events →
  let before := busRun now calls (streamDownload d, w) in
  let cleaned := streamStep now Cleanup before.1 before.2 in
  cleaned.2 = before.2
  ∧ (busRun now (FromStream <$> events) cleaned).2 = before.2.
Proof.
  intros Hev. cbn zeta.
  pose proof (busRun_cleaned now calls (streamDownload d) w) as Hinv.
  destruct (busRun now calls (streamDownload d, w)) as [s w1].
  cbn [fst snd] in *.
  assert ((streamStep now Cleanup s w1).2 = w1
          ∧ st_isCleanedUp (streamStep now Cleanup s w1).1 = true
          ∧ st_timeoutId (streamStep now Cleanup s w1).1 = false)
    as (Hw & Hc & Ht).
  { cbn. destruct (st_isCleanedUp s) eqn:Hc.
    - split; [done|]. split; [done|]. by apply Hinv.
    - destruct (_ && _); by cbn. }
  split; [done|].
  destruct (streamStep now Cleanup s w1) as [s2 w2]. cbn [fst snd] in *.
  subst w2. by apply silent_run.
Qed.

Lemma cleaned_up_stream_is_silent_witness :
  (busRun 1 (FromStream <$> [Exit (Some 1%Z) None "1";
                             Close (Some 1%Z) None "1"; Timeout])
     (streamStep 1 Cleanup twoMiBStreamed.1 twoMiBStreamed.2)).2
  = twoMiBStreamed.2.
Proof.
  refine (proj2 (cleaned_up_stream_is_silent 1 "d1"
            [FromStream (Chunk 1048576); FromStream (Chunk 1048576)]
            [Exit (Some 1%Z) None "1"; Close (Some 1%Z) None "1"; Timeout]
            (run [OpCreateSession 0 "https://example.test/v" "22"
                    (Some "d1") "gen1"] initial) _)).
  repeat constructor.
Defined.

(** ** File names and media types *)

Section FileNames.

Implicit Types (s : jsstring) (c : N).

Lemma underscore_plain : isPlainChar underscore = true.
Proof. reflexivity. Qed.

Lemma sanitize_fixpoint s :
  length s ≤ 200 → Forall (λ c, isPlainChar c = true) s →
  DownloadService.sanitizeFilename s = s.
Proof.
  intros Hlen Hs. unfold DownloadService.sanitizeFilename.
  assert ((λ c, if isReservedChar c then underscore else c) <$> s = s) as ->.
  { clear Hlen. induction Hs as [|c s Hc _ IH]; [done|].
    cbn. rewrite IH. f_equal.
    unfold isPlainChar in Hc. by destruct (isReservedChar c). }
  rewrite replaceRuns_none.
  - by apply take_ge.
  - eapply Forall_impl; [exact Hs|]. intros c Hc. unfold isPlainChar in Hc.
    destruct (Str.isSpace c); [|done]. by rewrite andb_false_r in Hc.
Qed.

Lemma sanitize_plain s :
  Forall (λ c, isPlainChar c = true) (DownloadService.sanitizeFilename s).
Proof.
  unfold DownloadService.sanitizeFilename. apply Forall_take.
  apply replaceRuns_Forall; [exact underscore_plain|].
  apply Forall_fmap, Forall_forall. intros c _. cbn. intros Hsp.
  unfold isPlainChar. rewrite Hsp.
  destruct (isReservedChar c) eqn:Hr; [reflexivity|]. by rewrite Hr.
Qed.

Lemma sanitize_length s : length (DownloadService.sanitizeFilename s) ≤ 200.
Proof. unfold DownloadService.sanitizeFilename. rewrite length_take. lia. Qed.

End FileNames.

(** X21.  [sanitizeFilename] of the download and conversion services
    returns at most 200 characters, none of which is white space or one
    of the nine reserved characters; it leaves a name alone that is
    already of this kind, and so applying it twice is the same as
    applying it once.  The empty name stays empty: there is no
    fallback. *)
Theorem sanitizeFilename_spec (filename : jsstring) :
  let out := DownloadService.sanitizeFilename filename in
  length out ≤ 200
  ∧ Forall (λ c, isReservedChar c = false ∧ Str.isSpace c = false) out
  ∧ DownloadService.sanitizeFilename out = out
  ∧ (length filename ≤ 200 →
     Forall (λ c, isReservedChar c = false ∧ Str.isSpace c = false) filename →
     out = filename)
  ∧ ConversionService.sanitizeFilename filename = out
  ∧ DownloadService.sanitizeFilename [] = [].
Proof.
  cbn zeta.
  assert (∀ s, Forall (λ c, isPlainChar c = true) s ↔
               Forall (λ c, isReservedChar c = false ∧ Str.isSpace c = false) s)
    as Hplain.
  { intros s. apply Forall_proper; [|done]. intros c. unfold isPlainChar.
    rewrite andb_true_iff, !negb_true_iff. done. }
  split; [apply sanitize_length|].
  split; [apply Hplain, sanitize_plain|].
  split; [apply sanitize_fixpoint; [apply sanitize_length|apply sanitize_plain]|].
  split; [|done].
  intros Hlen Hs. apply sanitize_fixpoint; [done|by apply Hplain].
Qed.

(** X22.  The format functions of the ConversionService agree with one
    another, whatever string they are given: [getFfmpegArgs] returns an
    argument vector exactly for the formats that [isValidFormat]
    accepts, and throws [Unsupported conversion format: ...] with the
    string as it was given for all others.  For an accepted format the
    vector reads from standard input and writes to standard output,
    [getContentType] returns one of the four media types of its table,
    never the fallback, and [getFileExtension] is one of mp3, mp4, webm
    and aac. *)
Theorem conversion_formats_agree (toLowerCase : jsstring → jsstring)
    (format : jsstring) :
  let valid := ConversionService.isValidFormat toLowerCase format in
  let args := ConversionService.getFfmpegArgs toLowerCase format in
  (valid = true ↔ ∃ vector, args = Done vector)
  ∧ (valid = false ↔
     args = Raised (Str.lit "Unsupported conversion format: " ++ format))
  ∧ (∀ vector, args = Done vector →
       take 2 vector = [Str.lit "-i"; Str.lit "pipe:0"]
       ∧ last vector = Some (Str.lit "pipe:1")
       ∧ (∃ mediaType,
            ConversionService.getContentType toLowerCase format
            = Text mediaType
            ∧ mediaType ∈ ConversionService.contentTypeMap.*2)
       ∧ ConversionService.getFileExtension toLowerCase format
         ∈ ConversionService.supportedFormats).
Proof.
  cbn zeta.
  unfold ConversionService.isValidFormat, ConversionService.getFfmpegArgs,
    ConversionService.getContentType, ConversionService.getFileExtension.
  generalize (toLowerCase format) as f. intros f.
  destruct (decide (f = Str.lit "mp3")) as [->|H1];
    [|destruct (decide (f = Str.lit "aac")) as [->|H2];
      [|destruct (decide (f = Str.lit "mp4")) as [->|H3];
        [|destruct (decide (f = Str.lit "webm")) as [->|H4]]]].
  1-4: split; [split; [intros _; by eexists | intros _; by vm_compute]|];
       (split; [split; [by vm_compute | by vm_compute]|]);
       intros vector Hv; vm_compute in Hv; injection Hv as <-;
       (split; [by vm_compute|]); (split; [by vm_compute|]);
       (split; [eexists; split; [by vm_compute|]|]);
       unfold ConversionService.contentTypeMap,
         ConversionService.supportedFormats;
       cbn [fmap list_fmap snd]; rewrite !elem_of_cons; tauto.
  assert (f ∉ ConversionService.supportedFormats) as Hnot.
  { unfold ConversionService.supportedFormats.
    rewrite !not_elem_of_cons. repeat split; try done. apply not_elem_of_nil. }
  rewrite !bool_decide_eq_false_2 by done.
  split; [split; [done | by intros [? ?]]|].
  split; [done|]. by intros vector.
Qed.

(** ** Supported media addresses *)

Section SupportedAddresses.

Implicit Types (s pat ext : jsstring).

Lemma includes_spec pat s : includes pat s = true ↔ substringOf pat s.
Proof.
  induction s as [|c s IH]; cbn.
  - destruct (Str.startsWith false pat []) eqn:Hp.
    + split; [intros _|done]. apply startsWith_exact in Hp as [post Hp].
      by exists [], post.
    + split; [done|]. intros (pre & post & Hs). exfalso.
      destruct pre; [|done]. cbn in Hs.
      assert (Str.startsWith false pat [] = true) as Ht
        by (apply startsWith_exact; by exists post).
      congruence.
  - destruct (Str.startsWith false pat (c :: s)) eqn:Hp.
    + split; [intros _|done]. apply startsWith_exact in Hp as [post Hp].
      by exists [], post.
    + rewrite IH. split.
      * intros (pre & post & ->). by exists (c :: pre), post.
      * intros (pre & post & Hs). destruct pre as [|c' pre].
        -- exfalso. cbn in Hs.
           assert (Str.startsWith false pat (c :: s) = true) as Ht
             by (apply startsWith_exact; by exists post).
           congruence.
        -- injection Hs as -> ->. by exists pre, post.
Qed.

Lemma extensionAt_spec s :
  extensionAt s = true ↔
  ∃ ext found post,
    ext ∈ videoExtensions ∧ s = [46%N] ++ found ++ post
    ∧ Str.foldCase <$> found = Str.foldCase <$> ext
    ∧ (post = [] ∨ head post = Some 63%N).
Proof.
  unfold extensionAt. destruct s as [|c r].
  { split; [done|]. by intros (? & ? & ? & _ & ? & _). }
  destruct (N.eqb_spec c 46) as [->|Hc].
  - rewrite existsb_exists. split.
    + intros (ext & Hin%list_elem_of_In & Hm).
      destruct (Str.stripPrefix true ext r) as [post|] eqn:Hsp; [|done].
      apply stripPrefix_ci in Hsp as (found & -> & Hf).
      exists ext, found, post. repeat split; [done..|].
      destruct post as [|q post]; [by left|]. right. cbn.
      by apply N.eqb_eq in Hm as ->.
    + intros (ext & found & post & Hin & [= ->] & Hf & Hpost).
      exists ext. split; [by apply list_elem_of_In|].
      assert (Str.stripPrefix true ext (found ++ post) = Some post) as ->.
      { apply stripPrefix_ci. by exists found. }
      destruct Hpost as [->|Hq]; [done|].
      destruct post as [|q post]; [done|]. cbn in Hq. injection Hq as ->.
      done.
  - assert (match c with
            | 46%N => existsb
                        (λ ext, match Str.stripPrefix true ext r with
                                | Some [] => true
                                | Some (c :: _) => (c =? 63)%N
                                | None => false
                                end) videoExtensions
            | _ => false
            end = false) as ->.
    { destruct c as [|p]; [done|].
      do 6 (destruct p as [p|p|]; try done). }
    split; [done|]. intros (? & ? & ? & _ & [= ? _] & _). done.
Qed.

Lemma hasVideoExtension_spec s :
  hasVideoExtension s = true ↔
  ∃ ext, ext ∈ videoExtensions ∧ endsPathWith ext s.
Proof.
  induction s as [|c s IH].
  - cbn [hasVideoExtension]. rewrite orb_false_r, extensionAt_spec.
    split; [by intros (? & ? & ? & _ & ? & _)|].
    intros (ext & _ & pre & found & post & Hs & _).
    by destruct pre.
  - cbn [hasVideoExtension]. rewrite orb_true_iff, IH, extensionAt_spec.
    split.
    + intros [(ext & found & post & Hin & Hs & Hf & Hp)
             |(ext & Hin & pre & found & post & Hs & Hf & Hp)].
      * exists ext. split; [done|]. by exists [], found, post.
      * exists ext. split; [done|]. exists (c :: pre), found, post.
        by rewrite Hs.
    + intros (ext & Hin & pre & found & post & Hs & Hf & Hp).
      destruct pre as [|c' pre].
      * left. by exists ext, found, post.
      * right. injection Hs as -> ->. exists ext. split; [done|].
        by exists pre, found, post.
Qed.

End SupportedAddresses.

(** X23.  [isSupportedMediaUrl] accepts exactly the addresses that
    [isValidUrl] accepts and that contain, anywhere in their text, the
    name of one of the twelve platforms, or a dot followed by mp4,
    webm, m3u8, mp3 or m4a (in any case) at the end of the text or
    before a question mark.  The platform name is looked for in the
    whole address, not in the host. *)
Theorem isSupportedMediaUrl_spec (parseURL : jsstring → option URL)
    (toLowerCase : jsstring → jsstring) (url : jsstring) :
  isSupportedMediaUrl parseURL toLowerCase url = true ↔
  isValidUrl parseURL toLowerCase url = true
  ∧ ((∃ pattern, pattern ∈ supportedPatterns ∧ substringOf pattern url)
     ∨ (∃ ext, ext ∈ videoExtensions ∧ endsPathWith ext url)).
Proof.
  unfold isSupportedMediaUrl.
  destruct (isValidUrl parseURL toLowerCase url); cbn [negb].
  - rewrite orb_true_iff, existsb_exists, hasVideoExtension_spec.
    split.
    + intros [(pattern & Hin%list_elem_of_In & Hp%includes_spec)|Hext].
      * split; [done|]. left. by exists pattern.
      * split; [done|]. by right.
    + intros [_ [(pattern & Hin & Hp)|Hext]]; [left|by right].
      exists pattern. split; [by apply list_elem_of_In|by apply includes_spec].
  - split; [done | by intros [? _]].
Qed.

(** The platform name may stand in the query string. *)
Example isSupportedMediaUrl_examples :
  let supported s := isSupportedMediaUrl demoParse demoLower (Str.lit s) in
  supported "https://www.youtube.com/watch?v=1" = true
  ∧ supported "https://example.test/?ref=youtube.com" = true
  ∧ supported "https://example.test/clip.MP4?x=1" = true
  ∧ supported "https://example.test/clip.mp4/more" = false
  ∧ supported "http://localhost/clip.mp4" = false.
Proof. cbn zeta. repeat split; reflexivity. Qed.

(** * Format entries (services/ytdlpService.js) *)

Section Numerals.

Implicit Types (s ds rest : jsstring) (d : Decimal.uint) (z : Z).

Lemma lit_cons a str :
  Str.lit (String a str)
  = N.of_nat (Byte.to_nat (Ascii.byte_of_ascii a)) :: Str.lit str.
Proof. reflexivity. Qed.

Lemma uint_digits d : isDigits (Str.lit (NilEmpty.string_of_uint d)).
Proof.
  induction d; cbn [NilEmpty.string_of_uint]; rewrite ?lit_cons;
    [constructor|..]; by constructor.
Qed.

Lemma uint_value_acc d (acc : positive) :
  fold_left (λ acc c, (10 * acc + (c - 48))%N)
    (Str.lit (NilEmpty.string_of_uint d)) (N.pos acc)
  = N.pos (Pos.of_uint_acc d acc).
Proof.
  revert acc. induction d; intros acc; cbn [NilEmpty.string_of_uint];
    rewrite ?lit_cons; [done|..]; cbn [fold_left Pos.of_uint_acc];
    (etrans; [|apply IHd]); f_equal; cbn; lia.
Qed.

Lemma uint_value d :
  Str.digitsValue (Str.lit (NilEmpty.string_of_uint d)) = Pos.of_uint d.
Proof.
  unfold Str.digitsValue.
  induction d; cbn [NilEmpty.string_of_uint]; rewrite ?lit_cons; [done|..];
    cbn [fold_left Pos.of_uint]; [done|..];
    (etrans; [|apply uint_value_acc]); f_equal.
Qed.

Lemma uint_nonempty d :
  d ≠ Decimal.Nil → Str.lit (NilEmpty.string_of_uint d) ≠ [].
Proof. by destruct d. Qed.

(** The decimal notation of a natural number is a non-empty run of
    digits whose value is that number. *)
Lemma ofZ_digits z :
  (0 ≤ z)%Z →
  Str.ofZ z ≠ [] ∧ isDigits (Str.ofZ z)
  ∧ Str.digitsValue (Str.ofZ z) = Z.to_N z.
Proof.
  intros Hz. unfold Str.ofZ. destruct z as [|p|p]; [| |lia].
  - split; [done|]. split; [|done]. by repeat constructor.
  - cbn [Z.to_int NilEmpty.string_of_int].
    split; [apply uint_nonempty, Unsigned.to_uint_nonnil|].
    split; [apply uint_digits|].
    by rewrite uint_value, Unsigned.of_to.
Qed.

Lemma span_run (P : N → bool) s rest :
  Forall (λ c, P c = true) s →
  (∀ c, head rest = Some c → P c = false) →
  Str.span P (s ++ rest) = (s, rest).
Proof.
  intros Hs Hrest. induction Hs as [|c s Hc _ IH]; cbn.
  - destruct rest as [|c rest]; cbn; [done|]. by rewrite (Hrest c).
  - by rewrite Hc, IH.
Qed.

Lemma extractResolutionValue_run ds rest :
  ds ≠ [] → isDigits ds → noDigitAhead rest →
  extractResolutionValue (ds ++ rest) = Z.of_N (Str.digitsValue ds).
Proof.
  intros Hne Hds Hrest. unfold extractResolutionValue.
  destruct ds as [|c ds]; [done|].
  assert (Hc : Str.isDigit c = true) by by inversion Hds.
  cbn [app Str.dropWhile]. rewrite Hc. cbn [negb].
  change (c :: ds ++ rest) with ((c :: ds) ++ rest).
  by rewrite (span_run _ _ _ Hds Hrest).
Qed.

Lemma extractResolutionValue_ofZ z rest :
  (0 ≤ z)%Z → noDigitAhead rest →
  extractResolutionValue (Str.ofZ z ++ rest) = z.
Proof.
  intros Hz Hrest. destruct (ofZ_digits z Hz) as (Hne & Hds & Hval).
  rewrite extractResolutionValue_run by done. rewrite Hval. lia.
Qed.

End Numerals.

Section ResolutionLabels.

Implicit Types (s ds rest : jsstring) (w h : Z).

Lemma digit_not_space c : Str.isDigit c = true → Str.isSpace c = false.
Proof.
  unfold Str.isDigit, Str.isSpace, Str.inRange.
  rewrite andb_true_iff, !N.leb_le. intros [? ?].
  repeat (apply orb_false_iff; split);
    rewrite ?andb_false_iff, ?N.leb_gt, ?N.eqb_neq; lia.
Qed.

Lemma digits_head ds rest c :
  ds ≠ [] → isDigits ds → head (ds ++ rest) = Some c → Str.isDigit c = true.
Proof.
  intros Hne Hds. destruct ds as [|d ds]; [done|].
  cbn. intros [= <-]. by inversion Hds.
Qed.

Lemma digits_last ds s c :
  ds ≠ [] → isDigits ds → last (s ++ ds) = Some c → Str.isDigit c = true.
Proof.
  intros Hne Hds.
  destruct (exists_last Hne) as (ds' & d & ->).
  rewrite app_assoc, last_snoc. intros [= <-].
  apply Forall_app in Hds as [_ Hd]. by inversion Hd.
Qed.

Lemma noDigitAhead_lit_x rest : noDigitAhead (Str.lit "x" ++ rest).
Proof. intros c. cbn. by intros [= <-]. Qed.

Lemma noDigitAhead_lit_p : noDigitAhead (Str.lit "p").
Proof. intros c. cbn. by intros [= <-]. Qed.

(** A resolution text of the form width, [x], height is taken over as
    the label. *)
Lemma normalizeResolution_text format w h :
  (0 ≤ w)%Z → (0 ≤ h)%Z →
  RawFormat.resolution format
  = Some (Str.ofZ w ++ Str.lit "x" ++ Str.ofZ h) →
  normalizeResolution format video = Str.ofZ w ++ Str.lit "x" ++ Str.ofZ h.
Proof.
  intros Hw Hh Hres.
  destruct (ofZ_digits w Hw) as (Hwne & Hwds & _).
  destruct (ofZ_digits h Hh) as (Hhne & Hhds & _).
  unfold normalizeResolution. rewrite Hres.
  set (dims := Str.ofZ w ++ Str.lit "x" ++ Str.ofZ h).
  change (default [] (Some dims)) with dims.
  assert (Hhead : ∀ c, head dims = Some c → Str.isDigit c = true)
    by (intros c; by apply digits_head).
  assert (Hlast : ∀ c, last dims = Some c → Str.isDigit c = true).
  { intros c. unfold dims. rewrite app_assoc. by apply digits_last. }
  assert (Htrim : Str.trim dims = dims).
  { unfold Str.trim. rewrite (dropWhile_id Str.isSpace dims).
    - apply dropWhileEnd_id. intros c Hc. by apply digit_not_space, Hlast.
    - intros c Hc. by apply digit_not_space, Hhead. }
  rewrite Htrim.
  assert (Hstr : Truthy.str (Some dims) = true).
  { unfold dims. destruct (Str.ofZ w); [done|reflexivity]. }
  rewrite Hstr. cbn [andb].
  rewrite bool_decide_eq_false_2.
  2:{ intros [= Heq]. specialize (Hhead 117%N). rewrite Heq in Hhead.
      by specialize (Hhead eq_refl). }
  cbn [negb]. rewrite bool_decide_eq_true_2; [done|].
  unfold dims. rewrite !elem_of_app. right; left. cbn. by left.
Qed.

End ResolutionLabels.

(** X24.  The number by which the video entries are ordered is read
    back from the resolution label, and it is the first number of that
    label.  A format with a height but no width gets the label
    [<height>p] and is ordered by its height; a format with both
    dimensions, or with a resolution text [<width>x<height>], keeps or
    gets that text as its label and is ordered by its width, not by its
    height.  The label of an audio entry has the value 0. *)
Theorem resolution_sort_value (format : RawFormat.t) (w h : Z) :
  (0 < w)%Z → (0 < h)%Z →
  RawFormat.height format = Some h →
  let dims := Str.ofZ w ++ Str.lit "x" ++ Str.ofZ h in
  let label := normalizeResolution format video in
  (RawFormat.resolution format = Some dims
   ∨ (Truthy.str (RawFormat.resolution format) = false
      ∧ RawFormat.width format = Some w) →
   label = dims ∧ extractResolutionValue label = w)
  ∧ (Truthy.str (RawFormat.resolution format) = false →
     Truthy.int (RawFormat.width format) = false →
     label = Str.ofZ h ++ Str.lit "p" ∧ extractResolutionValue label = h)
  ∧ extractResolutionValue (normalizeResolution format audio) = 0%Z.
Proof.
  intros Hw Hh Hheight dims label.
  assert (Hih : Truthy.int (RawFormat.height format) = true).
  { rewrite Hheight. cbn. apply negb_true_iff, Z.eqb_neq. lia. }
  split; [|split; [|reflexivity]].
  - intros Hcase.
    assert (Hlabel : label = dims).
    { destruct Hcase as [Hres|[Hres Hwidth]].
      - apply normalizeResolution_text; [lia|lia|done].
      - unfold label, normalizeResolution. rewrite Hres, Hih, Hwidth, Hheight.
        cbn [andb from_option id Truthy.int].
        assert ((w =? 0)%Z = false) as -> by (apply Z.eqb_neq; lia).
        done. }
    split; [done|]. rewrite Hlabel. unfold dims.
    apply extractResolutionValue_ofZ; [lia|apply noDigitAhead_lit_x].
  - intros Hres Hwidth.
    assert (Hlabel : label = Str.ofZ h ++ Str.lit "p").
    { unfold label, normalizeResolution.
      rewrite Hres, Hih, Hwidth, Hheight. done. }
    split; [done|]. rewrite Hlabel.
    apply extractResolutionValue_ofZ; [lia|apply noDigitAhead_lit_p].
Qed.

Lemma resolution_sort_value_witness :
  normalizeResolution (rawVideo (Some 1920%Z) 1080 None) video
  = Str.lit "1920x1080"
  ∧ extractResolutionValue
      (normalizeResolution (rawVideo (Some 1920%Z) 1080 None) video)
    = 1920%Z.
Proof.
  destruct (resolution_sort_value (rawVideo (Some 1920%Z) 1080 None)
              1920 1080) as [Hdims _]; [lia|lia|reflexivity|].
  apply Hdims. right. split; reflexivity.
Defined.

Section FileSizes.

Lemma pow1024_0 : inject_Z (1024 ^ Z.of_nat 0) = 1%Q.
Proof. reflexivity. Qed.

Lemma scaleSize_spec fuel (size : Q) (i : nat) :
  i + fuel = 4 →
  ∃ (size' : Q) (i' : nat),
    scaleSize fuel size i = (size', i')
    ∧ i ≤ i' ≤ 4
    ∧ (size == size' * inject_Z (1024 ^ Z.of_nat (i' - i)))%Q
    ∧ (i' < 4 → (size' < 1024)%Q)
    ∧ (i < i' → (1 <= size')%Q).
Proof.
  revert size i. induction fuel as [|fuel IH]; intros size i Hfuel.
  - exists size, i. split; [done|]. split; [lia|].
    rewrite Nat.sub_diag. split; [by rewrite pow1024_0, Qmult_1_r|].
    split; lia.
  - cbn [scaleSize].
    destruct (Qle_bool 1024 size) eqn:Hle; cbn [andb];
      [case_bool_decide as Hi|].
    + apply Qle_bool_iff in Hle.
      destruct (IH (size / 1024)%Q (S i)) as (size' & i' & Hrun & Hi' & Heq
                                              & Hlt & Hge); [lia|].
      exists size', i'. split; [done|]. split; [lia|].
      assert (Hsize : (size == size / 1024 * 1024)%Q) by field.
      split; [|split; [done|]].
      * replace (i' - i) with (S (i' - S i)) by lia.
        rewrite Nat2Z.inj_succ, Z.pow_succ_r by lia.
        rewrite inject_Z_mult, Hsize at 1. rewrite Heq. ring.
      * intros _. destruct (decide (S i < i')) as [Hmore|Hsame]; [by apply Hge|].
        replace (i' - S i) with 0 in Heq by lia.
        rewrite pow1024_0, Qmult_1_r in Heq. rewrite <- Heq.
        apply Qle_shift_div_l; [reflexivity|]. by rewrite Qmult_1_l.
    + lia.
    + exists size, i. split; [done|]. split; [lia|].
      rewrite Nat.sub_diag. split; [by rewrite pow1024_0, Qmult_1_r|].
      split; [|lia].
      intros _. apply Qnot_le_lt. intros Hge.
      apply Qle_bool_iff in Hge. congruence.
Qed.

Lemma ofZ_head (z : Z) :
  ∃ c rest, Str.ofZ z = c :: rest ∧ (Str.isDigit c = true ∨ c = 45%N).
Proof.
  destruct z as [|p|p].
  - exists 48%N, []. split; [reflexivity|by left].
  - destruct (ofZ_digits (Z.pos p)) as (Hne & Hds & _); [lia|].
    destruct (Str.ofZ (Z.pos p)) as [|c rest]; [done|].
    exists c, rest. split; [done|]. left. by inversion Hds.
  - unfold Str.ofZ. cbn [Z.to_int NilEmpty.string_of_int].
    rewrite lit_cons. eexists _, _. split; [done|]. by right.
Qed.

Lemma formatFileSize_head (bytes : Q) :
  ∃ c rest, formatFileSize bytes = c :: rest
            ∧ (Str.isDigit c = true ∨ c = 45%N).
Proof.
  unfold formatFileSize. destruct (scaleSize 4 bytes 0) as [size i].
  unfold toFixed2Trimmed.
  destruct (ofZ_head (Qfloor (size * 100 + (1 # 2)) / 100))
    as (c & rest & -> & Hc).
  eexists c, _. split; [reflexivity|done].
Qed.

End FileSizes.

(** X25.  [formatFileSize] divides by 1024 until the number is below
    1024 or the unit TB is reached: the text is the rounded number, a
    blank and one of the units B, KB, MB, GB, TB, where the number
    times the corresponding power of 1024 is the number of bytes, the
    number is below 1024 unless the unit is TB, and it is at least 1
    unless the unit is B. *)
Theorem formatFileSize_scale (bytes : Q) :
  ∃ (size : Q) (i : nat) (unit : jsstring),
    units !! i = Some unit
    ∧ formatFileSize bytes = toFixed2Trimmed size ++ Str.lit " " ++ unit
    ∧ (bytes == size * inject_Z (1024 ^ Z.of_nat i))%Q
    ∧ (i < 4 → (size < 1024)%Q)
    ∧ (0 < i → (1 <= size)%Q).
Proof.
  destruct (scaleSize_spec 4 bytes 0) as (size & i & Hrun & Hi & Heq
                                          & Hlt & Hge); [done|].
  rewrite Nat.sub_0_r in Heq.
  assert (Hunit : is_Some (units !! i)).
  { apply lookup_lt_is_Some. cbn. lia. }
  destruct Hunit as [unit Hunit].
  exists size, i, unit. split; [done|].
  split; [|done].
  unfold formatFileSize. by rewrite Hrun, Hunit.
Qed.

(** X26.  The size text of a format entry says how the size is known:
    it is [unknown] exactly when neither the exact nor the approximate
    size is a positive number, and it begins with a tilde exactly when
    only the approximate size is.  An exact size is never shown with a
    tilde, and a format with a positive size never reads [unknown]. *)
Theorem normalizeFileSize_marks (filesize filesize_approx : option Q) :
  let text := normalizeFileSize filesize filesize_approx in
  (text = Str.lit "unknown"
   ↔ Truthy.positive filesize = false
     ∧ Truthy.positive filesize_approx = false)
  ∧ (head text = Some 126%N
     ↔ Truthy.positive filesize = false
       ∧ Truthy.positive filesize_approx = true).
Proof.
  cbn zeta. unfold normalizeFileSize.
  destruct (Truthy.positive filesize) eqn:Hexact.
  - destruct (formatFileSize_head (default 0%Q filesize))
      as (c & rest & -> & Hc).
    split; (split; [|by intros [? _]]).
    + intros [= -> _]. by destruct Hc.
    + cbn. intros [= ->]. by destruct Hc.
  - destruct (Truthy.positive filesize_approx) eqn:Happrox.
    + split; split.
      * cbn. by intros [= ?].
      * by intros [_ ?].
      * done.
      * done.
    + split; split.
      * done.
      * done.
      * cbn. by intros [= ?].
      * by intros [_ ?].
Qed.

Section Durations.

Lemma Qfloor_unique (x : Q) (z : Z) :
  (inject_Z z <= x)%Q → (x < inject_Z (z + 1))%Q → Qfloor x = z.
Proof.
  intros Hle Hlt.
  pose proof (Qfloor_le x) as Hfloor. pose proof (Qlt_floor x) as Hceil.
  assert (Qfloor x < z + 1)%Z
    by (rewrite Zlt_Qlt; eapply Qle_lt_trans; [apply Hfloor|apply Hlt]).
  assert (z < Qfloor x + 1)%Z
    by (rewrite Zlt_Qlt; eapply Qle_lt_trans; [apply Hle|apply Hceil]).
  lia.
Qed.

Lemma Qfloor_div (x c : Q) (z : Z) :
  (0 < c)%Q → (inject_Z z * c <= x)%Q → (x < (inject_Z z + 1) * c)%Q →
  Qfloor (x / c) = z.
Proof.
  intros Hc Hle Hlt. apply Qfloor_unique.
  - by apply Qle_shift_div_l.
  - rewrite inject_Z_plus. by apply Qlt_shift_div_r.
Qed.

Lemma Qtruncate_nonneg (q : Q) : (0 <= q)%Q → Qtruncate q = Qfloor q.
Proof.
  destruct q as [n d]. unfold Qle, Qtruncate. cbn. intros Hn.
  apply Z.quot_div_nonneg; lia.
Qed.

Lemma Qmod_nonneg (a b : Q) :
  (0 <= a)%Q → (0 < b)%Q → Qmod a b = (a - b * inject_Z (Qfloor (a / b)))%Q.
Proof.
  intros Ha Hb. unfold Qmod. rewrite Qtruncate_nonneg; [done|].
  apply Qle_shift_div_l; [done|]. by rewrite Qmult_0_l.
Qed.

Lemma pad2_twoDigits (n : Z) :
  (0 ≤ n < 60)%Z → pad2 (Str.ofZ n) = twoDigits n.
Proof.
  intros Hn.
  assert (Hall : forallb (λ n, bool_decide (pad2 (Str.ofZ n) = twoDigits n))
                   (seqZ 0 60) = true) by (vm_compute; reflexivity).
  rewrite forallb_forall in Hall.
  eapply bool_decide_eq_true_1, Hall, list_elem_of_In, elem_of_seqZ. lia.
Qed.

End Durations.

(** X27.  [formatDuration] shows the whole seconds of a duration as a
    clock reading; a fraction of a second is dropped.  With h hours, m
    minutes and s seconds, the text is [h:mm:ss] from one hour on and
    [m:ss] below, the minutes then being written without a leading
    zero. *)
Theorem formatDuration_clock (seconds : Q) (h m s : Z) :
  Qfloor seconds = (3600 * h + 60 * m + s)%Z →
  (0 ≤ h)%Z → (0 ≤ m < 60)%Z → (0 ≤ s < 60)%Z →
  formatDuration seconds
  = if (0 <? h)%Z
    then Str.ofZ h ++ Str.lit ":" ++ twoDigits m ++ Str.lit ":"
         ++ twoDigits s
    else Str.ofZ m ++ Str.lit ":" ++ twoDigits s.
Proof.
  intros Hfloor Hh Hm Hs.
  pose proof (Qfloor_le seconds) as Hlo.
  pose proof (Qlt_floor seconds) as Hhi.
  rewrite Hfloor in Hlo, Hhi.
  repeat rewrite inject_Z_plus in Hlo. repeat rewrite inject_Z_mult in Hlo.
  repeat rewrite inject_Z_plus in Hhi. repeat rewrite inject_Z_mult in Hhi.
  assert (Hh' : (inject_Z 0 <= inject_Z h)%Q) by (by rewrite <- Zle_Qle).
  assert (Hm0 : (inject_Z 0 <= inject_Z m)%Q) by (rewrite <- Zle_Qle; lia).
  assert (Hm1 : (inject_Z m <= inject_Z 59)%Q) by (rewrite <- Zle_Qle; lia).
  assert (Hs0 : (inject_Z 0 <= inject_Z s)%Q) by (rewrite <- Zle_Qle; lia).
  assert (Hs1 : (inject_Z s <= inject_Z 59)%Q) by (rewrite <- Zle_Qle; lia).
  change (inject_Z 0) with 0%Q in *. change (inject_Z 59) with 59%Q in *.
  change (inject_Z 3600) with 3600%Q in *.
  change (inject_Z 60) with 60%Q in *.
  change (inject_Z 1) with 1%Q in *.
  assert (Hhours : Qfloor (seconds / 3600) = h)
    by (apply Qfloor_div; lra).
  assert (Hsixty : Qfloor (seconds / 60) = (60 * h + m)%Z).
  { apply Qfloor_div; rewrite ?inject_Z_plus, ?inject_Z_mult;
      change (inject_Z 60) with 60%Q; lra. }
  assert (Hsec0 : (0 <= seconds)%Q) by lra.
  assert (Hminutes : Qfloor (Qmod seconds 3600 / 60) = m).
  { rewrite Qmod_nonneg by lra. rewrite Hhours. apply Qfloor_div; lra. }
  assert (Hsecs : Qfloor (Qmod seconds 60) = s).
  { rewrite Qmod_nonneg by lra. rewrite Hsixty.
    apply Qfloor_unique; rewrite ?inject_Z_plus, ?inject_Z_mult;
      change (inject_Z 60) with 60%Q; change (inject_Z 1) with 1%Q; lra. }
  unfold formatDuration. rewrite Hhours, Hminutes, Hsecs.
  by rewrite !pad2_twoDigits.
Qed.

Lemma formatDuration_clock_witness :
  formatDuration (7384 # 1) = Str.lit "2:03:04"
  ∧ formatDuration (1249 # 10) = Str.lit "2:04".
Proof.
  split.
  - apply (formatDuration_clock (7384 # 1) 2 3 4); [reflexivity|lia..].
  - apply (formatDuration_clock (1249 # 10) 0 2 4); [reflexivity|lia..].
Defined.

(** * Progress lines on stderr (services/downloadService.ts) *)

Section ProgressLines.

Implicit Types (s r rest gap whole frac : jsstring).

Lemma stripPrefix_app ci pat r : Str.stripPrefix ci pat (pat ++ r) = Some r.
Proof.
  induction pat as [|p pat IH]; cbn; [by destruct r|].
  assert (Str.eqChar ci p p = true) as ->; [|done].
  unfold Str.eqChar. destruct ci; apply N.eqb_refl.
Qed.

Lemma spaces1_gap gap r :
  isGap gap → (∀ c, head r = Some c → Str.isSpace c = false) →
  Stderr.spaces1 (gap ++ r) = Some r.
Proof.
  intros [Hne Hgap] Hr. unfold Stderr.spaces1.
  rewrite (span_run _ _ _ Hgap Hr). by destruct gap.
Qed.

Lemma decimal_numeral whole frac r :
  isNumeral whole → isDigits frac → noDigitAhead r →
  Stderr.decimal (whole ++ Str.lit "." ++ frac ++ r) = Some (whole, frac, r).
Proof.
  intros [Hne Hwhole] Hfrac Hr. unfold Stderr.decimal.
  rewrite (span_run _ _ _ Hwhole); [|by intros c [= <-]].
  destruct whole as [|c whole]; [done|].
  change (Stderr.optionalChar 46 (Str.lit "." ++ frac ++ r))
    with ([46%N], frac ++ r).
  cbv beta iota. by rewrite (span_run _ _ _ Hfrac Hr).
Qed.

Lemma numeral_head whole r c :
  isNumeral whole → head (whole ++ r) = Some c → Str.isSpace c = false.
Proof.
  intros [Hne Hds] Hc. eapply digit_not_space, digits_head; done.
Qed.

Lemma sizeUnit_name u rest :
  Stderr.sizeUnit (Str.dropWhile Str.isSpace (unitName u ++ rest)) = Some u.
Proof. by destruct u. Qed.

Lemma digitsValue_zeros whole frac :
  Forall (λ c, c = 48%N) frac →
  Z.of_N (Str.digitsValue (whole ++ frac))
  = (Z.of_N (Str.digitsValue whole) * 10 ^ Z.of_nat (length frac))%Z.
Proof.
  unfold Str.digitsValue. rewrite fold_left_app.
  generalize (fold_left (λ acc c, (10 * acc + (c - 48))%N) whole 0%N).
  intros v Hfrac. revert v.
  induction Hfrac as [|c frac -> _ IH]; intros v.
  - cbn. lia.
  - cbn [fold_left length]. rewrite IH, Nat2Z.inj_succ, Z.pow_succ_r by lia.
    lia.
Qed.

End ProgressLines.

(** X28.  A progress line of the extractor, that is the tag
    [[download]], a percentage, the word [of] and a total with one of
    the units KiB, MiB and GiB, is recognised whatever follows it and
    however wide the gaps are: the total is read as written, digits
    before and after the dot.  When the digits after the dot are all
    zero, the total in bytes is the number before the dot times 1024,
    1024 * 1024 or 1024 * 1024 * 1024. *)
Theorem progress_line_total
    (gap1 pw pf gap2 gap3 whole frac rest : jsstring) (u : Stderr.SizeUnit) :
  isGap gap1 → isGap gap2 → isGap gap3 →
  isNumeral pw → isDigits pf → isNumeral whole → isDigits frac →
  Stderr.progressMatch
    (progressLine gap1 pw pf gap2 gap3 whole frac u rest)
  = Some (whole, frac, u)
  ∧ (Forall (λ c, c = 48%N) frac →
     Stderr.totalBytes whole frac u
     = (Z.of_N (Str.digitsValue whole) * Stderr.multiplier u)%Z).
Proof.
  intros Hgap1 Hgap2 Hgap3 Hpw Hpf Hwhole Hfrac. split.
  - assert (Hat : Stderr.matchAt
                    (progressLine gap1 pw pf gap2 gap3 whole frac u rest)
                  = Some (whole, frac, u)).
    { unfold Stderr.matchAt, progressLine.
      rewrite stripPrefix_app. cbn [mbind option_bind].
      rewrite spaces1_gap; [|done|intros c; by apply numeral_head].
      cbn [mbind option_bind].
      rewrite decimal_numeral; [|done|done|by intros c [= <-]].
      cbn [mbind option_bind Stderr.expectChar Str.lit app].
      change (Stderr.expectChar 37 (Str.lit "%" ++ ?r)) with (Some r).
      cbn [mbind option_bind].
      rewrite spaces1_gap; [|done|by intros c [= <-]].
      cbn [mbind option_bind]. rewrite stripPrefix_app.
      cbn [mbind option_bind].
      rewrite spaces1_gap; [|done|intros c; by apply numeral_head].
      cbn [mbind option_bind].
      rewrite decimal_numeral; [|done|done|by destruct u; intros c [= <-]].
      cbn [mbind option_bind]. by rewrite sizeUnit_name. }
    destruct (progressLine gap1 pw pf gap2 gap3 whole frac u rest);
      cbn [Stderr.progressMatch]; by rewrite Hat.
  - intros Hzero. unfold Stderr.totalBytes, JS.round_div.
    rewrite (digitsValue_zeros _ _ Hzero).
    set (v := Z.of_N (Str.digitsValue whole)).
    set (d := (10 ^ Z.of_nat (length frac))%Z).
    assert (0 < d)%Z by (apply Z.pow_pos_nonneg; lia).
    replace (2 * (v * d * Stderr.multiplier u) + d)%Z
      with (d + (v * Stderr.multiplier u) * (2 * d))%Z by lia.
    rewrite Z.div_add by lia. rewrite Z.div_small by lia. lia.
Qed.

Lemma progress_line_total_witness :
  Stderr.progressMatch
    (Str.lit "[download]  45.2% of   10.00MiB at  1.00MiB/s ETA 00:05")
  = Some (Str.lit "10", Str.lit "00", Stderr.MIB)
  ∧ Stderr.totalBytes (Str.lit "10") (Str.lit "00") Stderr.MIB = 10485760%Z.
Proof.
  destruct (progress_line_total (Str.lit "  ") (Str.lit "45") (Str.lit "2")
              (Str.lit " ") (Str.lit "   ") (Str.lit "10") (Str.lit "00")
              (Str.lit " at  1.00MiB/s ETA 00:05") Stderr.MIB)
    as [Hmatch Htotal];
    [try (split; [cbv; discriminate|]); repeat constructor..|].
  split; [exact Hmatch|]. rewrite Htotal; [reflexivity|repeat constructor].
Defined.

(** * Origin of the format entries (services/ytdlpService.js) *)

Section FormatOrigin.

Variable toLowerCase : jsstring → jsstring.

Implicit Types (c e : FormatInfo.t) (acc : list FormatInfo.t * gset jsstring).

Lemma mergeEntry_cover candidates acc entry :
  coverInv candidates acc →
  coverInv (candidates ++ [entry]) (mergeEntry acc entry).
Proof.
  destruct acc as [processed seen]. intros (Hsound & Hkeys & Hlen).
  cbn [fst snd] in *. unfold mergeEntry. cbn [fst snd].
  assert (Hkeep : coverInv (candidates ++ [entry]) (processed, seen)).
  { split; [|split]; cbn [fst snd].
    - intros e He. apply elem_of_app. left. by apply Hsound.
    - done.
    - rewrite length_app. cbn. lia. }
  case_bool_decide as Hseen.
  - destruct (list_find _ processed) as [[i existing]|] eqn:Hfind; [|done].
    destruct (negb _ && _); [|done].
    apply list_find_Some in Hfind as (Hi & Hsame%sameTriple_triple & _).
    split; [|split]; cbn [fst snd].
    + intros e [j Hj]%list_elem_of_lookup.
      destruct (decide (i = j)) as [->|Hne].
      * rewrite list_lookup_insert_eq in Hj by by eapply lookup_lt_Some.
        apply elem_of_snoc. right. congruence.
      * rewrite list_lookup_insert_ne in Hj by done.
        apply elem_of_snoc. left. apply Hsound.
        by eapply list_elem_of_lookup_2.
    + intros key (e & [j Hj]%list_elem_of_lookup & Hkey)%Hkeys.
      destruct (decide (i = j)) as [->|Hne].
      * exists entry. split.
        -- eapply list_elem_of_lookup_2. apply list_lookup_insert_eq.
           by eapply lookup_lt_Some.
        -- rewrite <- Hkey. symmetry. apply triple_key. congruence.
      * exists e. split; [|done]. eapply list_elem_of_lookup_2.
        by rewrite list_lookup_insert_ne.
    + rewrite length_insert, length_app. cbn. lia.
  - split; [|split]; cbn [fst snd].
    + intros e [He| ->]%elem_of_snoc; apply elem_of_snoc;
        [left; by apply Hsound|by right].
    + intros key [Hk|Hk]%elem_of_union.
      * apply elem_of_singleton in Hk as ->. exists entry.
        split; [apply elem_of_snoc; by right|done].
      * destruct (Hkeys key Hk) as (e & He & Hkey). exists e.
        split; [apply elem_of_snoc; by left|done].
    + rewrite !length_app. cbn. lia.
Qed.

Lemma loop_cover raws acc candidates :
  coverInv candidates acc →
  coverInv (candidates ++ omap (candidate toLowerCase) raws)
    (fold_left (processFormat toLowerCase) raws acc).
Proof.
  revert acc candidates.
  induction raws as [|raw raws IH]; intros acc candidates Hinv; cbn.
  - by rewrite app_nil_r.
  - rewrite processFormat_candidate.
    destruct (candidate toLowerCase raw) as [entry|]; [|by apply IH].
    rewrite (cons_middle entry), app_assoc.
    by apply IH, mergeEntry_cover.
Qed.

Lemma coverInv_initial : coverInv [] ([], ∅).
Proof.
  split; [intros e Hin; by apply elem_of_nil in Hin|].
  split; [intros key Hin; by apply elem_of_empty in Hin|done].
Qed.

Lemma length_omap_le {A B} (f : A → option B) (l : list A) :
  length (omap f l) ≤ length l.
Proof. induction l as [|x l IH]; cbn; [done|]. destruct (f x); cbn; lia. Qed.

End FormatOrigin.

(** X29.  The format list of an analysis invents nothing and loses no
    key: every entry is the entry built from one of the raw formats
    that pass the filters (an id and an extension, not an m3u8
    playlist, a video or audio codec, and for video a size or a
    resolution), and every raw format that passes them is represented
    by an entry with the same key [kind-container-resolution].  The
    list is never longer than the list of raw formats. *)
Theorem normalizeResponse_origin (toLowerCase : jsstring → jsstring)
    (info : RawInfo) :
  let raws := default [] (raw_formats info) in
  let out := formats (normalizeResponse toLowerCase info) in
  (∀ e, e ∈ out →
     ∃ raw, raw ∈ raws ∧ candidate toLowerCase raw = Some e)
  ∧ (∀ raw c, raw ∈ raws → candidate toLowerCase raw = Some c →
       ∃ e, e ∈ out ∧ formatKeyOf e = formatKeyOf c)
  ∧ length out ≤ length raws.
Proof.
  cbn zeta. cbn [formats normalizeResponse].
  set (raws := default [] (raw_formats info)).
  pose proof (loop_inv toLowerCase raws ([], ∅) [] loopInv_initial)
    as (_ & _ & Hcands & _).
  pose proof (loop_cover toLowerCase raws ([], ∅) [] coverInv_initial)
    as (Hsound & Hkeys & Hlen).
  set (processed := (fold_left (processFormat toLowerCase) raws ([], ∅)).1)
    in *.
  pose proof (sort_perm compareFormats processed) as Hperm.
  cbn [app] in *.
  split; [|split].
  - intros e He. rewrite Hperm in He.
    apply Hsound, list_elem_of_omap in He as (raw & Hraw & Hc). by exists raw.
  - intros raw c Hraw Hc.
    destruct (Hkeys (formatKeyOf c)) as (e & He & Hkey).
    { apply Hcands, list_elem_of_omap. by exists raw. }
    exists e. split; [by rewrite Hperm|done].
  - rewrite Hperm. etrans; [exact Hlen|]. apply length_omap_le.
Qed.

(** * The file name of a download
      (services/downloadService.ts, routes/download.ts) *)

Section HeaderFilename.

Implicit Types (s title extension : jsstring).

Lemma alnum_plain c : Str.isAlnum c = true → isPlainChar c = true.
Proof.
  unfold isPlainChar, isReservedChar, Str.isAlnum, Str.isSpace, Str.isDigit,
    Str.isUpper, Str.isLower, Str.inRange.
  intros Hc. rewrite !orb_true_iff, !andb_true_iff, !N.leb_le in Hc.
  apply andb_true_iff. split; apply negb_true_iff.
  - apply bool_decide_eq_false_2. rewrite !elem_of_cons, elem_of_nil. lia.
  - repeat (apply orb_false_iff; split);
      rewrite ?andb_false_iff, ?N.leb_gt, ?N.eqb_neq; lia.
Qed.

Lemma sanitize_alnum s :
  Forall (λ c, Str.isAlnum c = true) s →
  DownloadService.sanitizeFilename s = take 200 s.
Proof.
  intros Hs.
  assert (Hplain : Forall (λ c, isPlainChar c = true) s)
    by (eapply Forall_impl; [exact Hs|apply alnum_plain]).
  destruct (decide (length s ≤ 200)) as [Hle|Hgt].
  - rewrite sanitize_fixpoint by done. by rewrite take_ge.
  - unfold DownloadService.sanitizeFilename. f_equal.
    assert ((λ c, if isReservedChar c then underscore else c) <$> s = s) as ->.
    { clear Hs Hgt. induction Hplain as [|c s Hc _ IH]; [done|].
      cbn. rewrite IH. f_equal.
      unfold isPlainChar in Hc. by destruct (isReservedChar c). }
    apply replaceRuns_none. eapply Forall_impl; [exact Hplain|].
    intros c Hc. unfold isPlainChar in Hc.
    apply andb_true_iff in Hc as [_ Hc]. by apply negb_true_iff.
Qed.

Lemma noRuns_none C prev s :
  Forall (λ c, C c = false) s → noRuns C prev s.
Proof.
  intros Hs. revert prev. induction Hs as [|c s Hc _ IH]; intros prev; cbn;
    [done|]. rewrite Hc. apply IH.
Qed.

Lemma take_take_app s extension :
  take 100 (take 200 s ++ extension) = take 100 (s ++ extension).
Proof.
  destruct (decide (length s ≤ 200)) as [Hle|Hgt].
  - by rewrite (take_ge s) by lia.
  - rewrite !take_app_le; [|lia|rewrite length_take; lia].
    rewrite take_take. f_equal.
Qed.

End HeaderFilename.

(** X30.  The name that the download route puts into the
    Content-Disposition header, for a title and an extension made of
    letters and digits: it is the first 100 characters of
    [title.extension].  The extension is therefore kept when title, dot
    and extension fit into 100 characters, and is cut off altogether
    when the title alone has 100 characters or more. *)
Theorem headerFilename_cut (title extension : jsstring) :
  Forall (λ c, Str.isAlnum c = true) title →
  Forall (λ c, Str.isAlnum c = true) extension →
  extension ≠ [] →
  headerFilename title extension
  = take 100 (title ++ Str.lit "." ++ extension)
  ∧ (length title + 1 + length extension ≤ 100 →
     headerFilename title extension = title ++ Str.lit "." ++ extension)
  ∧ (100 ≤ length title → headerFilename title extension = take 100 title).
Proof.
  intros Htitle Hext Hne.
  assert (Hcut : headerFilename title extension
                 = take 100 (title ++ Str.lit "." ++ extension)).
  { unfold headerFilename, infoFilename. rewrite sanitize_alnum by done.
    set (name := take 200 title ++ Str.lit "." ++ extension).
    assert (Hnot : Forall (λ c, isUnderscore c = false) name).
    { unfold name. rewrite !Forall_app. split; [|split].
      - apply Forall_take. eapply Forall_impl; [exact Htitle|].
        apply alnum_not_underscore.
      - by repeat constructor.
      - eapply Forall_impl; [exact Hext|]. apply alnum_not_underscore. }
    assert (Hsafe : Forall (λ c, isSafeChar c = true) name).
    { unfold name. rewrite !Forall_app. split; [|split].
      - apply Forall_take. eapply Forall_impl; [exact Htitle|].
        apply alnum_safe.
      - by repeat constructor.
      - eapply Forall_impl; [exact Hext|]. apply alnum_safe. }
    rewrite safeFilename_unfold, cleanName_fix.
    - unfold name. rewrite take_take_app.
      destruct title as [|c title]; [|done].
      destruct extension; done.
    - done.
    - by apply noRuns_none.
    - intros c Hc. apply head_Some_elem_of in Hc.
      by apply (proj1 (Forall_forall _ _) Hnot).
    - intros c Hc. apply last_Some_elem_of in Hc.
      by apply (proj1 (Forall_forall _ _) Hnot). }
  split; [done|]. rewrite Hcut. split.
  - intros Hfit. apply take_ge. rewrite !length_app. cbn. lia.
  - intros Hlong. by rewrite take_app_le.
Qed.

Lemma headerFilename_cut_witness :
  headerFilename (Str.lit "Holiday2024") (Str.lit "mp4")
  = Str.lit "Holiday2024.mp4"
  ∧ headerFilename (replicate 120 97%N) (Str.lit "mp4") = replicate 100 97%N.
Proof.
  split.
  - apply (headerFilename_cut (Str.lit "Holiday2024") (Str.lit "mp4"));
      [by repeat constructor|by repeat constructor|done|cbn; lia].
  - destruct (headerFilename_cut (replicate 120 97%N) (Str.lit "mp4"))
      as (_ & _ & Hlong);
      [by apply Forall_replicate|by repeat constructor|done|].
    rewrite Hlong; [by vm_compute|]. rewrite length_replicate. lia.
Defined.
